(** * Pongo: the paddle, ball and AI-controller logic of a Pong clone

    A shallow embedding of [main.go] and [controller.go], and the
    properties of [Player.Update], [Ball.Update] and [FollowBall.Input].

    - [float64] is the kernel's binary64 type [float] (IEEE 754, round to
      nearest even), so every comparison and every rounding below is the
      one the Go program performs; NaN and the infinities are values of
      the type like any other.  Each operation is rounded on its own, as
      the Go compiler does on amd64.
    - Go pointers are locations of a typed heap; a location that is not
      bound plays the part of [nil], and dereferencing it panics.
    - A panic is the [Panic] outcome of the [Result] monad.
    - [*ebiten.Image] is a pointer as well: [None] is [nil], and an image
      is represented by what the program reads from it, the corner
      [Bounds().Max].  No image is written to by the code below, so the
      pointer is modelled by the image it points to.
    - The keyboard is an argument. *)

From Stdlib Require Import ZArith QArith Qpower Lia Bool List Floats String.
From stdpp Require Import base option gmap.
Import ListNotations.

Notation "x >=? y" := (PrimFloat.leb y x) (only parsing) : float_scope.
Notation "x >? y" := (PrimFloat.ltb y x) (only parsing) : float_scope.

(** ** The Go runtime, as far as the program uses it *)

Inductive Result (A : Type) : Type :=
| Ret (a : A)
| Panic (msg : string).
Arguments Ret {A} a.
Arguments Panic {A} msg.

Definition bind {A B : Type} (r : Result A) (k : A -> Result B) : Result B :=
  match r with
  | Ret a => k a
  | Panic msg => Panic msg
  end.

Notation "'let*' x := r 'in' k" := (bind r (fun x => k))
  (at level 10, x pattern, r at level 100, k at level 200).

Definition loc := positive.

Definition nil_dereference : string :=
  "runtime error: invalid memory address or nil pointer dereference".

Definition deref {A : Type} (m : gmap loc A) (p : loc) : Result A :=
  match m !! p with
  | Some v => Ret v
  | None => Panic nil_dereference
  end.

(** [a && b] and [a || b]: the right operand is evaluated only when the
    left one does not decide. *)
Definition and_then (a b : Result bool) : Result bool :=
  let* x := a in if x then b else Ret false.

Definition or_else (a b : Result bool) : Result bool :=
  let* x := a in if x then Ret true else b.

Infix "&&&" := and_then (at level 40, left associativity).
Infix "|||" := or_else (at level 50, left associativity).

(** [int] is 64 bits wide and wraps around. *)
Definition wrap64 (z : Z) : Z := ((z + 2 ^ 63) mod 2 ^ 64 - 2 ^ 63)%Z.

(** The conversion [float64(n)] of an [int]: the nearest binary64. *)
Definition float64_of_int (z : Z) : float :=
  if (z =? - 2 ^ 63)%Z then (-9223372036854775808)%float
  else if (z <? 0)%Z then (- of_uint63 (Uint63.of_Z (- z)))%float
  else of_uint63 (Uint63.of_Z z).

(** ** Constants and enumerations *)

Definition screenWidth : Z := 320.
Definition screenHeight : Z := 240.

Inductive Direction := Up | Down | Nothing.

Definition Direction_eqb (a b : Direction) : bool :=
  match a, b with
  | Up, Up | Down, Down | Nothing, Nothing => true
  | _, _ => false
  end.

(** ** Data *)

Record Image := { MaxX : Z; MaxY : Z }.

(** [i.Bounds().Max] for an [i] of type [*ebiten.Image]. *)
Definition Bounds_Max (i : option Image) : Result Image :=
  match i with
  | Some img => Ret img
  | None => Panic nil_dereference
  end.

Record Point := { X : float; Y : float }.

Definition Point_Location (p : Point) : float * float := (X p, Y p).

(** The [Controller] interface value held by a player: [nil], an
    [*ArrowKeys] (a struct without fields) or a [*FollowBall]. *)
Inductive Controller :=
| NilController
| ArrowKeysPtr
| FollowBallPtr (fb : loc).

Record Player := {
  Player_Sprite : option Image;
  Player_Point : Point;
  Player_Controller : Controller;
  Player_Speed : float
}.

Record Ball := {
  Ball_Sprite : option Image;
  Ball_Point : Point;
  XSpeed : float;
  YSpeed : float
}.

Record FollowBall := {
  FollowBall_Ball : loc;
  FollowBall_Player : loc;
  lastDecision : Direction;
  count : Z
}.

Record Heap := {
  balls : gmap loc Ball;
  players : gmap loc Player;
  followers : gmap loc FollowBall
}.

(** The two keys [ebiten.IsKeyPressed] is asked about. *)
Record Keys := { KeyArrowUp : bool; KeyArrowDown : bool }.

Definition Player_Height (p : Player) : Result float :=
  let* max := Bounds_Max (Player_Sprite p) in Ret (float64_of_int (MaxY max)).

Definition Player_Width (p : Player) : Result float :=
  let* max := Bounds_Max (Player_Sprite p) in Ret (float64_of_int (MaxX max)).

Definition Ball_Height (b : Ball) : Result float :=
  let* max := Bounds_Max (Ball_Sprite b) in Ret (float64_of_int (MaxY max)).

Definition Ball_Width (b : Ball) : Result float :=
  let* max := Bounds_Max (Ball_Sprite b) in Ret (float64_of_int (MaxX max)).

(** The method set of the [Collider] interface, and the two types of the
    program that have it; [Location] is the method of the embedded
    [Point]. *)
Class ColliderMethods (A : Type) := {
  Height : A -> Result float;
  Width : A -> Result float;
  Location : A -> float * float
}.

#[export] Instance Player_Collider : ColliderMethods Player := {|
  Height := Player_Height;
  Width := Player_Width;
  Location := fun p => Point_Location (Player_Point p)
|}.

#[export] Instance Ball_Collider : ColliderMethods Ball := {|
  Height := Ball_Height;
  Width := Ball_Width;
  Location := fun b => Point_Location (Ball_Point b)
|}.

Definition set_Y (p : Player) (y : float) : Player :=
  {| Player_Sprite := Player_Sprite p;
     Player_Point := {| X := X (Player_Point p); Y := y |};
     Player_Controller := Player_Controller p;
     Player_Speed := Player_Speed p |}.

Definition set_XSpeed (b : Ball) (v : float) : Ball :=
  {| Ball_Sprite := Ball_Sprite b; Ball_Point := Ball_Point b;
     XSpeed := v; YSpeed := YSpeed b |}.

Definition set_YSpeed (b : Ball) (v : float) : Ball :=
  {| Ball_Sprite := Ball_Sprite b; Ball_Point := Ball_Point b;
     XSpeed := XSpeed b; YSpeed := v |}.

Definition set_Point (b : Ball) (x y : float) : Ball :=
  {| Ball_Sprite := Ball_Sprite b; Ball_Point := {| X := x; Y := y |};
     XSpeed := XSpeed b; YSpeed := YSpeed b |}.

Definition store_ball (h : Heap) (p : loc) (v : Ball) : Heap :=
  {| balls := <[p := v]> (balls h); players := players h; followers := followers h |}.

Definition store_player (h : Heap) (p : loc) (v : Player) : Heap :=
  {| balls := balls h; players := <[p := v]> (players h); followers := followers h |}.

Definition store_follower (h : Heap) (p : loc) (v : FollowBall) : Heap :=
  {| balls := balls h; players := players h; followers := <[p := v]> (followers h) |}.

(** ** controller.go *)

Definition ArrowKeys_Input (k : Keys) : Direction :=
  let upPressed := KeyArrowUp k in
  let downPressed := KeyArrowDown k in
  if Bool.eqb upPressed downPressed then Nothing
  else if upPressed then Up
  else Down.

Definition decisionBuffer : Z := 15.

(** [0.6*screenWidth] is a constant expression: Go evaluates it exactly,
    to 192, before it becomes a [float64]. *)
Definition sight : float := 192%float.

(** [FollowBall.Input] on the receiver [fb]; the ball and the player it
    points to are read from the heap. *)
Definition FollowBall_Input (h : Heap) (fb : FollowBall) : Result (Direction * FollowBall) :=
  let* b := deref (balls h) (FollowBall_Ball fb) in
  let '(ballX, ballY) := Location b in
  let* p := deref (players h) (FollowBall_Player fb) in
  let '(x, y) := Location p in
  if (0 <? count fb)%Z then
    Ret (lastDecision fb,
         {| FollowBall_Ball := FollowBall_Ball fb; FollowBall_Player := FollowBall_Player fb;
            lastDecision := lastDecision fb; count := wrap64 (count fb - 1) |})
  else if (abs (ballX - x) <? sight)%float then
    if (ballY <? y - Player_Speed p)%float then
      Ret (Up,
           {| FollowBall_Ball := FollowBall_Ball fb; FollowBall_Player := FollowBall_Player fb;
              lastDecision := Up; count := wrap64 (count fb + decisionBuffer) |})
    else if (ballY >? y + Player_Speed p)%float then
      Ret (Down,
           {| FollowBall_Ball := FollowBall_Ball fb; FollowBall_Player := FollowBall_Player fb;
              lastDecision := Down; count := wrap64 (count fb + decisionBuffer) |})
    else Ret (Nothing, fb)
  else Ret (Nothing, fb).

(** Successive calls of [Input] on one controller, the [i]-th against the
    heap the game has reached by then. *)
Fixpoint FollowBall_Inputs (hs : list Heap) (fb : FollowBall) : Result (list Direction * FollowBall) :=
  match hs with
  | [] => Ret ([], fb)
  | h :: hs' =>
      let* (d, fb1) := FollowBall_Input h fb in
      let* (ds, fb2) := FollowBall_Inputs hs' fb1 in
      Ret (d :: ds, fb2)
  end.

(** The call [p.Input()] through the interface value. *)
Definition Controller_Input (k : Keys) (h : Heap) (c : Controller) : Result (Direction * Heap) :=
  match c with
  | NilController => Panic nil_dereference
  | ArrowKeysPtr => Ret (ArrowKeys_Input k, h)
  | FollowBallPtr l =>
      let* fb := deref (followers h) l in
      let* (d, fb') := FollowBall_Input h fb in
      Ret (d, store_follower h l fb')
  end.

(** ** main.go: Player.Update *)

Definition Player_Update (k : Keys) (h : Heap) (p : loc) : Result Heap :=
  let* pl := deref (players h) p in
  match Player_Controller pl with
  | NilController => Ret h
  | c =>
      let* (dir, h1) := Controller_Input k h c in
      let* pl1 := deref (players h1) p in
      let pl2 :=
        if Direction_eqb dir Up && (Y (Player_Point pl1) - Player_Speed pl1 * 2 >=? 0)%float
        then set_Y pl1 (Y (Player_Point pl1) - Player_Speed pl1)%float
        else pl1 in
      let* down :=
        Ret (Direction_eqb dir Down)
        &&& (let* hgt := Height pl2 in
             Ret (Y (Player_Point pl2) + hgt + Player_Speed pl2 * 2
                  <=? float64_of_int screenHeight)%float) in
      let pl3 :=
        if down then set_Y pl2 (Y (Player_Point pl2) + Player_Speed pl2)%float
        else pl2 in
      Ret (store_player h1 p pl3)
  end.

(** ** main.go: Ball.Update *)

(** A [Collider] interface value: a [*Player] or a [*Ball]. *)
Inductive Collider :=
| PlayerPtr (p : loc)
| BallPtr (b : loc).

(** A method call through the interface value: the pointer is
    dereferenced and the method of its type runs. *)
Definition Collider_Location (h : Heap) (c : Collider) : Result (float * float) :=
  match c with
  | PlayerPtr p => let* pl := deref (players h) p in Ret (Location pl)
  | BallPtr b => let* bl := deref (balls h) b in Ret (Location bl)
  end.

Definition Collider_Width (h : Heap) (c : Collider) : Result float :=
  match c with
  | PlayerPtr p => let* pl := deref (players h) p in Width pl
  | BallPtr b => let* bl := deref (balls h) b in Width bl
  end.

Definition Collider_Height (h : Heap) (c : Collider) : Result float :=
  match c with
  | PlayerPtr p => let* pl := deref (players h) p in Height pl
  | BallPtr b => let* bl := deref (balls h) b in Height bl
  end.

(** The type assertion a [*Ball] followed by [ptr == b]. *)
Definition is_self (c : Collider) (b : loc) : bool :=
  match c with
  | BallPtr ptr => bool_decide (ptr = b)
  | PlayerPtr _ => false
  end.

Definition self_collision : string := "ball.Update: ball cannot collide with itself".

(** The locals [inPaddle] and [inPaddleNextTick] of the loop body, for the
    ball [b] and the collider [c], which is at [(cX, cY)]. *)
Definition inPaddle (h : Heap) (b : Ball) (c : Collider) (cX cY : float) : Result bool :=
  let* inXArea :=
    (let* bW := Width b in Ret (X (Ball_Point b) + bW >=? cX)%float)
    &&& (let* cW := Collider_Width h c in Ret (X (Ball_Point b) <=? cX + cW)%float) in
  let* inYArea :=
    Ret (Y (Ball_Point b) >=? cY)%float
    &&& (let* bH := Height b in
         let* cH := Collider_Height h c in
         Ret (Y (Ball_Point b) + bH <=? cY + cH)%float) in
  Ret (inXArea && inYArea).

Definition inPaddleNextTick (h : Heap) (b : Ball) (c : Collider) (cX cY : float) : Result bool :=
  let nextX := (X (Ball_Point b) + XSpeed b)%float in
  let nextY := (Y (Ball_Point b) + YSpeed b)%float in
  let* inNextX :=
    (let* bW := Width b in Ret (nextX + bW >=? cX)%float)
    &&& (let* cW := Collider_Width h c in Ret (nextX <=? cX + cW)%float) in
  let* inNextY :=
    Ret (nextY >=? cY)%float
    &&& (let* bH := Height b in
         let* cH := Collider_Height h c in
         Ret (nextY + bH <=? cY + cH)%float) in
  Ret (inNextX && inNextY).

(** The [for] loop over the colliders; the recursive call is the next
    iteration, and returning without it is the [break]. *)
Fixpoint scan (h : Heap) (b : loc) (colliders : list Collider) : Result Heap :=
  match colliders with
  | [] => Ret h
  | c :: rest =>
      if is_self c b then Panic self_collision
      else
        let* (cX, cY) := Collider_Location h c in
        let* bl := deref (balls h) b in
        let* inPaddle := inPaddle h bl c cX cY in
        let* inPaddleNextTick := inPaddleNextTick h bl c cX cY in
        if negb inPaddle && inPaddleNextTick
        then Ret (store_ball h b (set_XSpeed bl (XSpeed bl * -1)%float))
        else scan h b rest
  end.

(** The statements after the loop: the screen edges, then the move. *)
Definition edges_and_move (bl : Ball) : Result Ball :=
  let* atX :=
    Ret (X (Ball_Point bl) <=? 0)%float
    ||| (let* bW := Width bl in
         Ret (X (Ball_Point bl) + bW >=? float64_of_int screenWidth)%float) in
  let bl1 := if atX then set_XSpeed bl (- XSpeed bl)%float else bl in
  let* atY :=
    Ret (Y (Ball_Point bl1) <=? 0)%float
    ||| (let* bH := Height bl1 in
         Ret (Y (Ball_Point bl1) + bH >=? float64_of_int screenHeight)%float) in
  let bl2 := if atY then set_YSpeed bl1 (- YSpeed bl1)%float else bl1 in
  Ret (set_Point bl2 (X (Ball_Point bl2) + XSpeed bl2)%float
                     (Y (Ball_Point bl2) + YSpeed bl2)%float).

Definition Ball_Update (h : Heap) (b : loc) (colliders : list Collider) : Result Heap :=
  let* h1 := scan h b colliders in
  let* bl := deref (balls h1) b in
  let* bl' := edges_and_move bl in
  Ret (store_ball h1 b bl').

(** ** main.go: setup *)

Definition playerWidth : Z := 10.
Definition playerHeight : Z := 50.
Definition playerSpeed : Z := 2.
Definition ballWidth : Z := 10.

(** [ebiten.NewImage] returns a pointer that is not [nil]. *)
Definition NewImage (width height : Z) : option Image :=
  Some {| MaxX := width; MaxY := height |}.

Definition playerSprite : option Image := NewImage playerWidth playerHeight.
Definition ballSprite : option Image := NewImage ballWidth ballWidth.

(** The heap [setup] leaves behind: [game.player1] and [game.player2] at
    the player locations 1 and 2, [game.ball] at the ball location 1 and
    the controller [fb] at the controller location 1. *)
Definition setup : Heap :=
  {| balls :=
       {[ 1%positive :=
            {| Ball_Sprite := ballSprite;
               Ball_Point := {| X := float64_of_int (screenWidth / 2 - ballWidth / 2);
                                Y := float64_of_int (screenHeight / 2 - ballWidth / 2) |};
               XSpeed := 1%float; YSpeed := 1%float |} ]};
     players :=
       {[ 1%positive :=
            {| Player_Sprite := playerSprite;
               Player_Point := {| X := 0%float; Y := 0%float |};
               Player_Controller := ArrowKeysPtr;
               Player_Speed := float64_of_int playerSpeed |};
          2%positive :=
            {| Player_Sprite := playerSprite;
               Player_Point := {| X := float64_of_int (screenWidth - playerWidth);
                                  Y := float64_of_int (screenHeight - playerHeight) |};
               Player_Controller := FollowBallPtr 1%positive;
               Player_Speed := float64_of_int playerSpeed |} ]};
     followers :=
       {[ 1%positive :=
            {| FollowBall_Ball := 1%positive; FollowBall_Player := 2%positive;
               lastDecision := Up; count := 0%Z |} ]} |}.

(** ** main.go: Game *)

(** The addresses of the three fields of a [Game]. *)
Record Game := { player1 : loc; player2 : loc; ball : loc }.

(** The game [setup] fills in. *)
Definition game : Game :=
  {| player1 := 1%positive; player2 := 2%positive; ball := 1%positive |}.

(** What [ebiten.CurrentTPS] answers to the test and to the print, and
    what [ebiten.CurrentFPS] answers. *)
Record Meter := { TPS_tested : float; TPS_printed : float; FPS_printed : float }.

(** A line written by [fmt.Println]: a label and a value. *)
Inductive Line := Println (label : string) (v : float).

(** [Game.Update]: the heap after the tick and the lines printed; the
    error it returns is [nil]. *)
Definition Game_Update (k : Keys) (m : Meter) (g : Game) (h : Heap) : Result (Heap * list Line) :=
  let* h1 := Player_Update k h (player1 g) in
  let* h2 := Player_Update k h1 (player2 g) in
  let* h3 := Ball_Update h2 (ball g) [PlayerPtr (player1 g); PlayerPtr (player2 g)] in
  Ret (h3,
       if (TPS_tested m <? 55)%float
       then [Println "TPS:" (TPS_printed m); Println "FPS:" (FPS_printed m)]
       else []).

Definition Game_Layout (outsideWidth outsideHeight : Z) : Z * Z :=
  (screenWidth, screenHeight).

(** The host loop: one call of [Game.Update] per tick, each with the keys
    held and the meter readings of that tick. *)
Fixpoint Game_run (ticks : list (Keys * Meter)) (g : Game) (h : Heap) : Result (Heap * list Line) :=
  match ticks with
  | [] => Ret (h, [])
  | (k, m) :: rest =>
      let* (h1, out1) := Game_Update k m g h in
      let* (h2, out2) := Game_run rest g h1 in
      Ret (h2, out1 ++ out2)
  end.

(** ** Definitions used by the statements and proofs *)

(** The binary64 representation of an integer of magnitude below [2^53]:
    the mantissa is shifted up to [prec] digits. *)
Definition norm53 (p : positive) : positive :=
  Pos.shiftl p (Z.to_N (prec - Zpos (digits2_pos p))%Z).

Definition SFofZ (z : Z) : spec_float :=
  match z with
  | Z0 => S754_zero false
  | Zpos p => S754_finite false (norm53 p) ((Zpos (digits2_pos p) - prec)%Z)
  | Zneg p => S754_finite true (norm53 p) ((Zpos (digits2_pos p) - prec)%Z)
  end.

(** The closed interval [[lo1, hi1]] meets [[lo2, hi2]]. *)
Definition extents_intersect (lo1 hi1 lo2 hi2 : float) : bool :=
  (lo1 <=? hi2)%float && (lo2 <=? hi1)%float.

(** The closed interval [[lo1, hi1]] lies inside [[lo2, hi2]]. *)
Definition extent_within (lo1 hi1 lo2 hi2 : float) : bool :=
  (lo2 <=? lo1)%float && (hi1 <=? hi2)%float.

(** Overlap of two axis-aligned boxes, in the spec's words: the X extents
    intersect and the Y extents intersect. *)
Definition aabb_overlap (aX aY aW aH bX bY bW bH : float) : bool :=
  extents_intersect aX (aX + aW)%float bX (bX + bW)%float
  && extents_intersect aY (aY + aH)%float bY (bY + bH)%float.

(** The ball [bl], one tick later if nothing stops it. *)
Definition moved (bl : Ball) : Ball :=
  set_Point bl (X (Ball_Point bl) + XSpeed bl)%float (Y (Ball_Point bl) + YSpeed bl)%float.

(** The loop body of [Ball.Update] ends the scan at the collider [c]: the
    test [!inPaddle && inPaddleNextTick] is evaluated and holds. *)
Definition hits (h : Heap) (bl : Ball) (c : Collider) : Prop :=
  exists cX cY,
    Collider_Location h c = Ret (cX, cY)
    /\ inPaddle h bl c cX cY = Ret false /\ inPaddleNextTick h bl c cX cY = Ret true.

(** The loop body runs through for the collider [c]: nothing it
    dereferences is [nil]. *)
Definition probed (h : Heap) (bl : Ball) (c : Collider) : Prop :=
  exists cX cY i n,
    Collider_Location h c = Ret (cX, cY)
    /\ inPaddle h bl c cX cY = Ret i /\ inPaddleNextTick h bl c cX cY = Ret n.

(** The collider [c] is not a [nil] pointer. *)
Definition live (h : Heap) (c : Collider) : Prop :=
  exists xy, Collider_Location h c = Ret xy.

(** Neither the collider [c] nor its Sprite is [nil]. *)
Definition has_sprite (h : Heap) (c : Collider) : Prop :=
  exists cW cH, Collider_Width h c = Ret cW /\ Collider_Height h c = Ret cH.

(** The two edge tests of [Ball.Update]: the ball's box touches or crosses
    the left or right edge, and the top or bottom edge. *)
Definition at_x_edge (bl : Ball) : Result bool :=
  Ret (X (Ball_Point bl) <=? 0)%float
  ||| (let* bW := Width bl in
       Ret (float64_of_int screenWidth <=? X (Ball_Point bl) + bW)%float).

Definition at_y_edge (bl : Ball) : Result bool :=
  Ret (Y (Ball_Point bl) <=? 0)%float
  ||| (let* bH := Height bl in
       Ret (float64_of_int screenHeight <=? Y (Ball_Point bl) + bH)%float).

(** The pointers of a controller are not [nil] in the heap [h]. *)
Definition live_refs (fb : FollowBall) (h : Heap) : Prop :=
  is_Some (balls h !! FollowBall_Ball fb) /\ is_Some (players h !! FollowBall_Player fb).

(** A controller as [setup] creates it: the zero values of the private
    fields. *)
Definition fresh (fb : FollowBall) : FollowBall :=
  {| FollowBall_Ball := FollowBall_Ball fb; FollowBall_Player := FollowBall_Player fb;
     lastDecision := Up; count := 0%Z |}.

(** The controller [fb] with its private fields set to [ld] and [n]. *)
Definition set_count (fb : FollowBall) (ld : Direction) (n : Z) : FollowBall :=
  {| FollowBall_Ball := FollowBall_Ball fb; FollowBall_Player := FollowBall_Player fb;
     lastDecision := ld; count := n |}.

(** What a call returns, without the state it leaves. *)
Definition decision {S : Type} (r : Result (Direction * S)) : Result Direction :=
  match r with
  | Ret (d, _) => Ret d
  | Panic msg => Panic msg
  end.

(** The heuristic, in the spec's words: react only when the ball is within
    0.6 * screenWidth of the paddle horizontally; then the ball above the
    paddle by more than one Speed gives Up, the ball below it by more than
    one Speed gives Down, and anything else Nothing. *)
Definition heuristic (bl : Ball) (pl : Player) : Direction :=
  if (abs (X (Ball_Point bl) - X (Player_Point pl)) <? sight)%float then
    if (Y (Ball_Point bl) <? Y (Player_Point pl) - Player_Speed pl)%float then Up
    else if (Y (Player_Point pl) + Player_Speed pl <? Y (Ball_Point bl))%float then Down
    else Nothing
  else Nothing.

(** The invariant of the commit window. *)
Definition window_ok (fb : FollowBall) : Prop :=
  (0 <= count fb <= decisionBuffer)%Z
  /\ ((0 < count fb)%Z -> lastDecision fb = Up \/ lastDecision fb = Down).

(** *** States of the game used as examples

    All are [setup] with the ball or the first paddle put elsewhere. *)

Definition ball_at (x y vx vy : float) : Ball :=
  {| Ball_Sprite := ballSprite; Ball_Point := {| X := x; Y := y |};
     XSpeed := vx; YSpeed := vy |}.

Definition paddle_at (y : float) : Player :=
  {| Player_Sprite := playerSprite; Player_Point := {| X := 0%float; Y := y |};
     Player_Controller := ArrowKeysPtr; Player_Speed := float64_of_int playerSpeed |}.

(** The ball straddles the top of the left paddle and moves down-left. *)
Definition straddling : Heap :=
  store_ball (store_player setup 1%positive (paddle_at 50)) 1%positive (ball_at 5 49 (-1) 1).

(** The ball is on the left edge, just above the left paddle, and moves
    down-left. *)
Definition cornered : Heap :=
  store_ball (store_player setup 1%positive (paddle_at 50)) 1%positive (ball_at 0 49 (-1) 1).

(** The rational a finite binary64 stands for. *)
Definition exact_value (f : float) : Q :=
  match Prim2SF f with
  | S754_finite s m e => ((if s then -1 else 1) * inject_Z (Zpos m) * 2 ^ e)%Q
  | _ => 0%Q
  end.

(** A paddle of height 113 at [127 + 2^-46] with speed [2^-47]. *)
Definition fine_paddle : Player :=
  {| Player_Sprite := NewImage 10 113;
     Player_Point := {| X := 0%float; Y := (127 + 0x1p-46)%float |};
     Player_Controller := ArrowKeysPtr; Player_Speed := 0x1p-47%float |}.

Definition fine_grained : Heap := store_player setup 1%positive fine_paddle.

(** A paddle of height 239 at 1 with speed [2^-47]. *)
Definition unit_paddle : Player :=
  {| Player_Sprite := NewImage 10 239;
     Player_Point := {| X := 0%float; Y := 1%float |};
     Player_Controller := ArrowKeysPtr; Player_Speed := 0x1p-47%float |}.

Definition unit_grained : Heap := store_player setup 1%positive unit_paddle.

Definition down_pressed : Keys := {| KeyArrowUp := false; KeyArrowDown := true |}.
Definition no_key : Keys := {| KeyArrowUp := false; KeyArrowDown := false |}.

(** The controller of [setup], and what it is after its first call. *)
Definition follower : FollowBall :=
  {| FollowBall_Ball := 1%positive; FollowBall_Player := 2%positive;
     lastDecision := Up; count := 0%Z |}.

Definition committed : FollowBall := set_count follower Up 15.

(** The game with the ball below the right paddle. *)
Definition ball_low : Heap := store_ball setup 1%positive (ball_at 300 230 1 1).

(** *** Definitions for the properties beyond the claims *)

(** The two [if]s of [Player.Update], applied to the player [pl] once the
    controller has answered [dir]. *)
Definition Player_move (dir : Direction) (pl : Player) : Result Player :=
  let pl2 :=
    if Direction_eqb dir Up && (Y (Player_Point pl) - Player_Speed pl * 2 >=? 0)%float
    then set_Y pl (Y (Player_Point pl) - Player_Speed pl)%float
    else pl in
  let* down :=
    Ret (Direction_eqb dir Down)
    &&& (let* hgt := Height pl2 in
         Ret (Y (Player_Point pl2) + hgt + Player_Speed pl2 * 2
              <=? float64_of_int screenHeight)%float) in
  Ret (if down then set_Y pl2 (Y (Player_Point pl2) + Player_Speed pl2)%float else pl2).

(** The same step on a paddle at the integer [y], of speed [s] and
    height [hgt]. *)
Definition step_int (dir : Direction) (y s hgt : Z) : Z :=
  match dir with
  | Up => if (0 <=? y - 2 * s)%Z then (y - s)%Z else y
  | Down => if (y + hgt + 2 * s <=? screenHeight)%Z then (y + s)%Z else y
  | Nothing => y
  end.

(** A speed of one pixel per tick, reversed at the edge [lo] or [hi] of
    the range the coordinate [x] may take. *)
Definition reflect (lo hi x v : Z) : Z :=
  if (x <=? lo)%Z || (hi <=? x)%Z then (- v)%Z else v.

(** The ball is on the integer grid, within [lo .. hi], one pixel per
    tick, and at an end of the range only on its way out of it. *)
Definition confined (lo hi x v : Z) : Prop :=
  (lo <= x <= hi)%Z /\ (v = 1 \/ v = -1)%Z
  /\ (x = lo -> v = -1)%Z /\ (x = hi -> v = 1)%Z.

(** Decisions that never flicker: Nothing for a tick, or Up or Down held
    for 16 ticks, the last run possibly cut short by the end. *)
Inductive steady : list Direction -> Prop :=
| steady_nil : steady []
| steady_idle (l : list Direction) : steady l -> steady (Nothing :: l)
| steady_hold (d : Direction) (l : list Direction) :
    d <> Nothing -> steady l -> steady (repeat d 16 ++ l)
| steady_cut (d : Direction) (n : nat) :
    d <> Nothing -> (n <= 16)%nat -> steady (repeat d n).

(** The states of the game that [setup] and [Game.Update] can produce:
    both paddles where [setup] put them horizontally, on the integer grid
    and on the screen; the controller inside its commit window; the ball
    on the integer grid, one pixel per tick each way, on the screen
    vertically and at most 11 pixels off it horizontally. *)
Definition paddle_ok (pl : Player) (x : Z) (c : Controller) : Prop :=
  Player_Sprite pl = playerSprite
  /\ X (Player_Point pl) = float64_of_int x
  /\ Player_Controller pl = c
  /\ Player_Speed pl = float64_of_int playerSpeed
  /\ exists y, Y (Player_Point pl) = float64_of_int y
               /\ (0 <= y <= screenHeight - playerHeight)%Z.

Definition ball_ok (bl : Ball) : Prop :=
  Ball_Sprite bl = ballSprite
  /\ exists x y vx vy,
       X (Ball_Point bl) = float64_of_int x /\ Y (Ball_Point bl) = float64_of_int y
       /\ XSpeed bl = float64_of_int vx /\ YSpeed bl = float64_of_int vy
       /\ confined (- 11) (screenWidth + 1) x vx
       /\ confined 0 (screenHeight - ballWidth) y vy.

Definition game_ok (h : Heap) : Prop :=
  (exists pl1, players h !! 1%positive = Some pl1 /\ paddle_ok pl1 0 ArrowKeysPtr)
  /\ (exists pl2, players h !! 2%positive = Some pl2
                  /\ paddle_ok pl2 (screenWidth - playerWidth) (FollowBallPtr 1%positive))
  /\ (exists fb, followers h !! 1%positive = Some fb
                 /\ FollowBall_Ball fb = 1%positive /\ FollowBall_Player fb = 2%positive
                 /\ window_ok fb)
  /\ (exists bl, balls h !! 1%positive = Some bl /\ ball_ok bl).

(** Nothing that [Player.Update] dereferences for the player at [p],
    with the keys [k] held, is [nil]: the player itself; for a player
    steered by a FollowBall, that controller and its Ball and Player
    pointers; and the Sprite of the player when its controller answers
    Down. *)
Definition Player_ready (k : Keys) (h : Heap) (p : loc) : Prop :=
  exists pl,
    players h !! p = Some pl
    /\ match Player_Controller pl with
       | NilController => True
       | ArrowKeysPtr => ArrowKeys_Input k = Down -> is_Some (Player_Sprite pl)
       | FollowBallPtr l =>
           exists fb,
             followers h !! l = Some fb /\ live_refs fb h
             /\ (forall fb', FollowBall_Input h fb = Ret (Down, fb') ->
                 is_Some (Player_Sprite pl))
       end.

Definition up_pressed : Keys := {| KeyArrowUp := true; KeyArrowDown := false |}.
Definition both_pressed : Keys := {| KeyArrowUp := true; KeyArrowDown := true |}.

(** *** Binary64 values as integers

    Every finite binary64 is a multiple of [2^-1074], the spacing of the
    smallest ones; [units] is that multiple.  Rounding is then a function
    on integers. *)

Definition is_finite (f : spec_float) : bool :=
  match f with
  | S754_zero _ | S754_finite _ _ _ => true
  | _ => false
  end.

Definition units (f : spec_float) : Z :=
  match f with
  | S754_finite s m e => cond_Zopp s (Zpos m * 2 ^ (e + 1074))
  | _ => 0%Z
  end.

(** [m / 2^n] rounded to the nearest integer, ties to even. *)
Definition rne (m n : Z) : Z :=
  let q := (m / 2 ^ n)%Z in
  match (2 * (m mod 2 ^ n) ?= 2 ^ n)%Z with
  | Lt => q
  | Gt => (q + 1)%Z
  | Eq => if Z.even q then q else (q + 1)%Z
  end.

(** A nonnegative number of units rounded to 53 significant bits. *)
Definition round53 (N : Z) : Z :=
  let n := Z.max (Z.log2 N + 1 - 53) 0 in (rne N n * 2 ^ n)%Z.

(** The same for either sign. *)
Definition round53s (N : Z) : Z := (Z.sgn N * round53 (Z.abs N))%Z.

(** The first number of units that is too large for a binary64. *)
Definition overflow_units : Z := (2 ^ 2098)%Z.

(** The same for the values of the kernel's type. *)
Definition finite64 (x : float) : bool := is_finite (Prim2SF x).
Definition units64 (x : float) : Z := units (Prim2SF x).

(** The paddle of height [H] at [y] is on the screen: [y] is a number
    between 0 and [screenHeight - H]. *)
Definition within_screen (y : float) (H : Z) : Prop :=
  finite64 y = true /\ (0 <= units64 y <= (screenHeight - H) * 2 ^ 1074)%Z.

(** ** Facts about binary64 arithmetic *)

Section Binary64.
Local Open Scope Z_scope.

Lemma iter_xO_Z (m p : positive) : Zpos (Pos.iter xO m p) = Zpos m * 2 ^ Zpos p.
Proof.
  induction p as [|p IH] using Pos.peano_ind.
  - simpl. lia.
  - rewrite Pos.iter_succ, Pos2Z.inj_succ, Z.pow_succ_r by lia.
    rewrite Pos2Z.inj_xO, IH. lia.
Qed.

Lemma digits2_iter_xO (m p : positive) :
  Zpos (digits2_pos (Pos.iter xO m p)) = Zpos (digits2_pos m) + Zpos p.
Proof.
  induction p as [|p IH] using Pos.peano_ind.
  - simpl. lia.
  - rewrite Pos.iter_succ. simpl digits2_pos. lia.
Qed.

Lemma digits2_bounds (m : positive) :
  2 ^ (Zpos (digits2_pos m) - 1) <= Zpos m < 2 ^ Zpos (digits2_pos m).
Proof.
  induction m as [m IH|m IH|]; simpl digits2_pos.
  - rewrite Pos2Z.inj_succ, Z.pow_succ_r by lia.
    replace (Z.succ (Zpos (digits2_pos m)) - 1) with (Z.succ (Zpos (digits2_pos m) - 1)) by lia.
    rewrite Z.pow_succ_r by lia. lia.
  - rewrite Pos2Z.inj_succ, Z.pow_succ_r by lia.
    replace (Z.succ (Zpos (digits2_pos m)) - 1) with (Z.succ (Zpos (digits2_pos m) - 1)) by lia.
    rewrite Z.pow_succ_r by lia. lia.
  - simpl. lia.
Qed.

Lemma shr_iter_xO (p m : positive) :
  SpecFloat.iter_pos shr_1 p {| shr_m := Zpos (Pos.iter xO m p); shr_r := false; shr_s := false |}
  = {| shr_m := Zpos m; shr_r := false; shr_s := false |}.
Proof.
  revert m. induction p as [p IH|p IH|]; intros m; simpl.
  - rewrite IH, IH. reflexivity.
  - rewrite IH, IH. reflexivity.
  - reflexivity.
Qed.

Lemma fexp_canonical m e :
  canonical_mantissa prec emax m e = true -> fexp prec emax (Zpos (digits2_pos m) + e) = e.
Proof. unfold canonical_mantissa. intros H. apply Z.eqb_eq in H. exact H. Qed.

Lemma binary_round_aux_id s m e :
  bounded prec emax m e = true ->
  binary_round_aux prec emax s (Zpos m) e loc_Exact = S754_finite s m e.
Proof.
  unfold bounded. intros [Hc He]%andb_prop.
  pose proof (fexp_canonical _ _ Hc) as Hf.
  unfold binary_round_aux, shr_fexp. simpl Zdigits2. rewrite Hf, Z.sub_diag. simpl.
  rewrite Hf, Z.sub_diag. simpl. rewrite He. reflexivity.
Qed.

Lemma binary_round_aux_shr s m e p :
  bounded prec emax m e = true ->
  binary_round_aux prec emax s (Zpos (Pos.iter xO m p)) (e - Zpos p) loc_Exact = S754_finite s m e.
Proof.
  unfold bounded. intros [Hc He]%andb_prop.
  pose proof (fexp_canonical _ _ Hc) as Hf.
  unfold binary_round_aux, shr_fexp. simpl Zdigits2.
  rewrite digits2_iter_xO.
  replace (Zpos (digits2_pos m) + Zpos p + (e - Zpos p)) with (Zpos (digits2_pos m) + e) by lia.
  rewrite Hf. replace (e - (e - Zpos p)) with (Zpos p) by lia.
  simpl shr_record_of_loc. unfold shr at 1. rewrite shr_iter_xO.
  simpl shr_m. simpl loc_of_shr_record. simpl round_nearest_even.
  simpl Zdigits2. replace (e - Zpos p + Zpos p) with e by lia.
  rewrite Hf, Z.sub_diag. simpl. rewrite He. reflexivity.
Qed.

Lemma binary_round_shl s m e p :
  bounded prec emax (Pos.iter xO m p) (e - Zpos p) = true ->
  binary_round prec emax s m e = S754_finite s (Pos.iter xO m p) (e - Zpos p).
Proof.
  intros Hb. pose proof Hb as Hb'. unfold bounded in Hb'. apply andb_prop in Hb' as [Hc He].
  pose proof (fexp_canonical _ _ Hc) as Hf. rewrite digits2_iter_xO in Hf.
  unfold binary_round.
  replace (Zpos (digits2_pos m) + e) with (Zpos (digits2_pos m) + Zpos p + (e - Zpos p)) by lia.
  rewrite Hf. unfold shl_align.
  replace (e - Zpos p - e) with (Zneg p) by lia.
  apply binary_round_aux_id. exact Hb.
Qed.

Lemma binary_round_id s m e :
  bounded prec emax m e = true -> binary_round prec emax s m e = S754_finite s m e.
Proof.
  intros Hb. pose proof Hb as Hb'. unfold bounded in Hb'. apply andb_prop in Hb' as [Hc He].
  pose proof (fexp_canonical _ _ Hc) as Hf.
  unfold binary_round. rewrite Hf. unfold shl_align. rewrite Z.sub_diag.
  apply binary_round_aux_id. exact Hb.
Qed.

Lemma binary_round_shr s m e p :
  bounded prec emax m e = true ->
  binary_round prec emax s (Pos.iter xO m p) (e - Zpos p) = S754_finite s m e.
Proof.
  intros Hb. pose proof Hb as Hb'. unfold bounded in Hb'. apply andb_prop in Hb' as [Hc He].
  pose proof (fexp_canonical _ _ Hc) as Hf.
  unfold binary_round. rewrite digits2_iter_xO.
  replace (Zpos (digits2_pos m) + Zpos p + (e - Zpos p)) with (Zpos (digits2_pos m) + e) by lia.
  rewrite Hf. unfold shl_align.
  replace (e - (e - Zpos p)) with (Zpos p) by lia.
  apply binary_round_aux_shr. exact Hb.
Qed.

(** *** Signs and comparisons *)
Lemma mul_neg_one (x : float) : (x * -1)%float = (- x)%float.
Proof.
  apply Prim2SF_inj. rewrite mul_spec, opp_spec.
  change (Prim2SF (-1)) with (S754_finite true 4503599627370496 (-52)).
  pose proof (Prim2SF_valid x) as Hv.
  destruct (Prim2SF x) as [s|s| |s m e]; try (destruct s; reflexivity); try reflexivity.
  unfold SF64mul, SFmul, SFopp.
  { 
    replace (m * 4503599627370496)%positive with (Pos.iter xO m 52).
    + replace (xorb s true) with (negb s) by (destruct s; reflexivity).
      change (e + -52) with (e - 52).
      apply binary_round_aux_shr. exact Hv.
    + apply Pos2Z.inj. rewrite iter_xO_Z, Pos2Z.inj_mul. reflexivity. }
Qed.

Lemma opp_involutive (x : float) : (- - x)%float = x.
Proof.
  apply Prim2SF_inj. rewrite !opp_spec.
  destruct (Prim2SF x) as [s|s| |s m e]; simpl; rewrite ?negb_involutive; reflexivity.
Qed.

Lemma abs_opp (x : float) : abs (- x) = abs x.
Proof.
  apply Prim2SF_inj. rewrite !abs_spec, opp_spec.
  destruct (Prim2SF x) as [s|s| |s m e]; reflexivity.
Qed.

Lemma SFcompare_antisym (x y : spec_float) :
  SFcompare y x = option_map CompOpp (SFcompare x y).
Proof.
  destruct x as [sx|sx| |sx mx ex], y as [sy|sy| |sy my ey]; simpl;
    try reflexivity; try (destruct sx; reflexivity); try (destruct sy; reflexivity);
    try (destruct sx, sy; reflexivity).
  pose proof (Pos.compare_cont_antisym mx my Eq) as Hm. simpl in Hm.
  destruct sx, sy; simpl; try reflexivity;
    rewrite (Z.compare_antisym ex ey); destruct (ex ?= ey); simpl; try reflexivity;
    rewrite <- Hm; destruct (Pos.compare_cont Eq mx my); reflexivity.
Qed.

Lemma leb_true_ltb_false (a b : float) : (a <=? b)%float = true -> (b <? a)%float = false.
Proof.
  rewrite leb_spec, ltb_spec. unfold SFleb, SFltb.
  rewrite (SFcompare_antisym (Prim2SF a) (Prim2SF b)).
  destruct (SFcompare (Prim2SF a) (Prim2SF b)) as [[]|]; simpl; congruence.
Qed.

Lemma ltb_zero_opp (x : float) : (x <? 0)%float = true -> (0 <? - x)%float = true.
Proof.
  rewrite !ltb_spec, opp_spec. change (Prim2SF 0) with (S754_zero false).
  destruct (Prim2SF x) as [s|s| |s m e]; simpl; try discriminate.
  - destruct s; simpl; [reflexivity|discriminate].
  - destruct s; simpl; [reflexivity|discriminate].
Qed.

(** *** Integers that binary64 holds exactly *)
Lemma shiftl_Z (p : positive) (n : N) : Zpos (Pos.shiftl p n) = Zpos p * 2 ^ Z.of_N n.
Proof.
  destruct n as [|q]; unfold Pos.shiftl.
  - change (Z.of_N 0) with 0. rewrite Z.pow_0_r. lia.
  - rewrite iter_xO_Z. reflexivity.
Qed.

Lemma binary_round_exact s M E m e :
  bounded prec emax m e = true ->
  (E <= e /\ Zpos M = Zpos m * 2 ^ (e - E)) \/ (e <= E /\ Zpos m = Zpos M * 2 ^ (E - e)) ->
  binary_round prec emax s M E = S754_finite s m e.
Proof.
  intros Hb [[Hle HM]|[Hle Hm]].
  - destruct (e - E) as [|q|q] eqn:Hq; try lia.
    + assert (E = e) by lia. subst E.
      rewrite Z.pow_0_r, Z.mul_1_r in HM. injection HM as ->.
      apply binary_round_id, Hb.
    + assert (E = e - Zpos q) by lia. subst E.
      rewrite <- iter_xO_Z in HM. injection HM as ->.
      apply binary_round_shr, Hb.
  - destruct (E - e) as [|q|q] eqn:Hq; try lia.
    + assert (E = e) by lia. subst E.
      rewrite Z.pow_0_r, Z.mul_1_r in Hm. injection Hm as ->.
      apply binary_round_id, Hb.
    + assert (e = E - Zpos q) by lia. subst e.
      rewrite <- iter_xO_Z in Hm. injection Hm as ->.
      apply binary_round_shl, Hb.
Qed.

Lemma digits2_le_prec (p : positive) : Zpos p < 2 ^ 53 -> Zpos (digits2_pos p) <= 53.
Proof.
  intros Hp. pose proof (digits2_bounds p) as [Hlo _].
  destruct (Z_le_gt_dec (Zpos (digits2_pos p)) 53) as [|Hgt]; [assumption|].
  assert (2 ^ 53 <= 2 ^ (Zpos (digits2_pos p) - 1)) by (apply Z.pow_le_mono_r; lia).
  lia.
Qed.

Lemma digits2_unique (p : positive) (d : Z) :
  2 ^ (d - 1) <= Zpos p < 2 ^ d -> Zpos (digits2_pos p) = d.
Proof.
  intros [Hlo Hhi]. pose proof (digits2_bounds p) as [Hlo' Hhi'].
  assert (0 < d) by (destruct (Z_lt_le_dec 0 d); [assumption|]; rewrite Z.pow_neg_r in Hlo by lia;
    destruct (Z.eq_dec d 0); [subst; simpl in *; lia| rewrite Z.pow_neg_r in Hhi by lia; lia]).
  destruct (Z.lt_trichotomy (Zpos (digits2_pos p)) d) as [Hlt|[Heq|Hgt]]; [|assumption|].
  - assert (2 ^ Zpos (digits2_pos p) <= 2 ^ (d - 1)) by (apply Z.pow_le_mono_r; lia). lia.
  - assert (2 ^ d <= 2 ^ (Zpos (digits2_pos p) - 1)) by (apply Z.pow_le_mono_r; lia). lia.
Qed.

Lemma norm53_Z (p : positive) :
  Zpos p < 2 ^ 53 -> Zpos (norm53 p) = Zpos p * 2 ^ (53 - Zpos (digits2_pos p)).
Proof.
  intros Hp. pose proof (digits2_le_prec p Hp). unfold norm53. rewrite shiftl_Z.
  rewrite Z2N.id by (unfold prec; lia). reflexivity.
Qed.

Lemma digits2_norm53 (p : positive) :
  Zpos p < 2 ^ 53 -> Zpos (digits2_pos (norm53 p)) = 53.
Proof.
  intros Hp. pose proof (digits2_le_prec p Hp) as Hd. apply digits2_unique.
  rewrite norm53_Z by assumption. pose proof (digits2_bounds p) as [Hlo Hhi].
  set (d := Zpos (digits2_pos p)) in *.
  assert (Hpow : 2 ^ 53 = 2 ^ d * 2 ^ (53 - d)) by (rewrite <- Z.pow_add_r by lia; f_equal; lia).
  assert (Hpow' : 2 ^ (53 - 1) = 2 ^ (d - 1) * 2 ^ (53 - d)) by (rewrite <- Z.pow_add_r by lia; f_equal; lia).
  assert (0 < 2 ^ (53 - d)) by (apply Z.pow_pos_nonneg; lia).
  rewrite Hpow, Hpow'. split; [apply Z.mul_le_mono_nonneg_r; lia | apply Z.mul_lt_mono_pos_r; lia].
Qed.

Lemma bounded_norm53 (p : positive) :
  Zpos p < 2 ^ 53 -> bounded prec emax (norm53 p) (Zpos (digits2_pos p) - prec) = true.
Proof.
  intros Hp. pose proof (digits2_le_prec p Hp) as Hd.
  unfold bounded, canonical_mantissa. rewrite digits2_norm53 by assumption.
  apply andb_true_intro; split.
  - apply Z.eqb_eq. unfold fexp, SpecFloat.emin, prec, emax. lia.
  - apply Z.leb_le. unfold prec, emax. lia.
Qed.

Lemma binary_round_int s (M : positive) (E : Z) (p : positive) :
  Zpos p < 2 ^ 53 -> E <= 0 -> Zpos M = Zpos p * 2 ^ (- E) ->
  binary_round prec emax s M E = S754_finite s (norm53 p) (Zpos (digits2_pos p) - prec).
Proof.
  intros Hp HE HM. pose proof (digits2_le_prec p Hp) as Hd.
  apply binary_round_exact; [apply bounded_norm53, Hp|].
  rewrite norm53_Z by assumption. unfold prec.
  set (d := Zpos (digits2_pos p)) in *.
  destruct (Z_le_gt_dec E (d - 53)) as [Hle|Hgt]; [left|right]; (split; [lia|]).
  - rewrite HM. rewrite <- Z.mul_assoc, <- Z.pow_add_r by lia. do 2 f_equal. lia.
  - rewrite HM. rewrite <- Z.mul_assoc, <- Z.pow_add_r by lia. do 2 f_equal. lia.
Qed.

Lemma binary_normalize_int (z E : Z) :
  Z.abs z < 2 ^ 53 -> E <= 0 ->
  binary_normalize prec emax (z * 2 ^ (- E)) E false = SFofZ z.
Proof.
  intros Hz HE. assert (Hpos : 0 < 2 ^ (- E)) by (apply Z.pow_pos_nonneg; lia).
  destruct z as [|p|p].
  - reflexivity.
  - destruct (Zpos p * 2 ^ (- E)) as [|M|M] eqn:HM; try lia.
    simpl. apply binary_round_int; [lia|lia|lia].
  - destruct (Zneg p * 2 ^ (- E)) as [|M|M] eqn:HM; try lia.
    simpl. apply binary_round_int; [lia|lia|lia].
Qed.

Lemma shl_align_fst (mx : positive) (ex ez : Z) :
  ez <= ex -> Zpos (fst (shl_align mx ex ez)) = Zpos mx * 2 ^ (ex - ez).
Proof.
  intros Hle. unfold shl_align. destruct (ez - ex) as [|d|d] eqn:Hd; try lia; simpl fst.
  - replace (ex - ez) with 0 by lia. rewrite Z.pow_0_r. lia.
  - rewrite iter_xO_Z. do 2 f_equal. lia.
Qed.

(** The value of a positive canonical integer, scaled to a common exponent. *)
Lemma aligned_int (p : positive) (ez : Z) :
  Zpos p < 2 ^ 53 -> ez <= Zpos (digits2_pos p) - prec ->
  Zpos (fst (shl_align (norm53 p) (Zpos (digits2_pos p) - prec) ez)) = Zpos p * 2 ^ (- ez).
Proof.
  intros Hp Hez. pose proof (digits2_le_prec p Hp) as Hd. unfold prec in *.
  rewrite shl_align_fst by lia. rewrite norm53_Z by assumption.
  rewrite <- Z.mul_assoc, <- Z.pow_add_r by lia. do 2 f_equal. lia.
Qed.

Lemma SFadd_SFofZ (a b : Z) :
  0 <= a -> 0 <= b -> a + b < 2 ^ 53 ->
  SFadd prec emax (SFofZ a) (SFofZ b) = SFofZ (a + b).
Proof.
  intros Ha Hb Hab. destruct a as [|p|p], b as [|q|q]; try lia; try reflexivity.
  unfold SFofZ at 1 2. unfold SFadd.
  assert (Hp : Zpos p < 2 ^ 53) by lia. assert (Hq : Zpos q < 2 ^ 53) by lia.
  pose proof (digits2_le_prec p Hp). pose proof (digits2_le_prec q Hq).
  unfold cond_Zopp. cbv zeta.
  rewrite (aligned_int p) by (assumption || lia).
  rewrite (aligned_int q) by (assumption || lia).
  rewrite <- Z.mul_add_distr_r.
  apply binary_normalize_int; [lia | unfold prec; lia].
Qed.

Lemma SFsub_SFofZ (a b : Z) :
  0 <= a < 2 ^ 53 -> 0 <= b < 2 ^ 53 ->
  SFsub prec emax (SFofZ a) (SFofZ b) = SFofZ (a - b).
Proof.
  intros Ha Hb. destruct a as [|p|p], b as [|q|q]; try lia; try reflexivity.
  unfold SFofZ at 1 2. unfold SFsub.
  assert (Hp : Zpos p < 2 ^ 53) by lia. assert (Hq : Zpos q < 2 ^ 53) by lia.
  pose proof (digits2_le_prec p Hp). pose proof (digits2_le_prec q Hq).
  unfold cond_Zopp. cbv zeta.
  rewrite (aligned_int p) by (assumption || lia).
  rewrite (aligned_int q) by (assumption || lia).
  rewrite <- Z.mul_sub_distr_r.
  apply binary_normalize_int; [lia | unfold prec; lia].
Qed.

Lemma SFmul_two (a : Z) :
  0 <= a -> 2 * a < 2 ^ 53 ->
  SFmul prec emax (SFofZ a) (S754_finite false 4503599627370496 (-51)) = SFofZ (2 * a).
Proof.
  intros Ha Hab. destruct a as [|p|p]; try lia; try reflexivity.
  change (2 * Zpos p) with (Zpos p~0). unfold SFofZ, SFmul.
  assert (Hp2 : Zpos p~0 < 2 ^ 53) by lia.
  pose proof (bounded_norm53 (p~0) Hp2) as Hbd.
  pose proof (digits2_le_prec _ Hp2) as Hd. simpl digits2_pos in *.
  assert (Hn : norm53 p~0 = norm53 p).
  { apply Pos2Z.inj. rewrite !norm53_Z by lia. simpl digits2_pos.
    rewrite Pos2Z.inj_xO, Pos2Z.inj_succ.
    replace (53 - Zpos (digits2_pos p)) with (Z.succ (53 - Z.succ (Zpos (digits2_pos p)))) by lia.
    rewrite Z.pow_succ_r by lia. lia. }
  rewrite Hn in *.
  replace (norm53 p * 4503599627370496)%positive with (Pos.iter xO (norm53 p) 52)
    by (apply Pos2Z.inj; rewrite iter_xO_Z, Pos2Z.inj_mul; reflexivity).
  replace (Zpos (digits2_pos p) - prec + -51)
    with (Zpos (Pos.succ (digits2_pos p)) - prec - 52) by lia.
  apply binary_round_aux_shr. exact Hbd.
Qed.

Lemma digits2_mono (p q : positive) :
  (Zpos (digits2_pos p) < Zpos (digits2_pos q)) -> Zpos p < Zpos q.
Proof.
  intros Hd. pose proof (digits2_bounds p) as [_ Hp]. pose proof (digits2_bounds q) as [Hq _].
  assert (2 ^ Zpos (digits2_pos p) <= 2 ^ (Zpos (digits2_pos q) - 1))
    by (apply Z.pow_le_mono_r; lia). lia.
Qed.

Lemma SFcompare_pos (p q : positive) :
  Zpos p < 2 ^ 53 -> Zpos q < 2 ^ 53 ->
  match (Zpos (digits2_pos p) - prec ?= Zpos (digits2_pos q) - prec) with
  | Lt => Lt
  | Gt => Gt
  | Eq => Pos.compare_cont Eq (norm53 p) (norm53 q)
  end = (p ?= q)%positive.
Proof.
  intros Hp Hq. destruct (Z.compare_spec (Zpos (digits2_pos p) - prec) (Zpos (digits2_pos q) - prec)) as [He|He|He].
  - change (Pos.compare_cont Eq (norm53 p) (norm53 q)) with ((norm53 p ?= norm53 q)%positive).
    rewrite !Pos2Z.inj_compare, !norm53_Z by assumption.
    replace (Zpos (digits2_pos q)) with (Zpos (digits2_pos p)) by lia.
    pose proof (digits2_le_prec p Hp).
    symmetry. apply Zmult_compare_compat_r. apply Z.lt_gt, Z.pow_pos_nonneg; unfold prec; lia.
  - symmetry. apply Pos.compare_lt_iff. apply Pos2Z.pos_lt_pos. apply digits2_mono. lia.
  - symmetry. apply Pos.compare_gt_iff. apply Pos2Z.pos_lt_pos. apply digits2_mono. lia.
Qed.

Lemma SFcompare_SFofZ (a b : Z) :
  Z.abs a < 2 ^ 53 -> Z.abs b < 2 ^ 53 ->
  SFcompare (SFofZ a) (SFofZ b) = Some (a ?= b).
Proof.
  intros Ha Hb. destruct a as [|p|p], b as [|q|q]; try reflexivity.
  - simpl SFofZ. unfold SFcompare. rewrite SFcompare_pos by lia. reflexivity.
  - simpl SFofZ. unfold SFcompare. f_equal.
    change (Zneg p ?= Zneg q) with (CompOpp (p ?= q)%positive).
    rewrite <- (SFcompare_pos p q) by lia.
    destruct (Zpos (digits2_pos p) - prec ?= Zpos (digits2_pos q) - prec); reflexivity.
Qed.

(** *** [float64_of_int] on small integers *)

Lemma of_int_spec (z : Z) :
  Z.abs z < 2 ^ 53 -> Prim2SF (float64_of_int z) = SFofZ z.
Proof.
  intros Hz. unfold float64_of_int.
  destruct (Z.eqb_spec z (- 2 ^ 63)) as [->|_]; [simpl in Hz; lia|].
  destruct (Z.ltb_spec z 0) as [Hneg|Hpos].
  - rewrite opp_spec, of_uint63_spec, Uint63.of_Z_spec.
    rewrite Z.mod_small by (change Uint63.wB with (2 ^ 63); lia).
    replace (- z) with (- z * 2 ^ (- 0)) at 1 by (simpl; lia).
    rewrite binary_normalize_int by lia.
    destruct z; try lia; reflexivity.
  - rewrite of_uint63_spec, Uint63.of_Z_spec.
    rewrite Z.mod_small by (change Uint63.wB with (2 ^ 63); lia).
    replace z with (z * 2 ^ (- 0)) at 1 by (simpl; lia).
    apply binary_normalize_int; lia.
Qed.

Lemma of_int_add (a b : Z) :
  0 <= a -> 0 <= b -> a + b < 2 ^ 53 ->
  (float64_of_int a + float64_of_int b)%float = float64_of_int (a + b).
Proof.
  intros Ha Hb Hab. apply Prim2SF_inj.
  rewrite add_spec, !of_int_spec by lia. apply SFadd_SFofZ; lia.
Qed.

Lemma of_int_sub (a b : Z) :
  0 <= a < 2 ^ 53 -> 0 <= b < 2 ^ 53 ->
  (float64_of_int a - float64_of_int b)%float = float64_of_int (a - b).
Proof.
  intros Ha Hb. apply Prim2SF_inj.
  rewrite sub_spec, !of_int_spec by lia. apply SFsub_SFofZ; lia.
Qed.

Lemma of_int_double (a : Z) :
  0 <= a -> 2 * a < 2 ^ 53 ->
  (float64_of_int a * 2)%float = float64_of_int (2 * a).
Proof.
  intros Ha Hab. apply Prim2SF_inj.
  rewrite mul_spec, !of_int_spec by lia.
  change (Prim2SF 2) with (S754_finite false 4503599627370496 (-51)).
  apply SFmul_two; lia.
Qed.

Lemma of_int_leb (a b : Z) :
  Z.abs a < 2 ^ 53 -> Z.abs b < 2 ^ 53 ->
  (float64_of_int a <=? float64_of_int b)%float = (a <=? b).
Proof.
  intros Ha Hb. rewrite leb_spec, !of_int_spec by lia.
  unfold SFleb. rewrite SFcompare_SFofZ by lia.
  unfold Z.leb. destruct (a ?= b); reflexivity.
Qed.

End Binary64.

(** *** Integers of either sign, and NaN *)

Section Binary64Signed.
Local Open Scope Z_scope.

Lemma SFopp_SFofZ (z : Z) : z <> 0 -> SFopp (SFofZ z) = SFofZ (- z).
Proof. destruct z; [congruence|reflexivity|reflexivity]. Qed.

Lemma of_int_opp (z : Z) :
  z <> 0 -> Z.abs z < 2 ^ 53 -> (- float64_of_int z)%float = float64_of_int (- z).
Proof.
  intros Hz Hb. apply Prim2SF_inj.
  rewrite opp_spec, !of_int_spec by lia. apply SFopp_SFofZ, Hz.
Qed.

(** The mantissa of a canonical integer, with its sign, scaled to a common
    exponent. *)
Lemma aligned_signed (s : bool) (p : positive) (ez : Z) :
  Zpos p < 2 ^ 53 -> ez <= Zpos (digits2_pos p) - prec ->
  cond_Zopp s (Zpos (fst (shl_align (norm53 p) (Zpos (digits2_pos p) - prec) ez)))
  = (if s then Zneg p else Zpos p) * 2 ^ (- ez).
Proof.
  intros Hp Hez. rewrite aligned_int by assumption.
  destruct s; cbn [cond_Zopp]; [|reflexivity].
  rewrite <- Z.mul_opp_l. reflexivity.
Qed.

Lemma SFadd_SFofZ_signed (a b : Z) :
  Z.abs a < 2 ^ 53 -> Z.abs b < 2 ^ 53 -> Z.abs (a + b) < 2 ^ 53 ->
  SFadd prec emax (SFofZ a) (SFofZ b) = SFofZ (a + b).
Proof.
  intros Ha Hb Hab.
  assert (Hfin : forall (sa sb : bool) (p q : positive),
    Zpos p < 2 ^ 53 -> Zpos q < 2 ^ 53 ->
    Z.abs ((if sa then Zneg p else Zpos p) + (if sb then Zneg q else Zpos q)) < 2 ^ 53 ->
    SFadd prec emax
      (S754_finite sa (norm53 p) (Zpos (digits2_pos p) - prec))
      (S754_finite sb (norm53 q) (Zpos (digits2_pos q) - prec))
    = SFofZ ((if sa then Zneg p else Zpos p) + (if sb then Zneg q else Zpos q))).
  { intros sa sb p q Hp Hq Hsum.
    pose proof (digits2_le_prec p Hp). pose proof (digits2_le_prec q Hq).
    unfold SFadd. cbv zeta.
    rewrite (aligned_signed sa p) by (assumption || lia).
    rewrite (aligned_signed sb q) by (assumption || lia).
    rewrite <- Z.mul_add_distr_r.
    apply binary_normalize_int; [exact Hsum | unfold prec; lia]. }
  destruct a as [|p|p], b as [|q|q]; try reflexivity.
  - apply (Hfin false false p q); simpl in *; lia.
  - apply (Hfin false true p q); simpl in *; lia.
  - apply (Hfin true false p q); simpl in *; lia.
  - apply (Hfin true true p q); simpl in *; lia.
Qed.

Lemma of_int_add_signed (a b : Z) :
  Z.abs a < 2 ^ 53 -> Z.abs b < 2 ^ 53 -> Z.abs (a + b) < 2 ^ 53 ->
  (float64_of_int a + float64_of_int b)%float = float64_of_int (a + b).
Proof.
  intros Ha Hb Hab. apply Prim2SF_inj.
  rewrite add_spec, !of_int_spec by lia. apply SFadd_SFofZ_signed; lia.
Qed.

Lemma of_int_inj (a b : Z) :
  Z.abs a < 2 ^ 53 -> Z.abs b < 2 ^ 53 -> float64_of_int a = float64_of_int b -> a = b.
Proof.
  intros Ha Hb Heq.
  assert (H1 : (float64_of_int a <=? float64_of_int b)%float = true).
  { rewrite Heq, of_int_leb by lia. apply Z.leb_refl. }
  assert (H2 : (float64_of_int b <=? float64_of_int a)%float = true).
  { rewrite Heq, of_int_leb by lia. apply Z.leb_refl. }
  rewrite of_int_leb in H1, H2 by lia. apply Z.leb_le in H1, H2. lia.
Qed.

(** NaN: every comparison with it is false, and it goes through
    subtraction and [abs]. *)
Lemma is_nan_spec (x : float) : Prim2SF x = S754_nan <-> x = nan.
Proof.
  split; intros H.
  - apply Prim2SF_inj. rewrite H. reflexivity.
  - rewrite H. reflexivity.
Qed.

Lemma ltb_nan_l (x : float) : (nan <? x)%float = false.
Proof. rewrite ltb_spec. reflexivity. Qed.

Lemma ltb_nan_r (x : float) : (x <? nan)%float = false.
Proof.
  rewrite ltb_spec. change (Prim2SF nan) with S754_nan.
  unfold SFltb, SFcompare. destruct (Prim2SF x); reflexivity.
Qed.

Lemma sub_nan_l (x : float) : (nan - x)%float = nan.
Proof. apply Prim2SF_inj. rewrite sub_spec. reflexivity. Qed.

Lemma sub_nan_r (x : float) : (x - nan)%float = nan.
Proof.
  apply Prim2SF_inj. rewrite sub_spec. change (Prim2SF nan) with S754_nan.
  unfold SF64sub, SFsub. destruct (Prim2SF x); reflexivity.
Qed.

Lemma add_nan_l (x : float) : (nan + x)%float = nan.
Proof. apply Prim2SF_inj. rewrite add_spec. reflexivity. Qed.

Lemma add_nan_r (x : float) : (x + nan)%float = nan.
Proof.
  apply Prim2SF_inj. rewrite add_spec. change (Prim2SF nan) with S754_nan.
  unfold SF64add, SFadd. destruct (Prim2SF x); reflexivity.
Qed.

End Binary64Signed.

(** *** Rounding to nearest even, on integers *)

Section Rounding.
Local Open Scope Z_scope.

Lemma pow2_pos (n : Z) : 0 <= n -> 0 < 2 ^ n.
Proof. intros. apply Z.pow_pos_nonneg; lia. Qed.

Lemma pow2_split (a b : Z) : 0 <= a -> 0 <= b -> 2 ^ (a + b) = 2 ^ a * 2 ^ b.
Proof. intros. apply Z.pow_add_r; assumption. Qed.

Lemma rne_cases (m n : Z) :
  0 <= n ->
  let q := m / 2 ^ n in
  let r := m mod 2 ^ n in
  m = q * 2 ^ n + r /\ 0 <= r < 2 ^ n
  /\ ((2 * r < 2 ^ n /\ rne m n = q)
      \/ (2 ^ n < 2 * r /\ rne m n = q + 1)
      \/ (2 * r = 2 ^ n /\ rne m n = if Z.even q then q else q + 1)).
Proof.
  intros Hn q r. pose proof (pow2_pos n Hn) as Hp.
  pose proof (Z.div_mod m (2 ^ n) ltac:(lia)) as Hdm.
  pose proof (Z.mod_pos_bound m (2 ^ n) Hp) as Hr.
  split; [subst q r; lia|]. split; [exact Hr|].
  unfold rne. fold q. fold r.
  destruct (Z.compare_spec (2 * r) (2 ^ n)); [right; right|left|right; left]; auto.
Qed.

Lemma rne_bounds (m n : Z) : 0 <= n -> m / 2 ^ n <= rne m n <= m / 2 ^ n + 1.
Proof.
  intros Hn. destruct (rne_cases m n Hn) as (_ & _ & [[_ ->]|[[_ ->]|[_ ->]]]);
    try destruct (Z.even _); lia.
Qed.

(** The defining property, without division. *)
Lemma rne_spec (m n k : Z) :
  0 <= n ->
  (2 * Z.abs (m - k * 2 ^ n) < 2 ^ n
   \/ (2 * Z.abs (m - k * 2 ^ n) = 2 ^ n /\ Z.even k = true)) ->
  rne m n = k.
Proof.
  intros Hn Hk. pose proof (pow2_pos n Hn) as Hp.
  destruct (rne_cases m n Hn) as (Hm & Hr & Hc).
  set (q := m / 2 ^ n) in *. set (r := m mod 2 ^ n) in *. clearbody q r.
  assert (Hq : k = q \/ k = q + 1) by nia.
  destruct Hc as [[Hlt ->]|[[Hgt ->]|[Heq ->]]].
  - destruct Hq as [->| ->]; [reflexivity|]. exfalso. destruct Hk as [Hk|[Hk _]]; nia.
  - destruct Hq as [->| ->]; [|reflexivity]. exfalso. destruct Hk as [Hk|[Hk _]]; nia.
  - destruct Hk as [Hk|[Hk He]]; [exfalso; destruct Hq as [->| ->]; nia|].
    destruct Hq as [->| ->].
    + rewrite He. reflexivity.
    + rewrite Z.even_add in He. destruct (Z.even q); [discriminate|reflexivity].
Qed.

Lemma rne_exact (k n : Z) : 0 <= n -> rne (k * 2 ^ n) n = k.
Proof.
  intros Hn. pose proof (pow2_pos n Hn). apply rne_spec; [assumption|].
  left. replace (k * 2 ^ n - k * 2 ^ n) with 0 by lia. simpl. lia.
Qed.

Lemma rne_error (m n : Z) : 0 <= n -> 2 * Z.abs (rne m n * 2 ^ n - m) <= 2 ^ n.
Proof.
  intros Hn. destruct (rne_cases m n Hn) as (Hm & Hr & [[? ->]|[[? ->]|[? ->]]]);
    try destruct (Z.even _); nia.
Qed.

Lemma rne_mono (m1 m2 n : Z) : 0 <= n -> m1 <= m2 -> rne m1 n <= rne m2 n.
Proof.
  intros Hn Hle. pose proof (pow2_pos n Hn) as Hp.
  destruct (rne_cases m1 n Hn) as (Hm1 & Hr1 & Hc1).
  destruct (rne_cases m2 n Hn) as (Hm2 & Hr2 & Hc2).
  set (q1 := m1 / 2 ^ n) in *. set (r1 := m1 mod 2 ^ n) in *.
  set (q2 := m2 / 2 ^ n) in *. set (r2 := m2 mod 2 ^ n) in *. clearbody q1 r1 q2 r2.
  assert (Hq : q1 <= q2) by nia.
  destruct (Z.eq_dec q1 q2) as [->|Hne].
  - assert (r1 <= r2) by nia.
    destruct Hc1 as [[? ->]|[[? ->]|[? ->]]], Hc2 as [[? ->]|[[? ->]|[? ->]]];
      try destruct (Z.even q2); lia.
  - assert (q1 + 1 <= q2) by lia.
    destruct Hc1 as [[? ->]|[[? ->]|[? ->]]], Hc2 as [[? ->]|[[? ->]|[? ->]]];
      try destruct (Z.even q1); try destruct (Z.even q2); lia.
Qed.

(** Trailing zeros do not change the rounding. *)
Lemma rne_scale (m n k : Z) : 0 <= n -> 0 <= k -> rne (m * 2 ^ k) (n + k) = rne m n.
Proof.
  intros Hn Hk. pose proof (pow2_pos n Hn) as Hp. pose proof (pow2_pos k Hk) as Hpk.
  destruct (rne_cases m n Hn) as (Hm & Hr & Hc).
  set (q := m / 2 ^ n) in *. set (r := m mod 2 ^ n) in *. clearbody q r.
  apply rne_spec; [lia|]. rewrite pow2_split by lia.
  destruct Hc as [[? ->]|[[? ->]|[? ->]]].
  - left. nia.
  - left. nia.
  - destruct (Z.even q) eqn:He.
    + right. split; [nia|exact He].
    + right. split; [nia|]. rewrite Z.even_add, He. reflexivity.
Qed.

(** *** Rounding to 53 bits *)

Lemma log2_bounds (N : Z) : 0 < N -> 2 ^ Z.log2 N <= N < 2 ^ (Z.log2 N + 1).
Proof. intros HN. pose proof (Z.log2_spec N HN). replace (Z.log2 N + 1) with (Z.succ (Z.log2 N)) by lia. lia. Qed.

Lemma round53_shift_small (N : Z) : 0 <= N < 2 ^ 53 -> Z.max (Z.log2 N + 1 - 53) 0 = 0.
Proof.
  intros [H0 Hlt]. destruct (Z.eq_dec N 0) as [->|Hne]; [reflexivity|].
  assert (Z.log2 N < 53) by (apply Z.log2_lt_pow2; lia). lia.
Qed.

Lemma round53_small (N : Z) : 0 <= N < 2 ^ 53 -> round53 N = N.
Proof.
  intros HN. unfold round53. rewrite round53_shift_small by assumption.
  rewrite Z.pow_0_r, Z.mul_1_r. replace N with (N * 2 ^ 0) at 1 by (rewrite Z.pow_0_r; lia).
  apply rne_exact. lia.
Qed.

Lemma round53_0 : round53 0 = 0.
Proof. reflexivity. Qed.

(** What binary64 holds is not changed. *)
Lemma round53_grid (k j : Z) : 0 <= j -> 0 <= k < 2 ^ 53 -> round53 (k * 2 ^ j) = k * 2 ^ j.
Proof.
  intros Hj Hk. pose proof (pow2_pos j Hj) as Hp.
  destruct (Z.eq_dec k 0) as [->|Hne]; [reflexivity|].
  set (N := k * 2 ^ j). assert (HN : 0 < N) by (subst N; nia).
  unfold round53. set (n := Z.max (Z.log2 N + 1 - 53) 0).
  assert (Hn : 0 <= n <= j).
  { subst n. split; [lia|]. apply Z.max_lub; [|lia].
    assert (Z.log2 N < 53 + j); [|lia].
    apply Z.log2_lt_pow2; [lia|]. rewrite pow2_split by lia. subst N. nia. }
  replace N with (k * 2 ^ (j - n) * 2 ^ n)
    by (subst N; rewrite <- Z.mul_assoc, <- pow2_split by lia; do 2 f_equal; lia).
  rewrite rne_exact by lia. reflexivity.
Qed.

Lemma round53_binade (N j : Z) :
  0 <= j -> 2 ^ (52 + j) <= N < 2 ^ (53 + j) -> round53 N = rne N j * 2 ^ j.
Proof.
  intros Hj HN. assert (HL : Z.log2 N = 52 + j).
  { apply Z.log2_unique; [lia|]. replace (Z.succ (52 + j)) with (53 + j) by lia. exact HN. }
  unfold round53. rewrite HL. replace (Z.max (52 + j + 1 - 53) 0) with j by lia. reflexivity.
Qed.

Lemma round53_range (N : Z) :
  0 < N -> 2 ^ Z.log2 N <= round53 N <= 2 ^ (Z.log2 N + 1).
Proof.
  intros HN. pose proof (log2_bounds N HN) as HL. pose proof (Z.log2_nonneg N) as HL0.
  destruct (Z_lt_le_dec (Z.log2 N) 53) as [Hs|Hb].
  - rewrite round53_small; [lia|]. split; [lia|].
    assert (2 ^ (Z.log2 N + 1) <= 2 ^ 53) by (apply Z.pow_le_mono_r; lia). lia.
  - set (j := Z.log2 N - 52). assert (Hj : 0 <= j) by lia.
    replace (Z.log2 N) with (52 + j) in * by lia.
    replace (52 + j + 1) with (53 + j) in * by lia.
    rewrite (round53_binade N j Hj HL).
    pose proof (rne_bounds N j Hj) as Hr. pose proof (pow2_pos j Hj) as Hp.
    rewrite !(Z.add_comm _ j), !pow2_split in * by lia.
    assert (2 ^ 52 <= N / 2 ^ j) by (apply Z.div_le_lower_bound; lia).
    assert (N / 2 ^ j < 2 ^ 53) by (apply Z.div_lt_upper_bound; lia).
    nia.
Qed.

Lemma round53_nonneg (N : Z) : 0 <= N -> 0 <= round53 N.
Proof.
  intros HN. destruct (Z.eq_dec N 0) as [->|Hne]; [rewrite round53_0; lia|].
  pose proof (round53_range N ltac:(lia)). pose proof (pow2_pos (Z.log2 N) (Z.log2_nonneg N)). lia.
Qed.

Lemma round53_mono (N1 N2 : Z) : 0 <= N1 <= N2 -> round53 N1 <= round53 N2.
Proof.
  intros [H1 H12]. destruct (Z.eq_dec N1 0) as [->|Hne].
  { rewrite round53_0. apply round53_nonneg. lia. }
  pose proof (Z.log2_le_mono N1 N2 H12) as HL.
  destruct (Z.eq_dec (Z.log2 N1) (Z.log2 N2)) as [Heq|Hlt].
  - unfold round53. rewrite Heq. set (n := Z.max _ 0). assert (0 <= n) by lia.
    pose proof (rne_mono N1 N2 n ltac:(lia) H12). pose proof (pow2_pos n ltac:(lia)). nia.
  - pose proof (round53_range N1 ltac:(lia)) as [_ Hu].
    pose proof (round53_range N2 ltac:(lia)) as [Hl _].
    assert (2 ^ (Z.log2 N1 + 1) <= 2 ^ Z.log2 N2)
      by (apply Z.pow_le_mono_r; pose proof (Z.log2_nonneg N1); lia).
    lia.
Qed.

(** The error is at most half the spacing of the binade. *)
Lemma round53_error (N j : Z) :
  0 <= j -> 0 <= N < 2 ^ (53 + j) -> 2 * Z.abs (round53 N - N) <= 2 ^ j.
Proof.
  intros Hj [H0 Hlt]. pose proof (pow2_pos j Hj) as Hp.
  destruct (Z_lt_le_dec N (2 ^ 53)) as [Hs|Hb].
  - rewrite round53_small by lia. replace (N - N) with 0 by lia. simpl. lia.
  - assert (HN : 0 < N) by lia.
    pose proof (log2_bounds N HN) as HL.
    assert (Hlo : 53 <= Z.log2 N) by (apply Z.log2_le_pow2; lia).
    assert (Hhi : Z.log2 N < 53 + j) by (apply Z.log2_lt_pow2; lia).
    unfold round53. replace (Z.max (Z.log2 N + 1 - 53) 0) with (Z.log2 N - 52) by lia.
    set (n := Z.log2 N - 52). assert (Hn : 0 <= n <= j) by lia.
    pose proof (rne_error N n ltac:(lia)).
    assert (2 ^ n <= 2 ^ j) by (apply Z.pow_le_mono_r; lia). lia.
Qed.

(** Less than half a spacing above a binary64 is rounded down to it. *)
Lemma round53_down (K j d : Z) :
  0 <= j -> 2 ^ 52 <= K < 2 ^ 53 -> 0 <= 2 * d < 2 ^ j ->
  round53 (K * 2 ^ j + d) = K * 2 ^ j.
Proof.
  intros Hj HK Hd. pose proof (pow2_pos j Hj) as Hp.
  rewrite (round53_binade _ j Hj).
  - f_equal. apply rne_spec; [assumption|]. left.
    replace (K * 2 ^ j + d - K * 2 ^ j) with d by lia. lia.
  - rewrite !(Z.add_comm _ j), !pow2_split by lia. nia.
Qed.

End Rounding.

(** *** The rounding of SpecFloat, in terms of [rne] *)

Section SpecRounding.
Local Open Scope Z_scope.

Lemma iter_pos_iter {A : Type} (f : A -> A) (p : positive) (x : A) :
  SpecFloat.iter_pos f p x = Pos.iter f x p.
Proof.
  revert x. induction p as [p IH|p IH|]; intros x; simpl.
  - rewrite !IH, <- !Pos.iter_swap. reflexivity.
  - rewrite !IH. reflexivity.
  - reflexivity.
Qed.

Lemma shr_1_nonneg (m : Z) (r s : bool) :
  0 <= m ->
  shr_1 {| shr_m := m; shr_r := r; shr_s := s |}
  = {| shr_m := m / 2; shr_r := Z.odd m; shr_s := r || s |}.
Proof.
  intros Hm. rewrite <- Z.div2_div. destruct m as [|[p|p|]|]; try lia; reflexivity.
Qed.

(** The low [n] bits of [m], split at the top one. *)
Lemma mod_pow2_split (m n : Z) :
  1 <= n ->
  m mod 2 ^ n = m mod 2 ^ (n - 1) + 2 ^ (n - 1) * (if Z.odd (m / 2 ^ (n - 1)) then 1 else 0).
Proof.
  intros Hn. pose proof (pow2_pos (n - 1) ltac:(lia)) as Hp.
  replace (2 ^ n) with (2 ^ (n - 1) * 2)
    by (rewrite <- (Z.pow_1_r 2) at 2; rewrite <- Z.pow_add_r by lia; f_equal; lia).
  rewrite Z.rem_mul_r by lia. do 2 f_equal.
  rewrite Zmod_odd. reflexivity.
Qed.

Lemma shr_iter (m : Z) (p : positive) :
  0 <= m ->
  SpecFloat.iter_pos shr_1 p {| shr_m := m; shr_r := false; shr_s := false |}
  = {| shr_m := m / 2 ^ Zpos p;
       shr_r := Z.odd (m / 2 ^ (Zpos p - 1));
       shr_s := negb (m mod 2 ^ (Zpos p - 1) =? 0) |}.
Proof.
  intros Hm. rewrite iter_pos_iter.
  induction p as [|p IH] using Pos.peano_ind.
  - cbn [Pos.iter]. rewrite shr_1_nonneg by assumption.
    change (Zpos 1 - 1) with 0. rewrite Z.pow_0_r, Z.pow_1_r, Z.div_1_r, Z.mod_1_r.
    reflexivity.
  - rewrite Pos.iter_succ, IH.
    assert (Hq : 0 <= m / 2 ^ Zpos p) by (apply Z.div_pos; [lia|apply pow2_pos; lia]).
    rewrite shr_1_nonneg by assumption.
    rewrite Pos2Z.inj_succ. replace (Z.succ (Zpos p) - 1) with (Zpos p) by lia.
    f_equal.
    + rewrite Z.div_div by (try apply pow2_pos; lia).
      rewrite Z.pow_succ_r by lia. f_equal. lia.
    + rewrite (mod_pow2_split m (Zpos p)) by lia.
      pose proof (Z.mod_pos_bound m (2 ^ (Zpos p - 1)) (pow2_pos (Zpos p - 1) ltac:(lia))) as Hb.
      pose proof (pow2_pos (Zpos p - 1) ltac:(lia)) as Hp.
      destruct (Z.odd (m / 2 ^ (Zpos p - 1))); cbn [orb]; cbv iota.
      * symmetry. apply negb_true_iff, Z.eqb_neq. lia.
      * rewrite Z.mul_0_r, Z.add_0_r. reflexivity.
Qed.

Lemma round_bits (m n : Z) :
  0 <= m -> 1 <= n ->
  round_nearest_even (m / 2 ^ n)
    (loc_of_shr_record {| shr_m := m / 2 ^ n;
                          shr_r := Z.odd (m / 2 ^ (n - 1));
                          shr_s := negb (m mod 2 ^ (n - 1) =? 0) |})
  = rne m n.
Proof.
  intros Hm Hn. unfold rne. rewrite (mod_pow2_split m n Hn).
  pose proof (Z.mod_pos_bound m (2 ^ (n - 1)) (pow2_pos (n - 1) ltac:(lia))) as Hb.
  pose proof (pow2_pos (n - 1) ltac:(lia)) as Hp.
  assert (H2 : 2 ^ n = 2 * 2 ^ (n - 1))
    by (rewrite <- Z.pow_succ_r by lia; f_equal; lia).
  rewrite H2. set (a := m mod 2 ^ (n - 1)) in *. set (P := 2 ^ (n - 1)) in *.
  destruct (Z.odd (m / P)); cbv iota.
  - destruct (Z.eqb_spec a 0) as [Ha|Ha]; cbn [negb loc_of_shr_record round_nearest_even].
    + rewrite Ha. replace (2 * (0 + P * 1) ?= 2 * P) with Eq
        by (symmetry; apply Z.compare_eq_iff; lia). reflexivity.
    + replace (2 * (a + P * 1) ?= 2 * P) with Gt
        by (symmetry; apply Z.compare_gt_iff; lia). reflexivity.
  - replace (2 * (a + P * 0) ?= 2 * P) with Lt
      by (symmetry; apply Z.compare_lt_iff; lia).
    destruct (negb (a =? 0)); reflexivity.
Qed.

End SpecRounding.

Section SpecRounding2.
Local Open Scope Z_scope.

Lemma digits2_log2 (p : positive) : Zpos (digits2_pos p) = Z.log2 (Zpos p) + 1.
Proof.
  pose proof (digits2_bounds p) as [Hlo Hhi].
  assert (Z.log2 (Zpos p) = Zpos (digits2_pos p) - 1); [|lia].
  apply Z.log2_unique; [lia|]. replace (Z.succ (Zpos (digits2_pos p) - 1)) with (Zpos (digits2_pos p)) by lia.
  auto.
Qed.

Lemma pow2_le (a b : Z) : 0 <= a <= b -> 2 ^ a <= 2 ^ b.
Proof. intros. apply Z.pow_le_mono_r; lia. Qed.

Lemma pow2_lt (a b : Z) : 0 <= a < b -> 2 ^ a < 2 ^ b.
Proof. intros. apply Z.pow_lt_mono_r; lia. Qed.

Lemma shr_nonpos (mrs : shr_record) (e n : Z) : n <= 0 -> shr mrs e n = (mrs, e).
Proof. intros Hn. unfold shr. destruct n; try reflexivity. lia. Qed.

Lemma shr_pos (m e n : Z) :
  0 <= m -> 0 < n ->
  shr {| shr_m := m; shr_r := false; shr_s := false |} e n
  = ({| shr_m := m / 2 ^ n;
        shr_r := Z.odd (m / 2 ^ (n - 1));
        shr_s := negb (m mod 2 ^ (n - 1) =? 0) |}, e + n).
Proof.
  intros Hm Hn. unfold shr. destruct n as [|p|p]; try lia. rewrite shr_iter by assumption.
  reflexivity.
Qed.

(** The second normalisation of [binary_round_aux]: the rounded mantissa
    has at most 53 digits or is [2^53]. *)
Lemma renormalize (s : bool) (m1 e1 : Z) :
  0 <= m1 <= 2 ^ 53 -> - 1074 <= e1 ->
  let '(mrs, e2) := shr_fexp prec emax m1 e1 loc_Exact in
  (m1 = 0 -> shr_m mrs = 0)
  /\ (0 < m1 -> 0 < shr_m mrs < 2 ^ 53 /\ shr_m mrs * 2 ^ (e2 + 1074) = m1 * 2 ^ (e1 + 1074)
               /\ e1 <= e2 <= e1 + 1 /\ (e2 = e1 + 1 -> shr_m mrs = 2 ^ 52)
               /\ (e2 = e1 -> shr_m mrs = m1)).
Proof.
  intros Hm He. unfold shr_fexp. cbn [shr_record_of_loc].
  unfold fexp, SpecFloat.emin, prec, emax.
  destruct m1 as [|P|P]; [| |lia].
  - cbn [Zdigits2]. rewrite shr_nonpos by lia. cbn [shr_m]. split; [reflexivity|lia].
  - cbn [Zdigits2]. pose proof (digits2_bounds P) as [Hlo Hhi].
    destruct (Z.eq_dec (Zpos P) (2 ^ 53)) as [H53|Hne].
    + assert (Hd : Zpos (digits2_pos P) = 54) by (apply digits2_unique; rewrite H53; simpl; lia).
      rewrite Hd. replace (Z.max (54 + e1 - 53) (3 - 1024 - 53) - e1) with 1 by lia.
      rewrite shr_pos by lia. cbn [shr_m]. split; [lia|]. intros _.
      rewrite H53. change (2 ^ 53 / 2 ^ 1) with (2 ^ 52).
      replace (e1 + 1 + 1074) with (Z.succ (e1 + 1074)) by lia.
      rewrite Z.pow_succ_r by lia. split; [simpl; lia|]. split; [lia|]. split; [lia|]. split; [auto|lia].
    + assert (Hd : Zpos (digits2_pos P) <= 53) by (apply digits2_le_prec; lia).
      rewrite shr_nonpos by lia. cbn [shr_m]. split; [lia|]. intros _.
      repeat split; try lia.
Qed.

(** Where binary64 overflows. *)
Lemma units_below_overflow (m e : Z) :
  0 <= m < 2 ^ 53 -> - 1074 <= e <= 971 -> m * 2 ^ (e + 1074) < overflow_units.
Proof.
  intros Hm He. unfold overflow_units.
  pose proof (pow2_pos (e + 1074) ltac:(lia)) as Hp.
  apply Z.lt_le_trans with (2 ^ 53 * 2 ^ (e + 1074)).
  - apply Z.mul_lt_mono_pos_r; lia.
  - rewrite <- pow2_split by lia. apply pow2_le. lia.
Qed.

Lemma units_above_overflow (m e : Z) :
  2 ^ 52 <= m -> 972 <= e -> overflow_units <= m * 2 ^ (e + 1074).
Proof.
  intros Hm He. unfold overflow_units.
  pose proof (pow2_pos (e + 1074) ltac:(lia)) as Hp.
  apply Z.le_trans with (2 ^ 52 * 2 ^ (e + 1074)).
  - rewrite <- pow2_split by lia. apply pow2_le. lia.
  - apply Z.mul_le_mono_nonneg_r; lia.
Qed.

Lemma overflow_units_pos : 0 < overflow_units.
Proof. apply pow2_pos. lia. Qed.

(** [binary_round_aux] when the mantissa needs no shift. *)
Lemma binary_round_aux_exact (s : bool) (M : positive) (e : Z) :
  fexp prec emax (Zpos (digits2_pos M) + e) - e <= 0 ->
  binary_round_aux prec emax s (Zpos M) e loc_Exact
  = if e <=? emax - prec then S754_finite s M e else S754_infinity s.
Proof.
  intros Hn. unfold binary_round_aux, shr_fexp. cbn [Zdigits2 shr_record_of_loc].
  rewrite shr_nonpos by assumption. cbn [shr_m loc_of_shr_record round_nearest_even Zdigits2
    shr_record_of_loc].
  rewrite shr_nonpos by assumption. reflexivity.
Qed.

(** [binary_round_aux] when the mantissa is shifted and rounded. *)
Lemma binary_round_aux_rne (s : bool) (M : positive) (e : Z) :
  let n := fexp prec emax (Zpos (digits2_pos M) + e) - e in
  0 < n ->
  let V := rne (Zpos M) n * 2 ^ (e + n + 1074) in
  let r := binary_round_aux prec emax s (Zpos M) e loc_Exact in
  (V < overflow_units -> is_finite r = true /\ units r = cond_Zopp s V)
  /\ (overflow_units <= V -> r = S754_infinity s).
Proof.
  intros n Hn V r.
  assert (Hr : r = let '(mrs, e2) := shr_fexp prec emax (rne (Zpos M) n) (e + n) loc_Exact in
                   match shr_m mrs with
                   | 0 => S754_zero s
                   | Zpos m => if e2 <=? emax - prec then S754_finite s m e2
                               else S754_infinity s
                   | Zneg _ => S754_nan
                   end).
  { subst r. unfold binary_round_aux.
    unfold shr_fexp at 1. cbn [Zdigits2 shr_record_of_loc]. fold n.
    rewrite shr_pos by lia. cbn [shr_m]. rewrite round_bits by lia. reflexivity. }
  clearbody r. subst r.
  set (m1 := rne (Zpos M) n) in *. set (e1 := e + n) in *.
  pose proof (digits2_bounds M) as [Hlo Hhi]. set (d := Zpos (digits2_pos M)) in *.
  assert (He1 : e1 = Z.max (d + e - 53) (- 1074))
    by (subst e1 n; unfold fexp, SpecFloat.emin, prec, emax; lia).
  pose proof (pow2_pos n ltac:(lia)) as Hpn.
  pose proof (rne_bounds (Zpos M) n ltac:(lia)) as Hq. fold m1 in Hq.
  assert (Hup : m1 <= 2 ^ 53).
  { assert (Zpos M / 2 ^ n < 2 ^ 53); [|lia]. apply Z.div_lt_upper_bound; [lia|].
    rewrite <- pow2_split by lia. eapply Z.lt_le_trans; [exact Hhi|]. apply pow2_le. lia. }
  assert (Hq0 : 0 <= Zpos M / 2 ^ n) by (apply Z.div_pos; lia).
  assert (Hnormal : - 1074 < e1 -> 2 ^ 52 <= m1).
  { intros Hnorm. assert (2 ^ 52 <= Zpos M / 2 ^ n); [|lia].
    apply Z.div_le_lower_bound; [lia|]. rewrite Z.mul_comm, <- pow2_split by lia.
    replace (52 + n) with (d - 1) by lia. exact Hlo. }
  pose proof (renormalize s m1 e1 ltac:(lia) ltac:(lia)) as Hre.
  destruct (shr_fexp prec emax m1 e1 loc_Exact) as [mrs e2].
  destruct Hre as [Hz Hnz]. unfold V. fold e1.
  destruct (Z.eq_dec m1 0) as [H0|Hne].
  - rewrite (Hz H0), H0. cbn [is_finite units]. rewrite Z.mul_0_l.
    split; [intros _; destruct s; auto|]. pose proof overflow_units_pos. lia.
  - destruct (Hnz ltac:(lia)) as (Hm2 & Hval & He2 & Hstep & Hsame).
    destruct (shr_m mrs) as [|P2|P2]; [lia| |lia].
    rewrite <- Hval. unfold emax, prec.
    change (1024 - 53) with 971.
    destruct (Z.leb_spec e2 971) as [Hfin|Hinf].
    + cbn [is_finite units]. split; [auto|]. intros Hov. exfalso.
      pose proof (units_below_overflow (Zpos P2) e2 ltac:(lia) ltac:(lia)). lia.
    + split; [|reflexivity]. intros Hlt. exfalso.
      assert (2 ^ 52 <= Zpos P2).
      { destruct (Z.eq_dec e2 e1) as [Heq|Hneq].
        - rewrite (Hsame Heq). apply Hnormal. lia.
        - rewrite (Hstep ltac:(lia)). lia. }
      pose proof (units_above_overflow (Zpos P2) e2 ltac:(lia) ltac:(lia)). lia.
Qed.

End SpecRounding2.

Section SpecRounding3.
Local Open Scope Z_scope.

Lemma log2_mul_pow2 (M : positive) (k : Z) :
  0 <= k -> Z.log2 (Zpos M * 2 ^ k) + 1 = Zpos (digits2_pos M) + k.
Proof.
  intros Hk. rewrite Z.log2_mul_pow2 by lia. rewrite digits2_log2. lia.
Qed.

(** [binary_round]: the value [M * 2^e], at least [2^-1074] fine, rounded
    to 53 bits. *)
Lemma binary_round_spec (s : bool) (M : positive) (e : Z) :
  - 1074 <= e ->
  let N := Zpos M * 2 ^ (e + 1074) in
  let r := binary_round prec emax s M e in
  (round53 N < overflow_units -> is_finite r = true /\ units r = cond_Zopp s (round53 N))
  /\ (overflow_units <= round53 N -> r = S754_infinity s).
Proof.
  intros He N r. subst r. unfold binary_round.
  set (d := Zpos (digits2_pos M)). set (f := fexp prec emax (d + e)).
  assert (Hf : f = Z.max (d + e - 53) (- 1074))
    by (subst f; unfold fexp, SpecFloat.emin, prec, emax; lia).
  pose proof (digits2_bounds M) as [Hlo Hhi]. fold d in Hlo, Hhi.
  assert (Hd : 1 <= d) by (subst d; lia).
  assert (Hexact : forall (M' : positive) (e' : Z),
            - 1074 <= e' -> Zpos M' * 2 ^ (e' + 1074) = N ->
            fexp prec emax (Zpos (digits2_pos M') + e') = e' ->
            let r := binary_round_aux prec emax s (Zpos M') e' loc_Exact in
            (round53 N < overflow_units ->
             is_finite r = true /\ units r = cond_Zopp s (round53 N))
            /\ (overflow_units <= round53 N -> r = S754_infinity s)).
  { intros M' e' He' HN Hcan r. subst r.
    rewrite binary_round_aux_exact by lia.
    pose proof (digits2_bounds M') as [Hlo' Hhi']. set (d' := Zpos (digits2_pos M')) in *.
    unfold fexp, SpecFloat.emin, prec, emax in Hcan.
    assert (Hd' : d' <= 53) by lia.
    assert (HM' : Zpos M' < 2 ^ 53)
      by (eapply Z.lt_le_trans; [exact Hhi'|apply pow2_le; lia]).
    assert (Hr : round53 N = N) by (rewrite <- HN; apply round53_grid; lia).
    rewrite Hr, <- HN. unfold emax, prec. change (1024 - 53) with 971.
    destruct (Z.leb_spec e' 971) as [Hfin|Hinf].
    - cbn [is_finite units]. split; [auto|]. intros Hov. exfalso.
      pose proof (units_below_overflow (Zpos M') e' ltac:(lia) ltac:(lia)). lia.
    - split; [|reflexivity]. intros Hlt. exfalso.
      assert (d' = 53) by lia.
      assert (2 ^ 52 <= Zpos M') by (replace 52 with (d' - 1) by lia; exact Hlo').
      pose proof (units_above_overflow (Zpos M') e' ltac:(lia) ltac:(lia)). lia. }
  unfold shl_align. destruct (f - e) as [|p|p] eqn:Hfe.
  - (* the mantissa is in place *)
    apply Hexact; [assumption|reflexivity|]. fold d. fold f. lia.
  - (* the mantissa is shifted right and rounded *)
    pose proof (binary_round_aux_rne s M e) as Hr. cbv zeta in Hr. fold d in Hr. fold f in Hr.
    rewrite Hfe in Hr. specialize (Hr ltac:(lia)).
    assert (HV : round53 N = rne (Zpos M) (Zpos p) * 2 ^ (e + Zpos p + 1074)).
    { unfold round53. subst N. rewrite log2_mul_pow2 by lia. fold d.
      replace (Z.max (d + (e + 1074) - 53) 0) with (Zpos p + (e + 1074)) by lia.
      rewrite rne_scale by lia. do 2 f_equal. lia. }
    rewrite HV. exact Hr.
  - (* the mantissa is shifted left *)
    apply Hexact.
    + lia.
    + rewrite iter_xO_Z. subst N. rewrite <- Z.mul_assoc, <- pow2_split by lia.
      do 2 f_equal. lia.
    + rewrite digits2_iter_xO. fold d.
      replace (d + Zpos p + f) with (d + e) by lia. reflexivity.
Qed.

(** What validity says about a finite binary64. *)
Lemma valid_finite (m : positive) (e : Z) :
  bounded prec emax m e = true ->
  - 1074 <= e <= 971 /\ Zpos m < 2 ^ 53 /\ (- 1074 < e -> 2 ^ 52 <= Zpos m).
Proof.
  unfold bounded, canonical_mantissa, fexp, SpecFloat.emin, prec, emax.
  intros [Hc He]%andb_prop. apply Z.eqb_eq in Hc. apply Z.leb_le in He.
  pose proof (digits2_bounds m) as [Hlo Hhi]. set (d := Zpos (digits2_pos m)) in *.
  split; [lia|]. split.
  - eapply Z.lt_le_trans; [exact Hhi|apply pow2_le; subst d; lia].
  - intros Hn. replace 52 with (d - 1) by lia. exact Hlo.
Qed.

Lemma units_valid (x : spec_float) :
  valid_binary x = true -> is_finite x = true ->
  Z.abs (units x) < overflow_units /\ round53 (Z.abs (units x)) = Z.abs (units x).
Proof.
  destruct x as [s|s| |s m e]; cbn [valid_binary is_finite units]; try discriminate.
  - intros _ _. split; [apply overflow_units_pos|reflexivity].
  - intros Hv _. destruct (valid_finite m e Hv) as (He & Hm & _).
    pose proof (pow2_pos (e + 1074) ltac:(lia)).
    assert (Ha : Z.abs (cond_Zopp s (Zpos m * 2 ^ (e + 1074))) = Zpos m * 2 ^ (e + 1074))
      by (destruct s; cbn [cond_Zopp]; lia).
    rewrite Ha. split; [apply units_below_overflow; lia|apply round53_grid; lia].
Qed.

End SpecRounding3.

Section SpecArith.
Local Open Scope Z_scope.

Lemma round53s_nonneg (N : Z) : 0 <= N -> round53s N = round53 N.
Proof.
  intros HN. unfold round53s. destruct (Z.eq_dec N 0) as [->|Hne]; [reflexivity|].
  rewrite Z.sgn_pos, Z.abs_eq by lia. lia.
Qed.

Lemma round53s_neg (N : Z) : N < 0 -> round53s N = - round53 (- N).
Proof.
  intros HN. unfold round53s. rewrite Z.sgn_neg, Z.abs_neq by lia. lia.
Qed.

Lemma binary_normalize_spec (Mz ez : Z) :
  - 1074 <= ez ->
  let N := Mz * 2 ^ (ez + 1074) in
  let r := binary_normalize prec emax Mz ez false in
  (round53 (Z.abs N) < overflow_units -> is_finite r = true /\ units r = round53s N)
  /\ (overflow_units <= round53 (Z.abs N) -> r = S754_infinity (N <? 0)).
Proof.
  intros He N r. pose proof (pow2_pos (ez + 1074) ltac:(lia)) as Hp.
  destruct Mz as [|M|M]; subst r N; cbn [binary_normalize].
  - rewrite Z.mul_0_l. change (round53 (Z.abs 0)) with 0. change (round53s 0) with 0.
    cbn [is_finite units]. split; [auto|]. pose proof overflow_units_pos. lia.
  - rewrite Z.abs_eq, round53s_nonneg by lia.
    replace (Zpos M * 2 ^ (ez + 1074) <? 0) with false by (symmetry; apply Z.ltb_ge; lia).
    apply (binary_round_spec false M ez He).
  - replace (Z.abs (Zneg M * 2 ^ (ez + 1074))) with (Zpos M * 2 ^ (ez + 1074)) by lia.
    rewrite round53s_neg by lia.
    replace (- (Zneg M * 2 ^ (ez + 1074))) with (Zpos M * 2 ^ (ez + 1074)) by lia.
    replace (Zneg M * 2 ^ (ez + 1074) <? 0) with true by (symmetry; apply Z.ltb_lt; lia).
    apply (binary_round_spec true M ez He).
Qed.

(** The mantissa of a finite binary64, with its sign, at a lower
    exponent. *)
Lemma aligned_units (s : bool) (m : positive) (e ez : Z) :
  - 1074 <= ez <= e ->
  cond_Zopp s (Zpos (fst (shl_align m e ez))) * 2 ^ (ez + 1074)
  = cond_Zopp s (Zpos m * 2 ^ (e + 1074)).
Proof.
  intros He. rewrite shl_align_fst by lia.
  replace (e + 1074) with ((e - ez) + (ez + 1074)) by lia.
  rewrite (pow2_split (e - ez) (ez + 1074)) by lia.
  destruct s; cbn [cond_Zopp]; ring.
Qed.

Lemma units_fixed (x : spec_float) :
  valid_binary x = true -> is_finite x = true -> round53s (units x) = units x.
Proof.
  intros Hv Hf. destruct (units_valid x Hv Hf) as [_ Hr]. unfold round53s. rewrite Hr.
  destruct (Z.lt_trichotomy (units x) 0) as [H|[H|H]].
  - rewrite Z.sgn_neg, Z.abs_neq by lia. lia.
  - rewrite H. reflexivity.
  - rewrite Z.sgn_pos, Z.abs_eq by lia. lia.
Qed.

Lemma SFadd_spec (x y : spec_float) :
  valid_binary x = true -> valid_binary y = true ->
  is_finite x = true -> is_finite y = true ->
  let N := units x + units y in
  let r := SFadd prec emax x y in
  (round53 (Z.abs N) < overflow_units -> is_finite r = true /\ units r = round53s N)
  /\ (overflow_units <= round53 (Z.abs N) -> r = S754_infinity (N <? 0)).
Proof.
  intros Hvx Hvy Hfx Hfy N r.
  assert (Hone : forall z : spec_float,
            valid_binary z = true -> is_finite z = true -> N = units z -> r = z ->
            (round53 (Z.abs N) < overflow_units -> is_finite r = true /\ units r = round53s N)
            /\ (overflow_units <= round53 (Z.abs N) -> r = S754_infinity (N <? 0))).
  { intros z Hvz Hfz HN Hr. rewrite Hr, HN.
    destruct (units_valid z Hvz Hfz) as [Hlt Hfix].
    split; [intros _; split; [exact Hfz|symmetry; apply units_fixed; assumption]|].
    rewrite Hfix. lia. }
  destruct x as [sx|sx| |sx mx ex], y as [sy|sy| |sy my ey]; try discriminate.
  - (* two zeros *)
    subst r N. cbn [units]. change (round53 (Z.abs (0 + 0))) with 0.
    change (round53s (0 + 0)) with 0.
    split; [|pose proof overflow_units_pos; lia].
    intros _. destruct sx, sy; auto.
  - apply (Hone (S754_finite sy my ey)); auto.
  - apply (Hone (S754_finite sx mx ex)); auto. subst N. cbn [units]. lia.
  - cbn [valid_binary] in Hvx, Hvy.
    destruct (valid_finite mx ex Hvx) as (Hex & _). destruct (valid_finite my ey Hvy) as (Hey & _).
    pose proof (binary_normalize_spec
      (cond_Zopp sx (Zpos (fst (shl_align mx ex (Z.min ex ey))))
       + cond_Zopp sy (Zpos (fst (shl_align my ey (Z.min ex ey))))) (Z.min ex ey) ltac:(lia))
      as Hn.
    cbv zeta in Hn. rewrite Z.mul_add_distr_r, !aligned_units in Hn by lia. exact Hn.
Qed.

Lemma SFsub_spec (x y : spec_float) :
  valid_binary x = true -> valid_binary y = true ->
  is_finite x = true -> is_finite y = true ->
  let N := units x - units y in
  let r := SFsub prec emax x y in
  (round53 (Z.abs N) < overflow_units -> is_finite r = true /\ units r = round53s N)
  /\ (overflow_units <= round53 (Z.abs N) -> r = S754_infinity (N <? 0)).
Proof.
  intros Hvx Hvy Hfx Hfy N r.
  assert (Hone : forall z : spec_float,
            valid_binary z = true -> is_finite z = true -> N = units z -> r = z ->
            (round53 (Z.abs N) < overflow_units -> is_finite r = true /\ units r = round53s N)
            /\ (overflow_units <= round53 (Z.abs N) -> r = S754_infinity (N <? 0))).
  { intros z Hvz Hfz HN Hr. rewrite Hr, HN.
    destruct (units_valid z Hvz Hfz) as [Hlt Hfix].
    split; [intros _; split; [exact Hfz|symmetry; apply units_fixed; assumption]|].
    rewrite Hfix. lia. }
  destruct x as [sx|sx| |sx mx ex], y as [sy|sy| |sy my ey]; try discriminate.
  - (* two zeros *)
    subst r N. cbn [units]. change (round53 (Z.abs (0 - 0))) with 0.
    change (round53s (0 - 0)) with 0.
    split; [|pose proof overflow_units_pos; lia].
    intros _. destruct sx, sy; auto.
  - apply (Hone (S754_finite (negb sy) my ey)); auto.
    subst N. cbn [units]. destruct sy; cbn [negb cond_Zopp]; lia.
  - apply (Hone (S754_finite sx mx ex)); auto. subst N. cbn [units]. lia.
  - cbn [valid_binary] in Hvx, Hvy.
    destruct (valid_finite mx ex Hvx) as (Hex & _). destruct (valid_finite my ey Hvy) as (Hey & _).
    pose proof (binary_normalize_spec
      (cond_Zopp sx (Zpos (fst (shl_align mx ex (Z.min ex ey))))
       - cond_Zopp sy (Zpos (fst (shl_align my ey (Z.min ex ey))))) (Z.min ex ey) ltac:(lia))
      as Hn.
    cbv zeta in Hn. rewrite Z.mul_sub_distr_r, !aligned_units in Hn by lia. exact Hn.
Qed.

(** Comparison of finite binary64s is comparison of their units. *)
Lemma compare_canonical (m1 m2 : positive) (e1 e2 : Z) :
  bounded prec emax m1 e1 = true -> bounded prec emax m2 e2 = true ->
  match e1 ?= e2 with
  | Lt => Lt
  | Gt => Gt
  | Eq => Pos.compare_cont Eq m1 m2
  end = (Zpos m1 * 2 ^ (e1 + 1074) ?= Zpos m2 * 2 ^ (e2 + 1074)).
Proof.
  intros H1 H2.
  destruct (valid_finite m1 e1 H1) as (He1 & Hm1 & Hn1).
  destruct (valid_finite m2 e2 H2) as (He2 & Hm2 & Hn2).
  assert (Hlt : forall (ma mb ea eb : Z),
            0 < ma < 2 ^ 53 -> 2 ^ 52 <= mb -> - 1074 <= ea < eb ->
            ma * 2 ^ (ea + 1074) < mb * 2 ^ (eb + 1074)).
  { intros ma mb ea eb Hma Hmb Hab.
    pose proof (pow2_pos (ea + 1074) ltac:(lia)) as Hpa.
    apply Z.lt_le_trans with (2 ^ 53 * 2 ^ (ea + 1074)).
    - apply Z.mul_lt_mono_pos_r; lia.
    - apply Z.le_trans with (2 ^ 52 * 2 ^ (eb + 1074)).
      + rewrite <- !pow2_split by lia. apply pow2_le. lia.
      + apply Z.mul_le_mono_nonneg_r; [apply Z.lt_le_incl, pow2_pos|]; lia. }
  destruct (Z.compare_spec e1 e2) as [Heq|Hlt12|Hgt12].
  - subst e2. change (Pos.compare_cont Eq m1 m2) with (Zpos m1 ?= Zpos m2).
    apply Zmult_compare_compat_r. apply Z.lt_gt, pow2_pos. lia.
  - symmetry. apply Z.compare_lt_iff. apply Hlt; lia.
  - symmetry. apply Z.compare_gt_iff. apply Hlt; lia.
Qed.

Lemma SFcompare_units (x y : spec_float) :
  valid_binary x = true -> valid_binary y = true ->
  is_finite x = true -> is_finite y = true ->
  SFcompare x y = Some (units x ?= units y).
Proof.
  intros Hvx Hvy Hfx Hfy.
  assert (Hpos : forall (m : positive) (e : Z),
            bounded prec emax m e = true -> 0 < Zpos m * 2 ^ (e + 1074)).
  { intros m e Hb. destruct (valid_finite m e Hb) as (He & _).
    pose proof (pow2_pos (e + 1074) ltac:(lia)). lia. }
  destruct x as [sx|sx| |sx mx ex], y as [sy|sy| |sy my ey]; try discriminate;
    cbn [valid_binary] in Hvx, Hvy; cbn [SFcompare units].
  - reflexivity.
  - pose proof (Hpos my ey Hvy). f_equal. destruct sy; cbn [cond_Zopp]; symmetry;
      [apply Z.compare_gt_iff|apply Z.compare_lt_iff]; lia.
  - pose proof (Hpos mx ex Hvx). f_equal. destruct sx; cbn [cond_Zopp]; symmetry;
      [apply Z.compare_lt_iff|apply Z.compare_gt_iff]; lia.
  - pose proof (Hpos mx ex Hvx). pose proof (Hpos my ey Hvy). f_equal.
    pose proof (compare_canonical mx my ex ey Hvx Hvy) as Hc.
    destruct sx, sy; cbn [cond_Zopp].
    + rewrite Z.compare_opp, (Z.compare_antisym (Zpos mx * _)), <- Hc.
      destruct (ex ?= ey); reflexivity.
    + symmetry. apply Z.compare_lt_iff. lia.
    + symmetry. apply Z.compare_gt_iff. lia.
    + exact Hc.
Qed.

End SpecArith.

(** *** binary64 arithmetic on units *)

Section Units64.
Local Open Scope Z_scope.

Lemma leb_units (x y : float) :
  finite64 x = true -> finite64 y = true -> (x <=? y)%float = (units64 x <=? units64 y).
Proof.
  intros Hx Hy. rewrite leb_spec. unfold SFleb.
  rewrite (SFcompare_units _ _ (Prim2SF_valid x) (Prim2SF_valid y) Hx Hy).
  unfold units64, Z.leb. destruct (_ ?= _); reflexivity.
Qed.

Lemma add_units (x y : float) :
  finite64 x = true -> finite64 y = true ->
  let N := units64 x + units64 y in
  (round53 (Z.abs N) < overflow_units ->
   finite64 (x + y) = true /\ units64 (x + y) = round53s N)
  /\ (overflow_units <= round53 (Z.abs N) -> Prim2SF (x + y) = S754_infinity (N <? 0)).
Proof.
  intros Hx Hy. unfold finite64, units64. rewrite add_spec.
  exact (SFadd_spec _ _ (Prim2SF_valid x) (Prim2SF_valid y) Hx Hy).
Qed.

Lemma sub_units (x y : float) :
  finite64 x = true -> finite64 y = true ->
  let N := units64 x - units64 y in
  (round53 (Z.abs N) < overflow_units ->
   finite64 (x - y) = true /\ units64 (x - y) = round53s N)
  /\ (overflow_units <= round53 (Z.abs N) -> Prim2SF (x - y) = S754_infinity (N <? 0)).
Proof.
  intros Hx Hy. unfold finite64, units64. rewrite sub_spec.
  exact (SFsub_spec _ _ (Prim2SF_valid x) (Prim2SF_valid y) Hx Hy).
Qed.

Lemma units64_fixed (x : float) :
  finite64 x = true ->
  Z.abs (units64 x) < overflow_units /\ round53 (Z.abs (units64 x)) = Z.abs (units64 x).
Proof. intros Hx. exact (units_valid _ (Prim2SF_valid x) Hx). Qed.

(** Integers. *)
Lemma units_SFofZ (z : Z) : Z.abs z < 2 ^ 53 -> units (SFofZ z) = z * 2 ^ 1074.
Proof.
  intros Hz.
  assert (Hp : forall p : positive, Zpos p < 2 ^ 53 ->
            Zpos (norm53 p) * 2 ^ (Zpos (digits2_pos p) - prec + 1074) = Zpos p * 2 ^ 1074).
  { intros p Hp. pose proof (digits2_le_prec p Hp) as Hd. rewrite norm53_Z by assumption.
    unfold prec. rewrite <- Z.mul_assoc, <- pow2_split by lia. do 2 f_equal. lia. }
  destruct z as [|p|p]; cbn [SFofZ units cond_Zopp].
  - reflexivity.
  - apply Hp. lia.
  - rewrite Hp by lia. lia.
Qed.

Lemma of_int_units (z : Z) :
  Z.abs z < 2 ^ 53 ->
  finite64 (float64_of_int z) = true /\ units64 (float64_of_int z) = z * 2 ^ 1074.
Proof.
  intros Hz. unfold finite64, units64. rewrite of_int_spec by assumption.
  split; [destruct z; reflexivity|apply units_SFofZ, Hz].
Qed.

(** A value that is at least 0 is a finite one or the positive infinity. *)
Lemma nonneg_cases (x : float) :
  (0 <=? x)%float = true ->
  (finite64 x = true /\ 0 <= units64 x) \/ Prim2SF x = S754_infinity false.
Proof.
  intros H0. destruct (finite64 x) eqn:Hf.
  - left. split; [reflexivity|]. rewrite leb_units in H0 by (reflexivity || assumption).
    apply Z.leb_le in H0. exact H0.
  - right. rewrite leb_spec in H0. unfold finite64 in Hf. change (Prim2SF 0) with (S754_zero false) in H0.
    destruct (Prim2SF x) as [s|s| |s m e]; try discriminate. destruct s; [discriminate|reflexivity].
Qed.

(** Doubling is exact. *)
Lemma double_units (x : float) :
  finite64 x = true -> 0 <= units64 x ->
  (2 * units64 x < overflow_units ->
   finite64 (x * 2) = true /\ units64 (x * 2) = 2 * units64 x)
  /\ (overflow_units <= 2 * units64 x -> Prim2SF (x * 2) = S754_infinity false).
Proof.
  unfold finite64, units64. rewrite mul_spec.
  change (Prim2SF 2) with (S754_finite false 4503599627370496 (-51)).
  pose proof (Prim2SF_valid x) as Hv.
  destruct (Prim2SF x) as [s|s| |s m e]; try discriminate; intros _ H0.
  - cbn [units]. split; [auto|]. pose proof overflow_units_pos. lia.
  - cbn [valid_binary] in Hv. destruct (valid_finite m e Hv) as (He & Hm & Hn).
    pose proof (pow2_pos (e + 1074) ltac:(lia)) as Hp.
    assert (Hs : s = false) by (destruct s; [cbn [units cond_Zopp] in H0; lia|reflexivity]).
    subst s. cbn [units cond_Zopp] in *. unfold SF64mul, SFmul. cbn [xorb].
    pose proof (binary_round_aux_rne false (m * 4503599627370496) (e + -51)) as Hr.
    cbv zeta in Hr.
    assert (Hdig : Zpos (digits2_pos (m * 4503599627370496)) = Zpos (digits2_pos m) + 52).
    { replace (m * 4503599627370496)%positive with (Pos.iter xO m 52)
        by (apply Pos2Z.inj; rewrite iter_xO_Z, Pos2Z.inj_mul; reflexivity).
      apply digits2_iter_xO. }
    pose proof (digits2_bounds m) as [Hlo Hhi]. set (d := Zpos (digits2_pos m)) in *.
    assert (Hcan : Z.max (d + e - 53) (- 1074) = e).
    { unfold bounded, canonical_mantissa, fexp, SpecFloat.emin, prec, emax in Hv.
      apply andb_prop in Hv as [Hc _]. apply Z.eqb_eq in Hc. exact Hc. }
    rewrite Hdig in Hr.
    set (n := fexp prec emax (d + 52 + (e + -51)) - (e + -51)) in *.
    assert (Hn' : 51 <= n <= 52)
      by (subst n; unfold fexp, SpecFloat.emin, prec, emax; lia).
    specialize (Hr ltac:(lia)).
    assert (Hrne : rne (Zpos (m * 4503599627370496)) n = Zpos m * 2 ^ (52 - n)).
    { rewrite Pos2Z.inj_mul. change (Zpos 4503599627370496) with (2 ^ 52).
      replace (Zpos m * 2 ^ 52) with (Zpos m * 2 ^ (52 - n) * 2 ^ n)
        by (rewrite <- Z.mul_assoc, <- pow2_split by lia; do 2 f_equal; lia).
      apply rne_exact. lia. }
    rewrite Hrne in Hr.
    replace (Zpos m * 2 ^ (52 - n) * 2 ^ (e + -51 + n + 1074)) with (2 * (Zpos m * 2 ^ (e + 1074))) in Hr.
    + exact Hr.
    + rewrite <- Z.mul_assoc, <- pow2_split by lia.
      replace (52 - n + (e + -51 + n + 1074)) with (Z.succ (e + 1074)) by lia.
      rewrite Z.pow_succ_r by lia. ring.
Qed.

(** What is kept by rounding is on the grid of its binade. *)
Lemma round53_fixed_grid (y j : Z) :
  0 <= j -> round53 y = y -> 2 ^ (52 + j) <= y -> exists k, y = k * 2 ^ j.
Proof.
  intros Hj Hfix Hy. pose proof (pow2_pos (52 + j) ltac:(lia)).
  assert (HL : 52 + j <= Z.log2 y) by (apply Z.log2_le_pow2; lia).
  unfold round53 in Hfix. set (n := Z.max (Z.log2 y + 1 - 53) 0) in *.
  exists (rne y n * 2 ^ (n - j)). rewrite <- Z.mul_assoc, <- pow2_split by lia.
  replace (n - j + j) with n by lia. symmetry. exact Hfix.
Qed.

End Units64.

(** *** The two guards of Player.Update, on units *)

Section Guards.
Local Open Scope Z_scope.

Lemma round53_le_grid (N k j : Z) :
  0 <= j -> 0 <= k < 2 ^ 53 -> 0 <= N <= k * 2 ^ j -> round53 N <= k * 2 ^ j.
Proof.
  intros Hj Hk HN. rewrite <- (round53_grid k j Hj Hk). apply round53_mono. lia.
Qed.

Lemma round53_ge_grid (N k j : Z) :
  0 <= j -> 0 <= k < 2 ^ 53 -> k * 2 ^ j <= N -> k * 2 ^ j <= round53 N.
Proof.
  intros Hj Hk HN. pose proof (pow2_pos j Hj).
  rewrite <- (round53_grid k j Hj Hk) at 1. apply round53_mono. nia.
Qed.

(** 240 - 2^-46 is rounded to 240: a tie, and 240 is the even neighbour. *)
Lemma tie_below_240 : round53 (240 * 2 ^ 1074 - 2 ^ 1028) = 240 * 2 ^ 1074.
Proof. vm_compute. reflexivity. Qed.

(** The guard of Down.  [y], [s] and [H] are the units of Y and Speed and
    the height; [a] is Y + Height() as computed and [c] that plus
    Speed * 2. *)
Lemma down_guard (y s H : Z) :
  0 <= H <= 112 -> 0 <= y <= (240 - H) * 2 ^ 1074 -> round53 y = y -> 0 <= s ->
  round53 (round53 (y + H * 2 ^ 1074) + 2 * s) <= 240 * 2 ^ 1074 ->
  round53 (y + s) <= (240 - H) * 2 ^ 1074.
Proof.
  intros HH Hy Hfix Hs Hguard.
  destruct (Z_le_gt_dec (y + s) ((240 - H) * 2 ^ 1074)) as [Hle|Hgt].
  { apply round53_le_grid; lia. }
  set (a := round53 (y + H * 2 ^ 1074)) in *.
  assert (Ha0 : 0 <= a) by (apply round53_nonneg; lia).
  (* Y + Height() is off by half a spacing at most *)
  pose proof (round53_error (y + H * 2 ^ 1074) 1029 ltac:(lia) ltac:(lia)) as Herr.
  fold a in Herr.
  (* the guard bounds Speed *)
  assert (Hsum : a + 2 * s < 240 * 2 ^ 1074 + 2 ^ 1029).
  { destruct (Z_lt_le_dec (a + 2 * s) (240 * 2 ^ 1074 + 2 ^ 1029)) as [|Hge]; [assumption|].
    pose proof (round53_ge_grid (a + 2 * s) (240 * 2 ^ 45 + 1) 1029 ltac:(lia) ltac:(lia)
                  ltac:(lia)). lia. }
  destruct (Z_le_gt_dec (128 * 2 ^ 1074) y) as [Hbig|Hsmall].
  - (* Y is in the binade of the bound *)
    destruct (round53_fixed_grid y 1029 ltac:(lia) Hfix ltac:(lia)) as [k Hk].
    assert (Hexact : a = y + H * 2 ^ 1074).
    { subst a. replace (y + H * 2 ^ 1074) with ((k + H * 2 ^ 45) * 2 ^ 1029) by lia.
      apply round53_grid; lia. }
    assert (Hy' : y = (240 - H) * 2 ^ 1074) by lia.
    replace (y + s) with ((240 - H) * 2 ^ 45 * 2 ^ 1029 + s) by lia.
    rewrite round53_down by lia. lia.
  - (* Y is just below 128 *)
    destruct (round53_fixed_grid y 1028 ltac:(lia) Hfix ltac:(lia)) as [k Hk].
    assert (HH' : H = 112) by lia.
    assert (Hcases : y = 128 * 2 ^ 1074 - 2 * 2 ^ 1028 \/ y = 128 * 2 ^ 1074 - 2 ^ 1028) by lia.
    exfalso. destruct Hcases as [Hy'|Hy'].
    + assert (Hexact : a = 240 * 2 ^ 1074 - 2 ^ 1029).
      { subst a. replace (y + H * 2 ^ 1074) with ((240 * 2 ^ 45 - 1) * 2 ^ 1029) by lia.
        rewrite round53_grid by lia. lia. }
      lia.
    + assert (Hexact : a = 240 * 2 ^ 1074).
      { subst a. replace (y + H * 2 ^ 1074) with (240 * 2 ^ 1074 - 2 ^ 1028) by lia.
        apply tie_below_240. }
      lia.
Qed.

(** With a height of at most 112, the bound as the program computes it is
    the exact one. *)
Lemma on_screen_exact (y H : Z) :
  0 <= H <= 112 -> 0 <= y -> round53 y = y ->
  round53 (y + H * 2 ^ 1074) <= 240 * 2 ^ 1074 ->
  y <= (240 - H) * 2 ^ 1074.
Proof.
  intros HH Hy Hfix Hb.
  destruct (Z_le_gt_dec y ((240 - H) * 2 ^ 1074)) as [|Hgt]; [assumption|exfalso].
  destruct (round53_fixed_grid y 1029 ltac:(lia) Hfix ltac:(lia)) as [k Hk].
  pose proof (round53_ge_grid (y + H * 2 ^ 1074) (240 * 2 ^ 45 + 1) 1029 ltac:(lia) ltac:(lia)
                ltac:(lia)). lia.
Qed.

(** The guard of Up: what is computed as at least 0 is at least 0. *)
Lemma round53s_sign (N : Z) : 0 <= round53s N -> 0 <= N.
Proof.
  intros H. destruct (Z_lt_le_dec N 0) as [Hneg|]; [exfalso|assumption].
  rewrite round53s_neg in H by assumption.
  pose proof (round53_range (- N) ltac:(lia)) as [Hlo _].
  pose proof (pow2_pos (Z.log2 (- N)) (Z.log2_nonneg _)). lia.
Qed.

End Guards.

(** *** Exact values and units *)

Section ExactValue.
Local Open Scope Z_scope.

Lemma Qpower_units (e : Z) :
  - 1074 <= e -> (2 ^ e * inject_Z (2 ^ 1074) == inject_Z (2 ^ (e + 1074)))%Q.
Proof.
  intros He.
  rewrite (Zpower_Qpower 2 (e + 1074)) by lia.
  rewrite (Zpower_Qpower 2 1074) by lia.
  change (inject_Z 2) with 2%Q.
  rewrite Qpower_plus by discriminate. reflexivity.
Qed.

Lemma exact_units (x : float) :
  finite64 x = true -> (exact_value x * inject_Z (2 ^ 1074) == inject_Z (units64 x))%Q.
Proof.
  unfold finite64, units64, exact_value. pose proof (Prim2SF_valid x) as Hv.
  destruct (Prim2SF x) as [s|s| |s m e]; try discriminate; intros _.
  - cbn [units]. apply Qmult_0_l.
  - cbn [valid_binary] in Hv. destruct (valid_finite m e Hv) as (He & _).
    cbn [units]. rewrite <- Qmult_assoc, Qpower_units by lia.
    destruct s; cbn [cond_Zopp].
    + rewrite <- Z.mul_opp_l, !inject_Z_mult, inject_Z_opp. ring.
    + rewrite !inject_Z_mult. ring.
Qed.

Lemma exact_le (x : float) (H B : Z) :
  finite64 x = true ->
  Qle_bool (exact_value x + inject_Z H) (inject_Z B) = true
  <-> units64 x + H * 2 ^ 1074 <= B * 2 ^ 1074.
Proof.
  intros Hx. pose proof (pow2_pos 1074 ltac:(lia)) as HE.
  rewrite Qle_bool_iff.
  rewrite <- (Qmult_le_r _ _ (inject_Z (2 ^ 1074)))
    by (change 0%Q with (inject_Z 0); rewrite <- Zlt_Qlt; exact HE).
  rewrite Qmult_plus_distr_l, (exact_units x Hx), <- !inject_Z_mult, <- inject_Z_plus.
  rewrite <- Zle_Qle. reflexivity.
Qed.

End ExactValue.

(** *** The moves of the paddle, on arbitrary binary64 values *)

Section PaddleMoves.
Local Open Scope Z_scope.

Lemma overflow_far : 241 * 2 ^ 1074 < overflow_units.
Proof. unfold overflow_units. lia. Qed.

Lemma finite_infinity (x : float) (b : bool) :
  Prim2SF x = S754_infinity b -> finite64 x = false.
Proof. unfold finite64. intros ->. reflexivity. Qed.

Lemma add_infinity (x y : float) (b : bool) :
  finite64 x = true -> Prim2SF y = S754_infinity b -> Prim2SF (x + y) = S754_infinity b.
Proof.
  unfold finite64. rewrite add_spec. intros Hx ->.
  destruct (Prim2SF x) as [s|s| |s m e]; try discriminate; reflexivity.
Qed.

Lemma infinity_add (x y : float) (b : bool) :
  Prim2SF x = S754_infinity b -> finite64 y = true -> Prim2SF (x + y) = S754_infinity b.
Proof.
  unfold finite64. rewrite add_spec. intros -> Hy.
  destruct (Prim2SF y) as [s|s| |s m e]; try discriminate; reflexivity.
Qed.

Lemma sub_infinity (x y : float) (b : bool) :
  finite64 x = true -> Prim2SF y = S754_infinity b ->
  Prim2SF (x - y) = S754_infinity (negb b).
Proof.
  unfold finite64. rewrite sub_spec. intros Hx ->.
  destruct (Prim2SF x) as [s|s| |s m e]; try discriminate; reflexivity.
Qed.

Lemma double_infinity (x : float) :
  Prim2SF x = S754_infinity false -> Prim2SF (x * 2) = S754_infinity false.
Proof. rewrite mul_spec. intros ->. reflexivity. Qed.

Lemma leb_infinity_l (x y : float) :
  Prim2SF x = S754_infinity false -> finite64 y = true -> (x <=? y)%float = false.
Proof.
  unfold finite64. rewrite leb_spec. intros ->.
  destruct (Prim2SF y) as [s|s| |s m e]; try discriminate; reflexivity.
Qed.

Lemma leb_infinity_r (x y : float) :
  finite64 x = true -> Prim2SF y = S754_infinity true -> (x <=? y)%float = false.
Proof.
  unfold finite64. rewrite leb_spec. intros Hx ->.
  destruct (Prim2SF x) as [s|s| |s m e]; try discriminate; reflexivity.
Qed.

Lemma zero_units : finite64 0 = true /\ units64 0 = 0.
Proof. split; reflexivity. Qed.

Lemma screenHeight_units :
  finite64 (float64_of_int screenHeight) = true
  /\ units64 (float64_of_int screenHeight) = 240 * 2 ^ 1074.
Proof. apply (of_int_units 240). lia. Qed.

(** The doubled speed: a number, or the guard that uses it fails. *)
Lemma speed_cases (s : float) :
  (0 <=? s)%float = true ->
  (finite64 s = true /\ 0 <= units64 s
   /\ finite64 (s * 2) = true /\ units64 (s * 2) = 2 * units64 s)
  \/ Prim2SF (s * 2) = S754_infinity false.
Proof.
  intros H0. destruct (nonneg_cases s H0) as [[Hf Hs]|Hinf].
  - destruct (double_units s Hf Hs) as [Hsmall Hbig].
    destruct (Z_lt_le_dec (2 * units64 s) overflow_units) as [Hlt|Hge].
    + left. destruct (Hsmall Hlt). auto.
    + right. auto.
  - right. apply double_infinity, Hinf.
Qed.

(** Y + Height() of a paddle on the screen. *)
Lemma bottom_units (y : float) (H : Z) :
  0 <= H <= screenHeight -> within_screen y H ->
  finite64 (y + float64_of_int H) = true
  /\ units64 (y + float64_of_int H) = round53 (units64 y + H * 2 ^ 1074)
  /\ round53 (units64 y + H * 2 ^ 1074) <= 240 * 2 ^ 1074.
Proof.
  unfold within_screen, screenHeight. intros HH [Hf Hy].
  destruct (of_int_units H ltac:(lia)) as [HfH HuH].
  destruct (add_units y (float64_of_int H) Hf HfH) as [Hadd _]. cbv zeta in Hadd.
  rewrite HuH in Hadd. pose proof (pow2_pos 1074 ltac:(lia)).
  assert (Hle : round53 (units64 y + H * 2 ^ 1074) <= 240 * 2 ^ 1074)
    by (apply round53_le_grid; lia).
  pose proof overflow_far.
  rewrite Z.abs_eq, round53s_nonneg in Hadd by nia.
  destruct Hadd as [Hf' Hu']; [lia|]. auto.
Qed.

(** The bounds as the program computes them hold of a paddle that is on
    the screen. *)
Lemma within_screen_computed (y : float) (H : Z) :
  0 <= H <= screenHeight -> within_screen y H ->
  (0 <=? y)%float = true
  /\ (y + float64_of_int H <=? float64_of_int screenHeight)%float = true
  /\ (y <=? float64_of_int (screenHeight - H))%float = true
  /\ Qle_bool (exact_value y + inject_Z H) (inject_Z screenHeight) = true.
Proof.
  intros HH Hw. destruct (bottom_units y H HH Hw) as (Hf' & Hu' & Hle).
  destruct Hw as [Hf Hy]. unfold screenHeight in *.
  destruct screenHeight_units as [Hf240 Hu240]. unfold screenHeight in *.
  destruct (of_int_units (240 - H) ltac:(lia)) as [HfB HuB].
  repeat split.
  - rewrite leb_units by (reflexivity || assumption). apply Z.leb_le. apply Hy.
  - rewrite leb_units by assumption. apply Z.leb_le. rewrite Hu', Hu240. exact Hle.
  - rewrite leb_units by assumption. apply Z.leb_le. rewrite HuB. apply Hy.
  - apply exact_le; [assumption|]. lia.
Qed.

(** With a height of at most 112, a paddle for which the bounds hold, as
    the program computes them or exactly, is on the screen. *)
Lemma within_screen_intro (y : float) (H : Z) :
  0 <= H <= 112 ->
  (0 <=? y)%float = true ->
  (y + float64_of_int H <=? float64_of_int screenHeight)%float = true
  \/ (finite64 y = true
      /\ Qle_bool (exact_value y + inject_Z H) (inject_Z screenHeight) = true) ->
  within_screen y H.
Proof.
  unfold within_screen, screenHeight. intros HH H0 Hb.
  destruct screenHeight_units as [Hf240 Hu240]. unfold screenHeight in *.
  destruct (of_int_units H ltac:(lia)) as [HfH HuH].
  pose proof (pow2_pos 1074 ltac:(lia)) as HE.
  destruct Hb as [Hb|[Hf Hb]].
  - destruct (nonneg_cases y H0) as [[Hf Hy]|Hinf].
    + split; [assumption|]. split; [assumption|].
      destruct (add_units y (float64_of_int H) Hf HfH) as [Hadd Hover]. cbv zeta in Hadd, Hover.
      rewrite HuH in Hadd, Hover. rewrite Z.abs_eq in Hadd, Hover by nia.
      destruct (Z_lt_le_dec (round53 (units64 y + H * 2 ^ 1074)) overflow_units) as [Hlt|Hge].
      * destruct (Hadd Hlt) as [Hf' Hu']. rewrite round53s_nonneg in Hu' by nia.
        rewrite leb_units in Hb by assumption. apply Z.leb_le in Hb.
        rewrite Hu', Hu240 in Hb.
        destruct (units64_fixed y Hf) as [_ Hfix]. rewrite Z.abs_eq in Hfix by assumption.
        apply on_screen_exact; assumption.
      * specialize (Hover Hge).
        replace (_ <? 0) with false in Hover by (symmetry; apply Z.ltb_ge; nia).
        rewrite (leb_infinity_l _ _ Hover Hf240) in Hb. discriminate.
    + rewrite (leb_infinity_l _ _ (infinity_add _ _ false Hinf HfH) Hf240) in Hb.
      discriminate.
  - split; [assumption|]. rewrite leb_units in H0 by (reflexivity || assumption).
    apply Z.leb_le in H0. change (units64 0) with 0 in H0.
    apply exact_le in Hb; [|assumption]. lia.
Qed.

(** The move up. *)
Lemma up_within_screen (y s : float) (H : Z) :
  0 <= H <= screenHeight -> within_screen y H ->
  (0 <=? s)%float = true ->
  (0 <=? y - s * 2)%float = true ->
  within_screen (y - s) H.
Proof.
  unfold within_screen, screenHeight. intros HH [Hf Hy] Hs0 Hguard.
  pose proof (pow2_pos 1074 ltac:(lia)) as HE. pose proof overflow_far as Hfar.
  destruct (units64_fixed y Hf) as [_ Hfix]. rewrite Z.abs_eq in Hfix by lia.
  destruct (speed_cases s Hs0) as [(Hfs & Hs & Hf2 & Hu2)|Hinf].
  - destruct (sub_units y (s * 2) Hf Hf2) as [Hsub Hover]. cbv zeta in Hsub, Hover.
    rewrite Hu2 in Hsub, Hover.
    assert (Hle : 2 * units64 s <= units64 y).
    { destruct (Z_lt_le_dec (units64 y - 2 * units64 s) 0) as [Hneg|]; [exfalso|lia].
      destruct (Z_lt_le_dec (round53 (Z.abs (units64 y - 2 * units64 s))) overflow_units)
        as [Hlt|Hge].
      - destruct (Hsub Hlt) as [Hf' Hu'].
        rewrite leb_units in Hguard by (reflexivity || assumption).
        apply Z.leb_le in Hguard. change (units64 0) with 0 in Hguard.
        rewrite Hu' in Hguard. apply round53s_sign in Hguard. lia.
      - specialize (Hover Hge). apply Z.ltb_lt in Hneg. rewrite Hneg in Hover.
        rewrite (leb_infinity_r 0 _ eq_refl Hover) in Hguard. discriminate. }
    destruct (sub_units y s Hf Hfs) as [Hmove _]. cbv zeta in Hmove.
    rewrite Z.abs_eq, round53s_nonneg in Hmove by lia.
    assert (Hmono : round53 (units64 y - units64 s) <= units64 y)
      by (rewrite <- Hfix at 2; apply round53_mono; lia).
    pose proof (round53_nonneg (units64 y - units64 s) ltac:(lia)).
    destruct Hmove as [Hf' Hu']; [lia|]. rewrite Hu'. split; [assumption|lia].
  - rewrite (leb_infinity_r 0 _ eq_refl (sub_infinity y _ false Hf Hinf)) in Hguard.
    discriminate.
Qed.

(** The move down. *)
Lemma down_within_screen (y s : float) (H : Z) :
  0 <= H <= 112 -> within_screen y H ->
  (0 <=? s)%float = true ->
  (y + float64_of_int H + s * 2 <=? float64_of_int screenHeight)%float = true ->
  within_screen (y + s) H.
Proof.
  intros HH Hw Hs0 Hguard.
  destruct (bottom_units y H ltac:(unfold screenHeight; lia) Hw) as (Hfa & Hua & Hale).
  destruct Hw as [Hf Hy]. unfold within_screen. unfold screenHeight in *.
  destruct screenHeight_units as [Hf240 Hu240]. unfold screenHeight in *.
  pose proof (pow2_pos 1074 ltac:(lia)) as HE. pose proof overflow_far as Hfar.
  destruct (units64_fixed y Hf) as [_ Hfix]. rewrite Z.abs_eq in Hfix by lia.
  pose proof (round53_nonneg (units64 y + H * 2 ^ 1074) ltac:(nia)) as Ha0.
  destruct (speed_cases s Hs0) as [(Hfs & Hs & Hf2 & Hu2)|Hinf].
  - destruct (add_units _ (s * 2) Hfa Hf2) as [Hadd Hover]. cbv zeta in Hadd, Hover.
    rewrite Hua, Hu2 in Hadd, Hover. rewrite Z.abs_eq in Hadd, Hover by lia.
    destruct (Z_lt_le_dec (round53 (round53 (units64 y + H * 2 ^ 1074) + 2 * units64 s))
                overflow_units) as [Hlt|Hge].
    + destruct (Hadd Hlt) as [Hf' Hu']. rewrite round53s_nonneg in Hu' by lia.
      rewrite leb_units in Hguard by assumption. apply Z.leb_le in Hguard.
      rewrite Hu', Hu240 in Hguard.
      pose proof (down_guard (units64 y) (units64 s) H HH Hy Hfix Hs Hguard) as Hdown.
      destruct (add_units y s Hf Hfs) as [Hmove _]. cbv zeta in Hmove.
      rewrite Z.abs_eq, round53s_nonneg in Hmove by lia.
      pose proof (round53_nonneg (units64 y + units64 s) ltac:(lia)).
      destruct Hmove as [Hf'' Hu'']; [lia|]. rewrite Hu''. split; [assumption|lia].
    + specialize (Hover Hge).
      replace (_ <? 0) with false in Hover by (symmetry; apply Z.ltb_ge; lia).
      rewrite (leb_infinity_l _ _ Hover Hf240) in Hguard. discriminate.
  - rewrite (leb_infinity_l _ _ (add_infinity _ _ false Hfa Hinf) Hf240) in Hguard.
    discriminate.
Qed.

End PaddleMoves.

(** *** The far edges of the screen, on arbitrary binary64 values *)

Section Edges.
Local Open Scope Z_scope.

Lemma exact_ge (x : float) (H B : Z) :
  finite64 x = true ->
  Qle_bool (inject_Z B) (exact_value x + inject_Z H) = true
  <-> B * 2 ^ 1074 <= units64 x + H * 2 ^ 1074.
Proof.
  intros Hx. pose proof (pow2_pos 1074 ltac:(lia)) as HE.
  rewrite Qle_bool_iff.
  rewrite <- (Qmult_le_r _ _ (inject_Z (2 ^ 1074)))
    by (change 0%Q with (inject_Z 0); rewrite <- Zlt_Qlt; exact HE).
  rewrite Qmult_plus_distr_l, (exact_units x Hx), <- !inject_Z_mult, <- inject_Z_plus.
  rewrite <- Zle_Qle. reflexivity.
Qed.

Lemma leb_finite_infinity (x y : float) :
  finite64 x = true -> Prim2SF y = S754_infinity false -> (x <=? y)%float = true.
Proof.
  unfold finite64. rewrite leb_spec. intros Hx ->.
  destruct (Prim2SF x) as [s|s| |s m e]; try discriminate; destruct s; reflexivity.
Qed.

(** A box that reaches the edge [B] exactly reaches it as the program
    computes it: rounding does not take the sum below [B]. *)
Lemma edge_reached (x : float) (w B : Z) :
  finite64 x = true -> 0 <= w < 2 ^ 53 -> 0 <= B < 2 ^ 53 ->
  B * 2 ^ 1074 <= units64 x + w * 2 ^ 1074 ->
  (float64_of_int B <=? x + float64_of_int w)%float = true.
Proof.
  intros Hx Hw HB Hle. pose proof (pow2_pos 1074 ltac:(lia)) as HE.
  destruct (of_int_units w ltac:(lia)) as [Hfw Huw].
  destruct (of_int_units B ltac:(lia)) as [HfB HuB].
  destruct (add_units x (float64_of_int w) Hx Hfw) as [Hadd Hover]. cbv zeta in Hadd, Hover.
  rewrite Huw in Hadd, Hover.
  assert (HN : 0 <= units64 x + w * 2 ^ 1074) by nia.
  rewrite Z.abs_eq in Hadd, Hover by assumption.
  destruct (Z_lt_le_dec (round53 (units64 x + w * 2 ^ 1074)) overflow_units) as [Hlt|Hge].
  - destruct (Hadd Hlt) as [Hf' Hu']. rewrite round53s_nonneg in Hu' by assumption.
    rewrite leb_units by assumption. apply Z.leb_le. rewrite HuB, Hu'.
    apply round53_ge_grid; lia.
  - specialize (Hover Hge).
    replace (_ <? 0) with false in Hover by (symmetry; apply Z.ltb_ge; assumption).
    apply leb_finite_infinity; assumption.
Qed.

End Edges.

(** ** The result monad and the heap *)

Lemma bind_Ret {A B : Type} (r : Result A) (k : A -> Result B) (b : B) :
  bind r k = Ret b -> exists a, r = Ret a /\ k a = Ret b.
Proof. destruct r as [a|msg]; simpl; [eauto|discriminate]. Qed.

Lemma bind_Panic {A B : Type} (r : Result A) (k : A -> Result B) (msg : string) :
  bind r k = Panic msg -> r = Panic msg \/ exists a, r = Ret a /\ k a = Panic msg.
Proof.
  destruct r as [a|m]; simpl; intros H; [right; exists a; auto|left; congruence].
Qed.

Lemma deref_Ret {A : Type} (m : gmap loc A) (p : loc) (v : A) :
  deref m p = Ret v <-> m !! p = Some v.
Proof. unfold deref. destruct (m !! p); split; congruence. Qed.

Lemma deref_Some {A : Type} (m : gmap loc A) (p : loc) (v : A) :
  m !! p = Some v -> deref m p = Ret v.
Proof. apply deref_Ret. Qed.

Lemma deref_Panic {A : Type} (m : gmap loc A) (p : loc) (msg : string) :
  deref m p = Panic msg -> msg = nil_dereference.
Proof. unfold deref. destruct (m !! p); congruence. Qed.

Lemma wrap64_small (z : Z) : (- 2 ^ 63 <= z < 2 ^ 63)%Z -> wrap64 z = z.
Proof. intros Hz. unfold wrap64. rewrite Z.mod_small by lia. lia. Qed.

Lemma and_then_Ret (a b : Result bool) (v : bool) :
  a &&& b = Ret v -> (a = Ret false /\ v = false) \/ (a = Ret true /\ b = Ret v).
Proof.
  unfold and_then. destruct a as [[]|]; cbn [bind]; intros H; [auto| |discriminate].
  injection H as <-. auto.
Qed.

Lemma or_else_Ret (a b : Result bool) (v : bool) :
  a ||| b = Ret v -> (a = Ret true /\ v = true) \/ (a = Ret false /\ b = Ret v).
Proof.
  unfold or_else. destruct a as [[]|]; cbn [bind]; intros H; [|auto|discriminate].
  injection H as <-. auto.
Qed.

(** ** Sprites *)

Lemma Bounds_Max_Ret (i : option Image) (img : Image) : Bounds_Max i = Ret img <-> i = Some img.
Proof. destruct i; simpl; split; congruence. Qed.

Lemma Bounds_Max_Panic (i : option Image) (msg : string) :
  Bounds_Max i = Panic msg -> msg = nil_dereference.
Proof. destruct i; simpl; congruence. Qed.

Lemma Ball_Width_Some (bl : Ball) (img : Image) :
  Ball_Sprite bl = Some img -> Width bl = Ret (float64_of_int (MaxX img)).
Proof. intros H. cbn [Width Ball_Collider]. unfold Ball_Width. rewrite H. reflexivity. Qed.

Lemma Ball_Height_Some (bl : Ball) (img : Image) :
  Ball_Sprite bl = Some img -> Height bl = Ret (float64_of_int (MaxY img)).
Proof. intros H. cbn [Height Ball_Collider]. unfold Ball_Height. rewrite H. reflexivity. Qed.

Lemma Player_Height_Some (pl : Player) (img : Image) :
  Player_Sprite pl = Some img -> Height pl = Ret (float64_of_int (MaxY img)).
Proof. intros H. cbn [Height Player_Collider]. unfold Player_Height. rewrite H. reflexivity. Qed.

Lemma Player_Width_Some (pl : Player) (img : Image) :
  Player_Sprite pl = Some img -> Width pl = Ret (float64_of_int (MaxX img)).
Proof. intros H. cbn [Width Player_Collider]. unfold Player_Width. rewrite H. reflexivity. Qed.

Lemma Ball_Width_Ret (bl : Ball) (w : float) :
  Width bl = Ret w -> exists img, Ball_Sprite bl = Some img /\ w = float64_of_int (MaxX img).
Proof.
  cbn [Width Ball_Collider]. unfold Ball_Width.
  destruct (Ball_Sprite bl) as [img|]; simpl; intros H; [|discriminate].
  injection H as <-. eauto.
Qed.

Lemma Ball_Height_Ret (bl : Ball) (g : float) :
  Height bl = Ret g -> exists img, Ball_Sprite bl = Some img /\ g = float64_of_int (MaxY img).
Proof.
  cbn [Height Ball_Collider]. unfold Ball_Height.
  destruct (Ball_Sprite bl) as [img|]; simpl; intros H; [|discriminate].
  injection H as <-. eauto.
Qed.

Lemma Player_Height_Ret (pl : Player) (g : float) :
  Height pl = Ret g -> exists img, Player_Sprite pl = Some img /\ g = float64_of_int (MaxY img).
Proof.
  cbn [Height Player_Collider]. unfold Player_Height.
  destruct (Player_Sprite pl) as [img|]; simpl; intros H; [|discriminate].
  injection H as <-. eauto.
Qed.

Lemma Ball_Width_Panic (bl : Ball) (msg : string) : Width bl = Panic msg -> msg = nil_dereference.
Proof.
  cbn [Width Ball_Collider]. unfold Ball_Width. destruct (Ball_Sprite bl); cbn; congruence.
Qed.

Lemma Ball_Height_Panic (bl : Ball) (msg : string) : Height bl = Panic msg -> msg = nil_dereference.
Proof.
  cbn [Height Ball_Collider]. unfold Ball_Height. destruct (Ball_Sprite bl); cbn; congruence.
Qed.

Lemma Player_Height_Panic (pl : Player) (msg : string) :
  Height pl = Panic msg -> msg = nil_dereference.
Proof.
  cbn [Height Player_Collider]. unfold Player_Height. destruct (Player_Sprite pl); cbn; congruence.
Qed.

(** A collider that has a size is not nil. *)
Lemma has_sprite_live (h : Heap) (c : Collider) : has_sprite h c -> live h c.
Proof.
  intros (cW & _ & HW & _). unfold live. destruct c as [p|q]; cbn in HW |- *.
  - destruct (deref (players h) p); [cbn; eauto|discriminate].
  - destruct (deref (balls h) q); [cbn; eauto|discriminate].
Qed.

Lemma Collider_Width_Panic (h : Heap) (c : Collider) (msg : string) :
  Collider_Width h c = Panic msg -> msg = nil_dereference.
Proof.
  destruct c as [p|q]; cbn [Collider_Width].
  - destruct (deref (players h) p) as [pl|m] eqn:E; cbn [bind].
    + cbn [Width Player_Collider]. unfold Player_Width.
      destruct (Player_Sprite pl); cbn; congruence.
    + intros [= <-]. eapply deref_Panic, E.
  - destruct (deref (balls h) q) as [bl|m] eqn:E; cbn [bind].
    + cbn [Width Ball_Collider]. unfold Ball_Width.
      destruct (Ball_Sprite bl); cbn; congruence.
    + intros [= <-]. eapply deref_Panic, E.
Qed.

Lemma Collider_Height_Panic (h : Heap) (c : Collider) (msg : string) :
  Collider_Height h c = Panic msg -> msg = nil_dereference.
Proof.
  destruct c as [p|q]; cbn [Collider_Height].
  - destruct (deref (players h) p) as [pl|m] eqn:E; cbn [bind].
    + cbn [Height Player_Collider]. unfold Player_Height.
      destruct (Player_Sprite pl); cbn; congruence.
    + intros [= <-]. eapply deref_Panic, E.
  - destruct (deref (balls h) q) as [bl|m] eqn:E; cbn [bind].
    + cbn [Height Ball_Collider]. unfold Ball_Height.
      destruct (Ball_Sprite bl); cbn; congruence.
    + intros [= <-]. eapply deref_Panic, E.
Qed.

Lemma Collider_Location_Panic (h : Heap) (c : Collider) (msg : string) :
  Collider_Location h c = Panic msg -> msg = nil_dereference.
Proof.
  destruct c as [p|q]; cbn [Collider_Location].
  - destruct (deref (players h) p) as [pl|m] eqn:E; cbn [bind]; [discriminate|].
    intros [= <-]. eapply deref_Panic, E.
  - destruct (deref (balls h) q) as [bl|m] eqn:E; cbn [bind]; [discriminate|].
    intros [= <-]. eapply deref_Panic, E.
Qed.

(** ** The collider scan *)

(** The two predicates when all four sizes can be read. *)
Lemma inPaddle_sized (h : Heap) (bl : Ball) (c : Collider) (cX cY bW bH cW cH : float) :
  Width bl = Ret bW -> Height bl = Ret bH ->
  Collider_Width h c = Ret cW -> Collider_Height h c = Ret cH ->
  inPaddle h bl c cX cY
  = Ret (((X (Ball_Point bl) + bW >=? cX)%float && (X (Ball_Point bl) <=? cX + cW)%float)
         && ((Y (Ball_Point bl) >=? cY)%float && (Y (Ball_Point bl) + bH <=? cY + cH)%float)).
Proof.
  intros HbW HbH HcW HcH. unfold inPaddle, and_then.
  rewrite HbW, HbH, HcW, HcH. cbn [bind].
  destruct (cX <=? _)%float; cbn [bind andb]; destruct (cY <=? _)%float; reflexivity.
Qed.

Lemma inPaddleNextTick_moved (h : Heap) (bl : Ball) (c : Collider) (cX cY : float) :
  inPaddleNextTick h bl c cX cY = inPaddle h (moved bl) c cX cY.
Proof. reflexivity. Qed.

(** A test that holds has read all four sizes. *)
Lemma inPaddle_true (h : Heap) (bl : Ball) (c : Collider) (cX cY : float) :
  inPaddle h bl c cX cY = Ret true ->
  exists bW bH cW cH,
    Width bl = Ret bW /\ Height bl = Ret bH
    /\ Collider_Width h c = Ret cW /\ Collider_Height h c = Ret cH.
Proof.
  unfold inPaddle. intros H.
  apply bind_Ret in H as (ix & Hx & H). apply bind_Ret in H as (iy & Hy & H).
  injection H as H. apply andb_prop in H as [-> ->].
  apply and_then_Ret in Hx as [[_ ?]|[Hx1 Hx2]]; [discriminate|].
  apply and_then_Ret in Hy as [[_ ?]|[_ Hy2]]; [discriminate|].
  apply bind_Ret in Hx1 as (bW & HbW & _). apply bind_Ret in Hx2 as (cW & HcW & _).
  apply bind_Ret in Hy2 as (bH & HbH & Hy2). apply bind_Ret in Hy2 as (cH & HcH & _).
  exists bW, bH, cW, cH. auto.
Qed.

Lemma inPaddle_Panic (h : Heap) (bl : Ball) (c : Collider) (cX cY : float) (msg : string) :
  inPaddle h bl c cX cY = Panic msg -> msg = nil_dereference.
Proof.
  unfold inPaddle, and_then. cbn [Width Height Ball_Collider]. unfold Ball_Width, Ball_Height.
  destruct (Ball_Sprite bl) as [img|]; cbn [Bounds_Max bind]; [|congruence].
  destruct (cX <=? _)%float.
  - destruct (Collider_Width h c) as [cW|m] eqn:HW; cbn [bind];
      [|intros [= <-]; eapply Collider_Width_Panic, HW].
    destruct (cY <=? _)%float; cbn [bind]; [|discriminate].
    destruct (Collider_Height h c) as [cH|m] eqn:HH; cbn [bind];
      [discriminate|intros [= <-]; eapply Collider_Height_Panic, HH].
  - cbn [bind]. destruct (cY <=? _)%float; cbn [bind]; [|discriminate].
    destruct (Collider_Height h c) as [cH|m] eqn:HH; cbn [bind];
      [discriminate|intros [= <-]; eapply Collider_Height_Panic, HH].
Qed.

Lemma hits_probed (h : Heap) (bl : Ball) (c : Collider) : hits h bl c -> probed h bl c.
Proof. intros (cX & cY & HL & Hi & Hn). exists cX, cY, false, true. auto. Qed.

(** The loop body runs through when neither the ball nor the collider
    lacks a sprite. *)
Lemma probed_intro (h : Heap) (bl : Ball) (c : Collider) :
  is_Some (Ball_Sprite bl) -> has_sprite h c -> probed h bl c.
Proof.
  intros [img Himg] Hs. destruct (has_sprite_live h c Hs) as [[cX cY] HL].
  destruct Hs as (cW & cH & HW & HH). exists cX, cY. do 2 eexists. split; [exact HL|].
  rewrite inPaddleNextTick_moved. split.
  - eapply inPaddle_sized; eauto using Ball_Width_Some, Ball_Height_Some.
  - eapply inPaddle_sized; eauto; [apply (Ball_Width_Some _ img)|apply (Ball_Height_Some _ img)];
      exact Himg.
Qed.

Lemma scan_cons_miss (h : Heap) (b : loc) (bl : Ball) (c : Collider) (rest : list Collider) :
  balls h !! b = Some bl -> is_self c b = false -> probed h bl c -> ~ hits h bl c ->
  scan h b (c :: rest) = scan h b rest.
Proof.
  intros Hb Hs (cX & cY & i & n & HL & Hi & Hn) Hmiss. cbn [scan]. rewrite Hs, HL. cbn [bind].
  rewrite (deref_Some _ _ _ Hb). cbn [bind]. rewrite Hi, Hn. cbn [bind].
  destruct i, n; cbn [negb andb]; try reflexivity.
  exfalso. apply Hmiss. exists cX, cY. auto.
Qed.

Lemma scan_cons_hit (h : Heap) (b : loc) (bl : Ball) (c : Collider) (rest : list Collider) :
  balls h !! b = Some bl -> is_self c b = false -> hits h bl c ->
  scan h b (c :: rest) = Ret (store_ball h b (set_XSpeed bl (XSpeed bl * -1)%float)).
Proof.
  intros Hb Hs (cX & cY & HL & Hi & Hn). cbn [scan]. rewrite Hs, HL. cbn [bind].
  rewrite (deref_Some _ _ _ Hb). cbn [bind]. rewrite Hi, Hn. reflexivity.
Qed.

(** A collider the scan got to and did not panic at was not the ball, and
    the loop body ran through for it. *)
Lemma scan_cons_Ret (h : Heap) (b : loc) (bl : Ball) (c : Collider) (rest : list Collider)
    (h' : Heap) :
  balls h !! b = Some bl ->
  scan h b (c :: rest) = Ret h' -> is_self c b = false /\ probed h bl c.
Proof.
  intros Hb. cbn [scan]. destruct (is_self c b); [discriminate|]. intros Hs.
  apply bind_Ret in Hs as ([cX cY] & HL & Hs).
  apply bind_Ret in Hs as (bl' & Hbl & Hs).
  rewrite (deref_Some _ _ _ Hb) in Hbl. injection Hbl as <-.
  apply bind_Ret in Hs as (i & Hi & Hs). apply bind_Ret in Hs as (n & Hn & _).
  split; [reflexivity|]. exists cX, cY, i, n. auto.
Qed.

(** A collider that is not nil and does not bounce the ball is passed, or
    the loop body panics for want of a sprite. *)
Lemma scan_cons_live (h : Heap) (b : loc) (bl : Ball) (c : Collider) (rest : list Collider) :
  balls h !! b = Some bl -> is_self c b = false -> live h c -> ~ hits h bl c ->
  scan h b (c :: rest) = scan h b rest \/ scan h b (c :: rest) = Panic nil_dereference.
Proof.
  intros Hb Hs [[cX cY] HL] Hmiss.
  destruct (inPaddle h bl c cX cY) as [i|m] eqn:Hi.
  - destruct (inPaddleNextTick h bl c cX cY) as [n|m] eqn:Hn.
    + left. apply (scan_cons_miss h b bl); try assumption. exists cX, cY, i, n. auto.
    + right. cbn [scan]. rewrite Hs, HL. cbn [bind]. rewrite (deref_Some _ _ _ Hb). cbn [bind].
      rewrite Hi, Hn. cbn [bind]. f_equal.
      rewrite inPaddleNextTick_moved in Hn. eapply inPaddle_Panic, Hn.
  - right. cbn [scan]. rewrite Hs, HL. cbn [bind]. rewrite (deref_Some _ _ _ Hb). cbn [bind].
    rewrite Hi. cbn [bind]. f_equal. eapply inPaddle_Panic, Hi.
Qed.

Lemma scan_cases (h : Heap) (b : loc) (bl : Ball) (cs : list Collider) (h' : Heap) :
  balls h !! b = Some bl ->
  scan h b cs = Ret h' ->
  (h' = h /\ Forall (fun c => ~ hits h bl c) cs)
  \/ (exists pre c post,
        cs = pre ++ c :: post
        /\ Forall (fun c' => ~ hits h bl c') pre
        /\ hits h bl c
        /\ h' = store_ball h b (set_XSpeed bl (XSpeed bl * -1)%float)).
Proof.
  intros Hb. induction cs as [|c rest IH]; intros Hs.
  - left. injection Hs as <-. split; [reflexivity|constructor].
  - destruct (scan_cons_Ret _ _ _ _ _ _ Hb Hs) as [Hself (cX & cY & i & n & HL & Hi & Hn)].
    destruct (negb i && n) eqn:Hbo.
    + right. exists [], c, rest.
      apply andb_prop in Hbo as [Hin ->]. apply negb_true_iff in Hin. subst i.
      assert (Hhit : hits h bl c) by (exists cX, cY; auto).
      rewrite (scan_cons_hit _ _ _ _ _ Hb Hself Hhit) in Hs. injection Hs as <-.
      repeat split; [constructor|exact Hhit].
    + assert (Hmiss : ~ hits h bl c).
      { intros (x & y & HL' & Hi' & Hn'). rewrite HL in HL'. injection HL' as <- <-.
        rewrite Hi in Hi'. rewrite Hn in Hn'. injection Hi' as ->. injection Hn' as ->.
        discriminate. }
      rewrite (scan_cons_miss h b bl) in Hs
        by (try assumption; exists cX, cY, i, n; auto).
      destruct (IH Hs) as [[-> Hall]|(pre & c' & post & -> & Hpre & Hrest)].
      * left. split; [reflexivity|]. constructor; assumption.
      * right. exists (c :: pre), c', post.
        split; [reflexivity|]. split; [constructor; assumption|exact Hrest].
Qed.

(** ** After the scan: edges and move *)

Lemma scan_ball_exists (h : Heap) (b : loc) (cs : list Collider) (h1 : Heap) :
  scan h b cs = Ret h1 -> is_Some (balls h1 !! b) -> is_Some (balls h !! b).
Proof.
  destruct cs as [|c rest]; cbn [scan]; intros Hs Hsome.
  - injection Hs as <-. exact Hsome.
  - destruct (is_self c b); [discriminate|].
    apply bind_Ret in Hs as ([cX cY] & _ & Hs).
    apply bind_Ret in Hs as (bl & Hbl & _).
    apply deref_Ret in Hbl. rewrite Hbl. eauto.
Qed.

(** What the statements after the loop do to a ball, in terms of the two
    edge tests. *)
Lemma edges_and_move_Ret (bl bl' : Ball) :
  edges_and_move bl = Ret bl' ->
  exists ex ey,
    at_x_edge bl = Ret ex /\ at_y_edge bl = Ret ey
    /\ Ball_Sprite bl' = Ball_Sprite bl
    /\ XSpeed bl' = (if ex then (- XSpeed bl)%float else XSpeed bl)
    /\ YSpeed bl' = (if ey then (- YSpeed bl)%float else YSpeed bl)
    /\ X (Ball_Point bl') = (X (Ball_Point bl) + XSpeed bl')%float
    /\ Y (Ball_Point bl') = (Y (Ball_Point bl) + YSpeed bl')%float.
Proof.
  unfold edges_and_move. intros H.
  apply bind_Ret in H as (ex & Hx & H). apply bind_Ret in H as (ey & Hy & H).
  injection H as <-. exists ex, ey. split; [exact Hx|].
  split; [destruct ex; exact Hy|].
  destruct ex, ey; cbn [set_XSpeed set_YSpeed set_Point XSpeed YSpeed Ball_Point Ball_Sprite X Y];
    auto.
Qed.

Lemma edges_and_move_edges (bl : Ball) (ex ey : bool) :
  at_x_edge bl = Ret ex -> at_y_edge bl = Ret ey ->
  exists bl', edges_and_move bl = Ret bl'.
Proof.
  intros Hx Hy. unfold edges_and_move. unfold at_x_edge in Hx. rewrite Hx. cbn [bind].
  assert (Hy' : at_y_edge (if ex then set_XSpeed bl (- XSpeed bl)%float else bl) = Ret ey)
    by (destruct ex; exact Hy).
  unfold at_y_edge in Hy'. rewrite Hy'. cbn [bind]. eauto.
Qed.

Lemma at_x_edge_Some (bl : Ball) (img : Image) :
  Ball_Sprite bl = Some img ->
  at_x_edge bl
  = Ret ((X (Ball_Point bl) <=? 0)%float
         || (float64_of_int screenWidth <=? X (Ball_Point bl) + float64_of_int (MaxX img))%float).
Proof.
  intros H. unfold at_x_edge, or_else. rewrite (Ball_Width_Some _ _ H). cbn [bind].
  destruct (_ <=? 0)%float; reflexivity.
Qed.

Lemma at_y_edge_Some (bl : Ball) (img : Image) :
  Ball_Sprite bl = Some img ->
  at_y_edge bl
  = Ret ((Y (Ball_Point bl) <=? 0)%float
         || (float64_of_int screenHeight <=? Y (Ball_Point bl) + float64_of_int (MaxY img))%float).
Proof.
  intros H. unfold at_y_edge, or_else. rewrite (Ball_Height_Some _ _ H). cbn [bind].
  destruct (_ <=? 0)%float; reflexivity.
Qed.

Lemma at_x_edge_set_XSpeed (bl : Ball) (v : float) : at_x_edge (set_XSpeed bl v) = at_x_edge bl.
Proof. reflexivity. Qed.

Lemma at_y_edge_set_XSpeed (bl : Ball) (v : float) : at_y_edge (set_XSpeed bl v) = at_y_edge bl.
Proof. reflexivity. Qed.

Lemma edges_and_move_Panic (bl : Ball) (msg : string) :
  edges_and_move bl = Panic msg -> msg = nil_dereference.
Proof.
  unfold edges_and_move, or_else. cbn [bind]. intros H.
  apply bind_Panic in H as [H|(ex & _ & H)].
  - destruct (_ <=? 0)%float; [discriminate|].
    apply bind_Panic in H as [H|(w & _ & H)]; [|discriminate].
    eapply Ball_Width_Panic, H.
  - apply bind_Panic in H as [H|(ey & _ & H)]; [|discriminate].
    destruct (_ <=? 0)%float; [discriminate|].
    apply bind_Panic in H as [H|(w & _ & H)]; [|discriminate].
    eapply Ball_Height_Panic, H.
Qed.

(** What [Ball.Update] does to the ball, in terms of the scan. *)
Lemma Ball_Update_Ret (h : Heap) (b : loc) (cs : list Collider) (h' : Heap) :
  Ball_Update h b cs = Ret h' ->
  exists h1 bl bl1 bl',
    balls h !! b = Some bl /\ scan h b cs = Ret h1 /\ balls h1 !! b = Some bl1
    /\ edges_and_move bl1 = Ret bl' /\ h' = store_ball h1 b bl'.
Proof.
  unfold Ball_Update. intros Hu.
  apply bind_Ret in Hu as (h1 & Hscan & Hu).
  apply bind_Ret in Hu as (bl1 & Hbl1 & Hu).
  apply bind_Ret in Hu as (bl' & He & Hu).
  apply deref_Ret in Hbl1. injection Hu as <-.
  destruct (scan_ball_exists _ _ _ _ Hscan) as [bl Hbl]; [eauto|].
  exists h1, bl, bl1, bl'. auto.
Qed.

(** The scan panics at the ball's own entry, if it gets there. *)
Lemma scan_Panic (h : Heap) (b : loc) (bl : Ball) (pre post : list Collider) :
  balls h !! b = Some bl ->
  Forall (fun c => ~ hits h bl c) pre ->
  (exists msg, scan h b (pre ++ BallPtr b :: post) = Panic msg)
  /\ (Forall (probed h bl) pre -> scan h b (pre ++ BallPtr b :: post) = Panic self_collision).
Proof.
  intros Hb. induction pre as [|c pre IH]; intros Hmiss.
  - cbn [app scan is_self]. rewrite bool_decide_eq_true_2 by reflexivity. eauto.
  - apply Forall_cons in Hmiss as [Hc Hmiss]. destruct (IH Hmiss) as [[msg IH1] IH2].
    change ((c :: pre) ++ BallPtr b :: post) with (c :: (pre ++ BallPtr b :: post)).
    destruct (is_self c b) eqn:Hself.
    { cbn [scan]. rewrite Hself. eauto. }
    split.
    + destruct (scan h b (c :: pre ++ BallPtr b :: post)) as [h'|m] eqn:Hs; [|eauto].
      destruct (scan_cons_Ret _ _ _ _ _ _ Hb Hs) as [_ Hp].
      rewrite (scan_cons_miss h b bl) in Hs by assumption. rewrite IH1 in Hs. discriminate.
    + intros Hlive. apply Forall_cons in Hlive as [Hl Hlive].
      rewrite (scan_cons_miss h b bl) by assumption. auto.
Qed.

(** The two ways the scan can panic. *)
Lemma scan_Panic_msg (h : Heap) (b : loc) (cs : list Collider) (msg : string) :
  scan h b cs = Panic msg -> msg = self_collision \/ msg = nil_dereference.
Proof.
  induction cs as [|c rest IH]; cbn [scan]; [discriminate|].
  destruct (is_self c b); [intros [= <-]; auto|]. intros H.
  apply bind_Panic in H as [H|([cX cY] & _ & H)];
    [right; eapply Collider_Location_Panic, H|].
  apply bind_Panic in H as [H|(bl & _ & H)]; [right; eapply deref_Panic, H|].
  apply bind_Panic in H as [H|(i & _ & H)]; [right; eapply inPaddle_Panic, H|].
  apply bind_Panic in H as [H|(n & _ & H)];
    [right; rewrite inPaddleNextTick_moved in H; eapply inPaddle_Panic, H|].
  destruct (negb i && n); [discriminate|]. apply IH, H.
Qed.

(** The scan returns when nothing it dereferences is nil and the ball is
    not among its colliders. *)
Lemma scan_returns (h : Heap) (b : loc) (bl : Ball) (cs : list Collider) :
  balls h !! b = Some bl ->
  Forall (probed h bl) cs -> Forall (fun c => is_self c b = false) cs ->
  scan h b cs = Ret h
  \/ scan h b cs = Ret (store_ball h b (set_XSpeed bl (XSpeed bl * -1)%float)).
Proof.
  intros Hb. induction cs as [|c rest IH]; intros Hlive Hself.
  - left. reflexivity.
  - apply Forall_cons in Hlive as [(cX & cY & i & n & HL & Hi & Hn) Hlive].
    apply Forall_cons in Hself as [Hs Hself].
    cbn [scan]. rewrite Hs, HL. cbn [bind]. rewrite (deref_Some _ _ _ Hb). cbn [bind].
    rewrite Hi, Hn. cbn [bind].
    destruct (negb i && n); [right; reflexivity|auto].
Qed.

Lemma Ball_Update_returns (h : Heap) (b : loc) (bl : Ball) (cs : list Collider) :
  balls h !! b = Some bl -> is_Some (Ball_Sprite bl) ->
  Forall (probed h bl) cs -> Forall (fun c => is_self c b = false) cs ->
  exists h', Ball_Update h b cs = Ret h'.
Proof.
  intros Hb [img Himg] Hlive Hself. unfold Ball_Update.
  assert (He : forall bl1, Ball_Sprite bl1 = Some img -> exists bl', edges_and_move bl1 = Ret bl').
  { intros bl1 H1. eapply edges_and_move_edges; [apply at_x_edge_Some|apply at_y_edge_Some]; exact H1. }
  destruct (scan_returns h b bl cs Hb Hlive Hself) as [-> | ->]; cbn [bind].
  - rewrite (deref_Some _ _ _ Hb). cbn [bind]. destruct (He bl Himg) as [bl' ->]. cbn [bind]. eauto.
  - unfold deref. cbn [store_ball balls]. rewrite lookup_insert_eq. cbn [bind].
    destruct (He (set_XSpeed bl (XSpeed bl * -1)%float) Himg) as [bl' ->]. cbn [bind]. eauto.
Qed.

(** ** Controllers leave the players alone *)

Lemma Controller_Input_players (k : Keys) (h : Heap) (c : Controller) (d : Direction) (h1 : Heap) :
  Controller_Input k h c = Ret (d, h1) -> players h1 = players h.
Proof.
  destruct c as [| |l]; simpl; intros Hc.
  - discriminate.
  - injection Hc as _ <-. reflexivity.
  - apply bind_Ret in Hc as (fb & _ & Hc).
    apply bind_Ret in Hc as ([d' fb'] & _ & Hc). injection Hc as _ <-. reflexivity.
Qed.

(** The bounds of the claim, computed as the program would compute them. *)
Lemma integer_paddle_bounds (y hgt : Z) :
  (0 <= y)%Z -> (0 <= hgt)%Z -> (y + hgt <= screenHeight)%Z ->
  (0 <=? float64_of_int y)%float = true
  /\ (float64_of_int y + float64_of_int hgt <=? float64_of_int screenHeight)%float = true.
Proof.
  unfold screenHeight. intros Hy Hh Hsum. split.
  - change 0%float with (float64_of_int 0). rewrite of_int_leb by lia. apply Z.leb_le, Hy.
  - rewrite of_int_add, of_int_leb by lia. apply Z.leb_le, Hsum.
Qed.

(** ** Player.Update, one step at a time *)

Lemma store_player_id (h : Heap) (p : loc) (pl : Player) :
  players h !! p = Some pl -> store_player h p pl = h.
Proof.
  intros Hp. destruct h as [bs ps fs]. unfold store_player. cbn [balls players followers] in *.
  rewrite insert_id by exact Hp. reflexivity.
Qed.

Lemma set_Y_id (pl : Player) : set_Y pl (Y (Player_Point pl)) = pl.
Proof. destruct pl as [sp [x y] c s]. reflexivity. Qed.

Lemma Player_move_Nothing (pl : Player) : Player_move Nothing pl = Ret pl.
Proof. reflexivity. Qed.

(** Up does not read the sprite. *)
Lemma Player_move_Up (pl : Player) :
  Player_move Up pl
  = Ret (if (Y (Player_Point pl) - Player_Speed pl * 2 >=? 0)%float
         then set_Y pl (Y (Player_Point pl) - Player_Speed pl)%float else pl).
Proof. reflexivity. Qed.

Lemma Player_move_Down (pl : Player) :
  Player_move Down pl
  = let* hgt := Height pl in
    Ret (if (Y (Player_Point pl) + hgt + Player_Speed pl * 2 <=? float64_of_int screenHeight)%float
         then set_Y pl (Y (Player_Point pl) + Player_Speed pl)%float else pl).
Proof.
  unfold Player_move, and_then. cbn [Direction_eqb andb bind].
  destruct (Height pl); reflexivity.
Qed.

(** The step changes Y at most, and by one Speed at most. *)
Lemma Player_move_cases (dir : Direction) (pl pl' : Player) :
  Player_move dir pl = Ret pl' ->
  pl' = pl
  \/ (dir = Up /\ pl' = set_Y pl (Y (Player_Point pl) - Player_Speed pl)%float)
  \/ (dir = Down /\ pl' = set_Y pl (Y (Player_Point pl) + Player_Speed pl)%float).
Proof.
  destruct dir.
  - rewrite Player_move_Up. intros [= <-]. destruct (_ <=? _)%float; [right; left|left]; auto.
  - rewrite Player_move_Down. intros H. apply bind_Ret in H as (hgt & _ & H).
    injection H as <-. destruct (_ <=? _)%float; [right; right|left]; auto.
  - intros [= <-]. left. reflexivity.
Qed.

(** The step panics only for want of a sprite, and only on Down. *)
Lemma Player_move_Panic (dir : Direction) (pl : Player) (msg : string) :
  Player_move dir pl = Panic msg ->
  msg = nil_dereference /\ dir = Down /\ Player_Sprite pl = None.
Proof.
  destruct dir; [rewrite Player_move_Up; discriminate| |discriminate].
  rewrite Player_move_Down. cbn [Height Player_Collider]. unfold Player_Height.
  destruct (Player_Sprite pl); cbn [Bounds_Max bind]; [discriminate|].
  intros [= <-]. auto.
Qed.

Lemma Player_move_returns (dir : Direction) (pl : Player) :
  (dir = Down -> is_Some (Player_Sprite pl)) -> exists pl', Player_move dir pl = Ret pl'.
Proof.
  intros Hs. destruct dir; [rewrite Player_move_Up; eauto| |rewrite Player_move_Nothing; eauto].
  destruct (Hs eq_refl) as [img Himg].
  rewrite Player_move_Down, (Player_Height_Some _ _ Himg). cbn [bind]. eauto.
Qed.

Lemma Player_move_Down_sprite (pl pl' : Player) :
  Player_move Down pl = Ret pl' -> is_Some (Player_Sprite pl).
Proof.
  rewrite Player_move_Down. intros H. apply bind_Ret in H as (hgt & Hh & _).
  apply Player_Height_Ret in Hh as (img & -> & _). eauto.
Qed.

(** What [Player.Update] comes to, for a player that has a controller. *)
Lemma Player_Update_eq (k : Keys) (h : Heap) (p : loc) (pl : Player) :
  players h !! p = Some pl ->
  Player_Controller pl <> NilController ->
  Player_Update k h p
  = let* (dir, h1) := Controller_Input k h (Player_Controller pl) in
    let* pl' := Player_move dir pl in
    Ret (store_player h1 p pl').
Proof.
  intros Hp Hc. unfold Player_Update.
  rewrite (deref_Some _ _ _ Hp). cbn [bind].
  assert (Hgen : forall c,
    (let* (dir, h1) := Controller_Input k h c in
     let* pl1 := deref (players h1) p in
     let pl2 :=
       if Direction_eqb dir Up && (Y (Player_Point pl1) - Player_Speed pl1 * 2 >=? 0)%float
       then set_Y pl1 (Y (Player_Point pl1) - Player_Speed pl1)%float
       else pl1 in
     let* down :=
       Ret (Direction_eqb dir Down)
       &&& (let* hgt := Height pl2 in
            Ret (Y (Player_Point pl2) + hgt + Player_Speed pl2 * 2
                 <=? float64_of_int screenHeight)%float) in
     let pl3 :=
       if down then set_Y pl2 (Y (Player_Point pl2) + Player_Speed pl2)%float
       else pl2 in
     Ret (store_player h1 p pl3))
    = let* (dir, h1) := Controller_Input k h c in
      let* pl' := Player_move dir pl in
      Ret (store_player h1 p pl')).
  { intros c. destruct (Controller_Input k h c) as [[dir h1]|m] eqn:Hin; [|reflexivity].
    cbn [bind]. rewrite (Controller_Input_players _ _ _ _ _ Hin), (deref_Some _ _ _ Hp).
    cbn [bind]. unfold Player_move.
    destruct (Ret (Direction_eqb dir Down) &&& _); reflexivity. }
  destruct (Player_Controller pl) as [| |l]; [congruence|apply Hgen|apply Hgen].
Qed.

Lemma Player_Update_step (k : Keys) (h : Heap) (p : loc) (pl : Player) (h' : Heap) :
  players h !! p = Some pl ->
  Player_Controller pl <> NilController ->
  Player_Update k h p = Ret h' ->
  exists dir h1 pl',
    Controller_Input k h (Player_Controller pl) = Ret (dir, h1)
    /\ Player_move dir pl = Ret pl'
    /\ h' = store_player h1 p pl'.
Proof.
  intros Hp Hc Hu. rewrite (Player_Update_eq k h p pl Hp Hc) in Hu.
  apply bind_Ret in Hu as ([dir h1] & Hin & Hu).
  apply bind_Ret in Hu as (pl' & Hm & Hu). injection Hu as <-.
  exists dir, h1, pl'. auto.
Qed.

Lemma Player_Update_keyboard (k : Keys) (h : Heap) (p : loc) (pl : Player) :
  players h !! p = Some pl ->
  Player_Controller pl = ArrowKeysPtr ->
  Player_Update k h p
  = let* pl' := Player_move (ArrowKeys_Input k) pl in Ret (store_player h p pl').
Proof.
  intros Hp Hc. rewrite (Player_Update_eq k h p pl Hp) by congruence.
  rewrite Hc. reflexivity.
Qed.

Lemma Player_Update_follow (k : Keys) (h : Heap) (p l : loc) (pl : Player)
    (fb fb' : FollowBall) (d : Direction) :
  players h !! p = Some pl ->
  Player_Controller pl = FollowBallPtr l ->
  followers h !! l = Some fb ->
  FollowBall_Input h fb = Ret (d, fb') ->
  Player_Update k h p
  = let* pl' := Player_move d pl in Ret (store_player (store_follower h l fb') p pl').
Proof.
  intros Hp Hc Hfb Hi. rewrite (Player_Update_eq k h p pl Hp) by congruence.
  rewrite Hc. cbn [Controller_Input]. rewrite (deref_Some _ _ _ Hfb). cbn [bind].
  rewrite Hi. reflexivity.
Qed.

(** The step on the integer grid. *)
Lemma Player_move_int (dir : Direction) (pl : Player) (img : Image) (y s : Z) :
  Player_Sprite pl = Some img ->
  Y (Player_Point pl) = float64_of_int y ->
  Player_Speed pl = float64_of_int s ->
  (0 <= s <= 2 ^ 51)%Z ->
  (0 <= MaxY img)%Z ->
  (0 <= y)%Z ->
  (y + MaxY img <= screenHeight)%Z ->
  Player_move dir pl = Ret (set_Y pl (float64_of_int (step_int dir y s (MaxY img)))).
Proof.
  intros Himg HY HS Hs Hh Hy Hsum. unfold screenHeight in *.
  assert (Hid : pl = set_Y pl (float64_of_int y)) by (rewrite <- HY; symmetry; apply set_Y_id).
  destruct dir.
  - rewrite Player_move_Up. unfold step_int. rewrite HY, HS.
    change 0%float with (float64_of_int 0).
    rewrite of_int_double, !of_int_sub, of_int_leb by lia.
    destruct (0 <=? y - 2 * s)%Z; [reflexivity|congruence].
  - rewrite Player_move_Down, (Player_Height_Some _ _ Himg). cbn [bind].
    unfold step_int, screenHeight. rewrite HY, HS.
    rewrite !of_int_add, of_int_double, of_int_add, of_int_leb by lia.
    destruct (y + MaxY img + 2 * s <=? 240)%Z; [reflexivity|congruence].
  - rewrite Player_move_Nothing. cbn [step_int]. congruence.
Qed.

Lemma step_int_bounds (dir : Direction) (y s hgt : Z) :
  (0 <= s)%Z -> (0 <= y)%Z -> (y + hgt <= screenHeight)%Z ->
  (0 <= step_int dir y s hgt)%Z /\ (step_int dir y s hgt + hgt <= screenHeight)%Z.
Proof.
  unfold step_int, screenHeight. intros Hs Hy Hsum.
  destruct dir; [destruct (Z.leb_spec 0 (y - 2 * s))|destruct (Z.leb_spec (y + hgt + 2 * s) 240)|]; lia.
Qed.

Lemma Controller_Input_frame (k : Keys) (h : Heap) (c : Controller) (d : Direction) (h1 : Heap) :
  Controller_Input k h c = Ret (d, h1) ->
  balls h1 = balls h
  /\ forall l, c <> FollowBallPtr l -> followers h1 !! l = followers h !! l.
Proof.
  destruct c as [| |l0]; simpl; intros Hc.
  - discriminate.
  - injection Hc as _ <-. auto.
  - apply bind_Ret in Hc as (fb & _ & Hc).
    apply bind_Ret in Hc as ([d' fb'] & _ & Hc). injection Hc as _ <-.
    split; [reflexivity|]. intros l Hl. cbn [store_follower followers].
    apply lookup_insert_ne. congruence.
Qed.

(** The call through a [*FollowBall] updates that controller, and only its
    private fields. *)
Lemma Controller_Input_own (k : Keys) (h : Heap) (l : loc) (d : Direction) (h1 : Heap) :
  Controller_Input k h (FollowBallPtr l) = Ret (d, h1) ->
  exists fb fb',
    followers h !! l = Some fb /\ followers h1 !! l = Some fb'
    /\ FollowBall_Input h fb = Ret (d, fb').
Proof.
  cbn [Controller_Input]. intros Hc.
  apply bind_Ret in Hc as (fb & Hfb & Hc). apply deref_Ret in Hfb.
  apply bind_Ret in Hc as ([d' fb'] & Hi & Hc). injection Hc as <- <-.
  exists fb, fb'. split; [exact Hfb|]. split; [apply lookup_insert_eq|exact Hi].
Qed.

Lemma step_int_margin (dir : Direction) (y s hgt : Z) :
  (0 <= s)%Z -> (0 <= y)%Z -> (y + hgt <= screenHeight)%Z ->
  step_int dir y s hgt = y
  \/ ((step_int dir y s hgt = y - s \/ step_int dir y s hgt = y + s)
      /\ s <= step_int dir y s hgt
      /\ step_int dir y s hgt + hgt + s <= screenHeight)%Z.
Proof.
  unfold step_int, screenHeight. intros Hs Hy Hsum.
  destruct dir; [destruct (Z.leb_spec 0 (y - 2 * s))|destruct (Z.leb_spec (y + hgt + 2 * s) 240)|];
    (left; reflexivity) || (right; lia).
Qed.

(** ** The commit window of FollowBall *)

Lemma FollowBall_Input_cases (h : Heap) (fb : FollowBall) (d : Direction) (fb' : FollowBall) :
  FollowBall_Input h fb = Ret (d, fb') ->
  ((0 < count fb)%Z /\ d = lastDecision fb
     /\ fb' = set_count fb (lastDecision fb) (wrap64 (count fb - 1)))
  \/ ((count fb <= 0)%Z /\ (d = Up \/ d = Down)
        /\ fb' = set_count fb d (wrap64 (count fb + decisionBuffer)))
  \/ ((count fb <= 0)%Z /\ d = Nothing /\ fb' = fb).
Proof.
  unfold FollowBall_Input. intros Hi.
  apply bind_Ret in Hi as (b & _ & Hi).
  cbn [Location Ball_Collider Point_Location] in Hi.
  apply bind_Ret in Hi as (p & _ & Hi).
  cbn [Location Player_Collider Point_Location] in Hi.
  destruct (Z.ltb_spec 0 (count fb)) as [Hpos|Hle].
  - injection Hi as <- <-. left. auto.
  - right. destruct (abs _ <? sight)%float.
    + destruct (_ <? _)%float.
      * injection Hi as <- <-. left. auto.
      * destruct (_ <? _)%float; injection Hi as <- <-; [left|right]; auto.
    + injection Hi as <- <-. right. auto.
Qed.

Lemma FollowBall_Input_window (h : Heap) (bp pp : loc) (ld : Direction) (n : Z) :
  is_Some (balls h !! bp) -> is_Some (players h !! pp) -> (0 < n)%Z ->
  FollowBall_Input h {| FollowBall_Ball := bp; FollowBall_Player := pp;
                        lastDecision := ld; count := n |}
  = Ret (ld, {| FollowBall_Ball := bp; FollowBall_Player := pp;
                lastDecision := ld; count := wrap64 (n - 1) |}).
Proof.
  intros [b Hb] [p Hp] Hn. unfold FollowBall_Input. cbn [FollowBall_Ball FollowBall_Player count lastDecision].
  rewrite (deref_Some _ _ _ Hb). cbn [bind Location Ball_Collider Point_Location].
  rewrite (deref_Some _ _ _ Hp). cbn [bind Location Player_Collider Point_Location].
  destruct (Z.ltb_spec 0 n); [reflexivity|lia].
Qed.

Lemma window_run (bp pp : loc) (ld : Direction) (hs : list Heap) :
  Forall (fun h => is_Some (balls h !! bp) /\ is_Some (players h !! pp)) hs ->
  (Z.of_nat (length hs) < 2 ^ 62)%Z ->
  FollowBall_Inputs hs {| FollowBall_Ball := bp; FollowBall_Player := pp;
                          lastDecision := ld; count := Z.of_nat (length hs) |}
  = Ret (repeat ld (length hs),
         {| FollowBall_Ball := bp; FollowBall_Player := pp; lastDecision := ld; count := 0 |}).
Proof.
  induction hs as [|h hs IH]; intros Hlive Hlen.
  - reflexivity.
  - apply Forall_cons in Hlive as [[Hb Hp] Hlive].
    cbn [FollowBall_Inputs]. rewrite FollowBall_Input_window by (try assumption; simpl; lia).
    cbn [bind]. cbn [length] in *. rewrite wrap64_small by lia.
    replace (Z.of_nat (S (length hs)) - 1)%Z with (Z.of_nat (length hs)) by lia.
    rewrite IH by (try assumption; lia). reflexivity.
Qed.

(** Calls answered from a commit window that is long enough for them. *)
Lemma window_run_part (bp pp : loc) (ld : Direction) (hs : list Heap) (n : Z) :
  Forall (fun h => is_Some (balls h !! bp) /\ is_Some (players h !! pp)) hs ->
  (Z.of_nat (length hs) <= n < 2 ^ 62)%Z ->
  FollowBall_Inputs hs {| FollowBall_Ball := bp; FollowBall_Player := pp;
                          lastDecision := ld; count := n |}
  = Ret (repeat ld (length hs),
         {| FollowBall_Ball := bp; FollowBall_Player := pp; lastDecision := ld;
            count := n - Z.of_nat (length hs) |}).
Proof.
  revert n. induction hs as [|h hs IH]; intros n Hlive Hlen.
  - cbn [FollowBall_Inputs length repeat]. rewrite Z.sub_0_r. reflexivity.
  - apply Forall_cons in Hlive as [[Hb Hp] Hlive]. cbn [length] in Hlen.
    cbn [FollowBall_Inputs]. rewrite FollowBall_Input_window by (try assumption; lia).
    cbn [bind]. rewrite wrap64_small by lia.
    rewrite IH by (try assumption; lia). cbn [bind length repeat].
    do 3 f_equal. lia.
Qed.

(** The first call of a controller that is not in a commit window. *)
Lemma FollowBall_Input_idle (h : Heap) (fb : FollowBall) (bl : Ball) (pl : Player) :
  (count fb <= 0)%Z ->
  balls h !! FollowBall_Ball fb = Some bl ->
  players h !! FollowBall_Player fb = Some pl ->
  FollowBall_Input h fb
  = Ret (heuristic bl pl,
         match heuristic bl pl with
         | Nothing => fb
         | d => set_count fb d (wrap64 (count fb + decisionBuffer))
         end).
Proof.
  intros Hc Hb Hp. unfold FollowBall_Input, heuristic.
  rewrite (deref_Some _ _ _ Hb). cbn [bind Location Ball_Collider Point_Location].
  rewrite (deref_Some _ _ _ Hp). cbn [bind Location Player_Collider Point_Location].
  destruct (Z.ltb_spec 0 (count fb)) as [Hpos|_]; [lia|].
  destruct (abs _ <? sight)%float; [|reflexivity].
  destruct (_ <? _)%float; [reflexivity|]. destruct (_ <? _)%float; reflexivity.
Qed.

Lemma window_ok_step (h : Heap) (fb : FollowBall) (d : Direction) (fb' : FollowBall) :
  window_ok fb -> FollowBall_Input h fb = Ret (d, fb') -> window_ok fb'.
Proof.
  unfold window_ok, decisionBuffer. intros [Hc Hd] Hi.
  apply FollowBall_Input_cases in Hi
    as [(Hpos & _ & ->)|[(Hle & Hud & ->)|(_ & _ & ->)]]; cbn [set_count count lastDecision].
  - rewrite wrap64_small by lia. split; [lia|]. intros _. apply Hd, Hpos.
  - unfold decisionBuffer. rewrite wrap64_small by lia. split; [lia|]. intros _. exact Hud.
  - auto.
Qed.

Lemma window_ok_run (hs : list Heap) (fb : FollowBall) (ds : list Direction) (fb' : FollowBall) :
  window_ok fb -> FollowBall_Inputs hs fb = Ret (ds, fb') -> window_ok fb'.
Proof.
  revert fb ds. induction hs as [|h hs IH]; intros fb ds Hok Hr; cbn [FollowBall_Inputs] in Hr.
  - injection Hr as _ <-. exact Hok.
  - apply bind_Ret in Hr as ([d fb1] & Hi & Hr).
    apply bind_Ret in Hr as ([ds' fb2] & Hrest & Hr). injection Hr as _ <-.
    eapply IH; [|exact Hrest]. eapply window_ok_step; eassumption.
Qed.

(** ** Runs of FollowBall.Input *)

Lemma FollowBall_Inputs_app (hs1 hs2 : list Heap) (fb : FollowBall)
    (ds : list Direction) (fb' : FollowBall) :
  FollowBall_Inputs (hs1 ++ hs2) fb = Ret (ds, fb') ->
  exists ds1 fb1 ds2,
    FollowBall_Inputs hs1 fb = Ret (ds1, fb1)
    /\ FollowBall_Inputs hs2 fb1 = Ret (ds2, fb')
    /\ ds = ds1 ++ ds2.
Proof.
  revert fb ds. induction hs1 as [|h hs1 IH]; intros fb ds Hr.
  - exists [], fb, ds. auto.
  - cbn [app FollowBall_Inputs] in Hr |- *.
    apply bind_Ret in Hr as ([d fb0] & Hi & Hr).
    apply bind_Ret in Hr as ([ds' fb2] & Hrest & Hr). injection Hr as <- <-.
    destruct (IH _ _ Hrest) as (ds1 & fb1 & ds2 & H1 & H2 & ->).
    exists (d :: ds1), fb1, ds2. rewrite Hi. cbn [bind]. rewrite H1. cbn [bind]. auto.
Qed.

Lemma set_count_id (fb : FollowBall) : set_count fb (lastDecision fb) (count fb) = fb.
Proof. destruct fb. reflexivity. Qed.

(** Calls answered from the commit window. *)
Lemma window_Ret (hs : list Heap) (fb : FollowBall) (ds : list Direction) (fb' : FollowBall) :
  (Z.of_nat (length hs) <= count fb <= 15)%Z ->
  FollowBall_Inputs hs fb = Ret (ds, fb') ->
  ds = repeat (lastDecision fb) (length hs)
  /\ fb' = set_count fb (lastDecision fb) (count fb - Z.of_nat (length hs)).
Proof.
  revert fb ds. induction hs as [|h hs IH]; intros fb ds Hc Hr.
  - injection Hr as <- <-. cbn [length repeat]. rewrite Z.sub_0_r, set_count_id. auto.
  - cbn [FollowBall_Inputs] in Hr. cbn [length] in Hc.
    apply bind_Ret in Hr as ([d fb1] & Hi & Hr).
    apply bind_Ret in Hr as ([ds' fb2] & Hrest & Hr). injection Hr as <- <-.
    apply FollowBall_Input_cases in Hi as [(_ & -> & ->)|[(Hle & _)|(Hle & _)]]; [|lia|lia].
    rewrite wrap64_small in Hrest by lia.
    apply IH in Hrest; [|cbn [set_count count]; lia].
    cbn [set_count count lastDecision FollowBall_Ball FollowBall_Player] in Hrest.
    destruct Hrest as [-> ->]. cbn [length repeat]. split; [reflexivity|].
    unfold set_count. cbn [FollowBall_Ball FollowBall_Player]. f_equal. lia.
Qed.

(** [Input] and nil pointers. *)
Lemma FollowBall_Input_live (h : Heap) (fb : FollowBall) :
  live_refs fb h -> exists d fb', FollowBall_Input h fb = Ret (d, fb').
Proof.
  intros [[b Hb] [p Hp]]. unfold FollowBall_Input.
  rewrite (deref_Some _ _ _ Hb). cbn [bind Location Ball_Collider Point_Location].
  rewrite (deref_Some _ _ _ Hp). cbn [bind Location Player_Collider Point_Location].
  destruct (0 <? count fb)%Z; [eauto|].
  destruct (abs _ <? sight)%float; [|eauto].
  destruct (_ <? _)%float; [eauto|]. destruct (_ <? _)%float; eauto.
Qed.

Lemma FollowBall_Input_Ret_live (h : Heap) (fb : FollowBall) (d : Direction) (fb' : FollowBall) :
  FollowBall_Input h fb = Ret (d, fb') -> live_refs fb h.
Proof.
  unfold FollowBall_Input, live_refs. intros Hi.
  apply bind_Ret in Hi as (b & Hb & Hi). cbn [Location Ball_Collider Point_Location] in Hi.
  apply bind_Ret in Hi as (p & Hp & _).
  apply deref_Ret in Hb, Hp. rewrite Hb, Hp. eauto.
Qed.

Lemma FollowBall_Input_Panic (h : Heap) (fb : FollowBall) (msg : string) :
  FollowBall_Input h fb = Panic msg -> msg = nil_dereference.
Proof.
  unfold FollowBall_Input, deref.
  destruct (balls h !! FollowBall_Ball fb) as [b|]; cbn [bind]; [|congruence].
  cbn [Location Ball_Collider Point_Location].
  destruct (players h !! FollowBall_Player fb) as [p|]; cbn [bind]; [|congruence].
  cbn [Location Player_Collider Point_Location].
  destruct (0 <? count fb)%Z; [discriminate|].
  destruct (abs _ <? sight)%float; [|discriminate].
  destruct (_ <? _)%float; [discriminate|]. destruct (_ <? _)%float; discriminate.
Qed.

Lemma Controller_Input_Panic (k : Keys) (h : Heap) (c : Controller) (msg : string) :
  Controller_Input k h c = Panic msg -> msg = nil_dereference.
Proof.
  destruct c as [| |l]; cbn [Controller_Input]; [congruence|discriminate|].
  intros H. apply bind_Panic in H as [H|(fb & _ & H)]; [eapply deref_Panic, H|].
  apply bind_Panic in H as [H|([d fb'] & _ & H)]; [|discriminate].
  eapply FollowBall_Input_Panic, H.
Qed.

(** ** Ball.Update, piece by piece *)

(** The scan leaves everything but XSpeed alone. *)
Lemma scan_keeps (h : Heap) (b : loc) (bl : Ball) (cs : list Collider) (h1 : Heap) :
  balls h !! b = Some bl ->
  scan h b cs = Ret h1 ->
  players h1 = players h /\ followers h1 = followers h
  /\ (forall q, q <> b -> balls h1 !! q = balls h !! q)
  /\ exists bl1,
       balls h1 !! b = Some bl1
       /\ Ball_Sprite bl1 = Ball_Sprite bl /\ Ball_Point bl1 = Ball_Point bl
       /\ YSpeed bl1 = YSpeed bl
       /\ ((XSpeed bl1 = XSpeed bl /\ Forall (fun c => ~ hits h bl c) cs)
           \/ (XSpeed bl1 = (XSpeed bl * -1)%float /\ exists c, In c cs /\ hits h bl c)).
Proof.
  intros Hb Hs.
  destruct (scan_cases h b bl cs h1 Hb Hs) as [[-> Hall]|(pre & c & post & -> & _ & Hhit & ->)].
  - repeat split; try reflexivity. exists bl. auto 10.
  - cbn [store_ball players followers balls]. repeat split; try reflexivity.
    + intros q Hq. apply lookup_insert_ne. congruence.
    + exists (set_XSpeed bl (XSpeed bl * -1)%float).
      split; [apply lookup_insert_eq|]. repeat split; try reflexivity.
      right. split; [reflexivity|]. exists c.
      split; [apply in_or_app; right; left; reflexivity|exact Hhit].
Qed.

(** The edge tests on the integer grid. *)
Lemma at_y_edge_int (bl : Ball) (img : Image) (y : Z) :
  Ball_Sprite bl = Some img ->
  Y (Ball_Point bl) = float64_of_int y ->
  (Z.abs y <= 2 ^ 50)%Z -> (0 <= MaxY img <= 2 ^ 50)%Z ->
  at_y_edge bl = Ret ((y <=? 0)%Z || (screenHeight <=? y + MaxY img)%Z).
Proof.
  intros Hs HY Hy Hh. rewrite (at_y_edge_Some _ _ Hs). unfold screenHeight. rewrite HY.
  change 0%float with (float64_of_int 0).
  rewrite of_int_add_signed, !of_int_leb by lia. reflexivity.
Qed.

Lemma at_x_edge_int (bl : Ball) (img : Image) (x : Z) :
  Ball_Sprite bl = Some img ->
  X (Ball_Point bl) = float64_of_int x ->
  (Z.abs x <= 2 ^ 50)%Z -> (0 <= MaxX img <= 2 ^ 50)%Z ->
  at_x_edge bl = Ret ((x <=? 0)%Z || (screenWidth <=? x + MaxX img)%Z).
Proof.
  intros Hs HX Hx Hw. rewrite (at_x_edge_Some _ _ Hs). unfold screenWidth. rewrite HX.
  change 0%float with (float64_of_int 0).
  rewrite of_int_add_signed, !of_int_leb by lia. reflexivity.
Qed.

(** The edge tests answer yes for a box that touches or crosses an edge,
    whatever binary64 value the position holds. *)
Lemma at_x_edge_exact (bl : Ball) (img : Image) :
  Ball_Sprite bl = Some img ->
  (0 <= MaxX img < 2 ^ 53)%Z ->
  finite64 (X (Ball_Point bl)) = true ->
  Qle_bool (inject_Z screenWidth) (exact_value (X (Ball_Point bl)) + inject_Z (MaxX img)) = true ->
  at_x_edge bl = Ret true.
Proof.
  intros Hs Hw Hf Hq. rewrite (at_x_edge_Some _ _ Hs).
  apply exact_ge in Hq; [|assumption].
  rewrite (edge_reached _ (MaxX img) screenWidth Hf Hw ltac:(unfold screenWidth; lia) Hq).
  rewrite orb_true_r. reflexivity.
Qed.

Lemma at_y_edge_exact (bl : Ball) (img : Image) :
  Ball_Sprite bl = Some img ->
  (0 <= MaxY img < 2 ^ 53)%Z ->
  finite64 (Y (Ball_Point bl)) = true ->
  Qle_bool (inject_Z screenHeight) (exact_value (Y (Ball_Point bl)) + inject_Z (MaxY img)) = true ->
  at_y_edge bl = Ret true.
Proof.
  intros Hs Hw Hf Hq. rewrite (at_y_edge_Some _ _ Hs).
  apply exact_ge in Hq; [|assumption].
  rewrite (edge_reached _ (MaxY img) screenHeight Hf Hw ltac:(unfold screenHeight; lia) Hq).
  rewrite orb_true_r. reflexivity.
Qed.

Lemma at_x_edge_left (bl : Ball) (e : bool) :
  (X (Ball_Point bl) <=? 0)%float = true -> at_x_edge bl = Ret e -> e = true.
Proof. intros Hedge. unfold at_x_edge, or_else. cbn [bind]. rewrite Hedge. congruence. Qed.

Lemma at_y_edge_top (bl : Ball) (e : bool) :
  (Y (Ball_Point bl) <=? 0)%float = true -> at_y_edge bl = Ret e -> e = true.
Proof. intros Hedge. unfold at_y_edge, or_else. cbn [bind]. rewrite Hedge. congruence. Qed.

(** A speed of one pixel per tick, reversed or not. *)
Lemma unit_speed_flip (e : bool) (v : Z) :
  (v = 1 \/ v = -1)%Z ->
  (if e then (- float64_of_int v)%float else float64_of_int v)
  = float64_of_int (if e then - v else v)%Z.
Proof.
  intros Hv. destruct e; [|reflexivity]. apply of_int_opp; lia.
Qed.

(** One tick of a coordinate that is reversed at [0] and at [hi]. *)
Lemma confined_step (hi x v : Z) :
  (1 <= hi)%Z -> confined 0 hi x v ->
  confined 0 hi (x + reflect 0 hi x v) (reflect 0 hi x v).
Proof.
  unfold confined, reflect. intros Hhi (Hx & Hv & Hlo & Hup).
  destruct (Z.leb_spec x 0), (Z.leb_spec hi x); cbn [orb]; lia.
Qed.

Lemma reflect_leb (hi x v : Z) (e : bool) :
  e = (x <=? 0)%Z || (hi <=? x)%Z -> (if e then - v else v)%Z = reflect 0 hi x v.
Proof. intros ->. reflexivity. Qed.

Lemma reflect_unit (lo hi x v : Z) :
  (v = 1 \/ v = -1)%Z -> (reflect lo hi x v = 1 \/ reflect lo hi x v = -1)%Z.
Proof. unfold reflect. destruct (_ || _); lia. Qed.

(** The edges and the move, on the integer grid. *)
Lemma edges_int (bl : Ball) (img : Image) (x y vx vy : Z) :
  Ball_Sprite bl = Some img ->
  X (Ball_Point bl) = float64_of_int x -> Y (Ball_Point bl) = float64_of_int y ->
  XSpeed bl = float64_of_int vx -> YSpeed bl = float64_of_int vy ->
  (Z.abs x <= 2 ^ 20)%Z -> (Z.abs y <= 2 ^ 20)%Z ->
  (vx = 1 \/ vx = -1)%Z -> (vy = 1 \/ vy = -1)%Z ->
  (0 <= MaxX img <= 2 ^ 20)%Z -> (0 <= MaxY img <= 2 ^ 20)%Z ->
  let vx' := reflect 0 (screenWidth - MaxX img) x vx in
  let vy' := reflect 0 (screenHeight - MaxY img) y vy in
  exists bl',
    edges_and_move bl = Ret bl'
    /\ Ball_Sprite bl' = Ball_Sprite bl
    /\ XSpeed bl' = float64_of_int vx'
    /\ YSpeed bl' = float64_of_int vy'
    /\ X (Ball_Point bl') = float64_of_int (x + vx')
    /\ Y (Ball_Point bl') = float64_of_int (y + vy').
Proof.
  intros Himg HX HY HVX HVY Hx Hy Hvx Hvy Hw Hh vx' vy'.
  pose proof (at_x_edge_int bl img x Himg HX) as Hex.
  pose proof (at_y_edge_int bl img y Himg HY) as Hey.
  destruct (edges_and_move_edges bl _ _ (Hex ltac:(lia) ltac:(lia)) (Hey ltac:(lia) ltac:(lia)))
    as [bl' Hbl'].
  exists bl'. split; [exact Hbl'|].
  apply edges_and_move_Ret in Hbl' as (ex & ey & Hex' & Hey' & Hs & HVX' & HVY' & HX' & HY').
  rewrite Hex in Hex' by lia. rewrite Hey in Hey' by lia.
  injection Hex' as Hex'. injection Hey' as Hey'.
  assert (Hvx' : XSpeed bl' = float64_of_int vx').
  { rewrite HVX', HVX, unit_speed_flip by assumption. f_equal. subst vx'.
    unfold reflect, screenWidth in *. rewrite <- Hex'.
    replace (320 - MaxX img <=? x)%Z with (320 <=? x + MaxX img)%Z; [reflexivity|].
    destruct (Z.leb_spec (320 - MaxX img) x), (Z.leb_spec 320 (x + MaxX img)); lia || reflexivity. }
  assert (Hvy' : YSpeed bl' = float64_of_int vy').
  { rewrite HVY', HVY, unit_speed_flip by assumption. f_equal. subst vy'.
    unfold reflect, screenHeight in *. rewrite <- Hey'.
    replace (240 - MaxY img <=? y)%Z with (240 <=? y + MaxY img)%Z; [reflexivity|].
    destruct (Z.leb_spec (240 - MaxY img) y), (Z.leb_spec 240 (y + MaxY img)); lia || reflexivity. }
  split; [exact Hs|]. split; [exact Hvx'|]. split; [exact Hvy'|].
  rewrite HX', HY', Hvx', Hvy', HX, HY.
  pose proof (reflect_unit 0 (screenWidth - MaxX img) x vx Hvx).
  pose proof (reflect_unit 0 (screenHeight - MaxY img) y vy Hvy).
  split; apply of_int_add_signed; subst vx' vy'; lia.
Qed.

(** On the integer grid, a ball that would be inside a collider one tick
    later is within its X extent then. *)
Lemma next_tick_X_int (h : Heap) (bl : Ball) (c : Collider) (img : Image) (cY : float)
    (x vx cx cw : Z) :
  Ball_Sprite bl = Some img ->
  X (Ball_Point bl) = float64_of_int x ->
  XSpeed bl = float64_of_int vx ->
  (Z.abs x <= 2 ^ 20)%Z -> (Z.abs vx <= 2 ^ 20)%Z ->
  (0 <= MaxX img <= 2 ^ 20)%Z ->
  (Z.abs cx <= 2 ^ 20)%Z -> (0 <= cw <= 2 ^ 20)%Z ->
  Collider_Width h c = Ret (float64_of_int cw) ->
  inPaddleNextTick h bl c (float64_of_int cx) cY = Ret true ->
  (cx <= x + vx + MaxX img /\ x + vx <= cx + cw)%Z.
Proof.
  intros Himg HX HV Hx Hv Hw Hcx Hcw HcW Hnext. rewrite inPaddleNextTick_moved in Hnext.
  destruct (inPaddle_true _ _ _ _ _ Hnext) as (bW & bH & cW & cH & HbW & HbH & HcW' & HcH).
  rewrite (inPaddle_sized _ _ _ _ _ _ _ _ _ HbW HbH HcW' HcH) in Hnext.
  injection Hnext as Hnext. apply andb_prop in Hnext as [HinX _].
  rewrite HcW in HcW'. injection HcW' as <-.
  change (Width (moved bl)) with (Width bl) in HbW.
  rewrite (Ball_Width_Some _ _ Himg) in HbW. injection HbW as <-.
  cbn [moved set_Point Ball_Point X] in HinX. rewrite HX, HV in HinX.
  rewrite !of_int_add_signed, !of_int_leb in HinX by lia.
  apply andb_prop in HinX as [H1 H2]. apply Z.leb_le in H1, H2. lia.
Qed.

(** ** The game, tick by tick *)

Lemma paddle_step_ok (dir : Direction) (pl : Player) (x : Z) (c : Controller) :
  paddle_ok pl x c -> exists pl', Player_move dir pl = Ret pl' /\ paddle_ok pl' x c.
Proof.
  intros (Hsp & HX & Hc & HS & y & HY & Hy).
  unfold screenHeight, playerHeight in Hy.
  eexists. split.
  - apply (Player_move_int dir pl _ y playerSpeed Hsp HY HS);
      unfold playerSpeed, playerHeight, screenHeight; cbn [MaxY]; lia.
  - unfold paddle_ok. cbn [set_Y Player_Sprite Player_Point Player_Controller Player_Speed X Y MaxY].
    repeat split; try assumption.
    eexists. split; [reflexivity|].
    pose proof (step_int_bounds dir y playerSpeed playerHeight) as Hb.
    unfold playerSpeed, playerHeight, screenHeight in *. lia.
Qed.

Lemma FollowBall_Input_pointers (h : Heap) (fb : FollowBall) (d : Direction) (fb' : FollowBall) :
  FollowBall_Input h fb = Ret (d, fb') ->
  FollowBall_Ball fb' = FollowBall_Ball fb /\ FollowBall_Player fb' = FollowBall_Player fb.
Proof.
  intros Hi. apply FollowBall_Input_cases in Hi as [(_ & _ & ->)|[(_ & _ & ->)|(_ & _ & ->)]];
    auto.
Qed.

(** The horizontal range of the ball in the game: the edges reverse it at
    0 and at 310, a paddle can reverse it once more while the ball is
    within the X extent of that paddle one tick later. *)
Lemma game_x_step (x vx vx1 : Z) :
  confined (-11) 321 x vx ->
  (vx1 = vx
   \/ (vx1 = - vx
       /\ ((0 <= x + vx + 10 /\ x + vx <= 0 + 10)
           \/ (310 <= x + vx + 10 /\ x + vx <= 310 + 10))))%Z ->
  confined (-11) 321 (x + reflect 0 310 x vx1) (reflect 0 310 x vx1).
Proof.
  unfold confined, reflect. intros (Hx & Hv & Hlo & Hhi) Hb.
  destruct (Z.leb_spec x 0), (Z.leb_spec 310 x); cbn [orb]; lia.
Qed.

(** A paddle of the game as a collider. *)
Lemma paddle_collider (h : Heap) (p : loc) (pl : Player) (x : Z) (c : Controller) :
  players h !! p = Some pl -> paddle_ok pl x c ->
  Collider_Location h (PlayerPtr p) = Ret (float64_of_int x, Y (Player_Point pl))
  /\ Collider_Width h (PlayerPtr p) = Ret (float64_of_int playerWidth)
  /\ Collider_Height h (PlayerPtr p) = Ret (float64_of_int playerHeight).
Proof.
  intros Hp (Hsp & HX & _). cbn [Collider_Location Collider_Width Collider_Height].
  rewrite (deref_Some _ _ _ Hp). cbn [bind Location Player_Collider Point_Location].
  rewrite (Player_Width_Some _ _ Hsp), (Player_Height_Some _ _ Hsp).
  unfold Point_Location. rewrite HX. auto.
Qed.

Lemma ball_tick_ok (h : Heap) (pl1 pl2 : Player) (c1 c2 : Controller) (bl : Ball) :
  players h !! 1%positive = Some pl1 -> paddle_ok pl1 0 c1 ->
  players h !! 2%positive = Some pl2 -> paddle_ok pl2 (screenWidth - playerWidth) c2 ->
  balls h !! 1%positive = Some bl -> ball_ok bl ->
  exists h' bl',
    Ball_Update h 1%positive [PlayerPtr 1%positive; PlayerPtr 2%positive] = Ret h'
    /\ players h' = players h /\ followers h' = followers h
    /\ balls h' !! 1%positive = Some bl' /\ ball_ok bl'.
Proof.
  intros Hp1 Hok1 Hp2 Hok2 Hbl (Hsp & x & y & vx & vy & HX & HY & HVX & HVY & Hcx & Hcy).
  destruct (paddle_collider h _ _ _ _ Hp1 Hok1) as (HL1 & HW1 & HH1).
  destruct (paddle_collider h _ _ _ _ Hp2 Hok2) as (HL2 & HW2 & HH2).
  unfold ballSprite, NewImage in Hsp.
  unfold screenWidth, screenHeight, playerWidth, ballWidth in *.
  assert (Hlive : Forall (probed h bl) [PlayerPtr 1%positive; PlayerPtr 2%positive]).
  { repeat constructor; (apply probed_intro; [rewrite Hsp; eexists; reflexivity|]);
      eexists _, _; eauto. }
  assert (Hself : Forall (fun c => is_self c 1%positive = false)
                         [PlayerPtr 1%positive; PlayerPtr 2%positive])
    by (repeat constructor).
  assert (exists hs, scan h 1%positive [PlayerPtr 1%positive; PlayerPtr 2%positive] = Ret hs)
    as [hs Hscan]
    by (destruct (scan_returns h 1%positive bl _ Hbl Hlive Hself) as [-> | ->]; eauto).
  destruct (scan_keeps h 1%positive bl _ hs Hbl Hscan)
    as (Hps & Hfs & _ & bl1 & Hbl1 & Hsp' & Hpt & Hys & Hxs).
  pose proof Hcx as (Hx & Hvx & _). pose proof Hcy as (Hy & Hvy & _).
  (* what the scan left of XSpeed *)
  assert (exists vx1, XSpeed bl1 = float64_of_int vx1
            /\ (vx1 = vx
                \/ (vx1 = - vx
                    /\ ((0 <= x + vx + 10 /\ x + vx <= 0 + 10)
                        \/ (310 <= x + vx + 10 /\ x + vx <= 310 + 10))))%Z)
    as (vx1 & HVX1 & Hvx1).
  { destruct Hxs as [[Hsame _]|(Hflip & c & Hin & cX & cY & HL & _ & Hnext)].
    - exists vx. split; [congruence|auto].
    - exists (- vx)%Z. split.
      + rewrite Hflip, mul_neg_one, HVX. apply of_int_opp; lia.
      + right. split; [reflexivity|].
        destruct Hin as [<-|[<-|[]]].
        * rewrite HL1 in HL. injection HL as <- <-.
          apply (next_tick_X_int h bl _ _ _ x vx 0 10 Hsp) in Hnext;
            cbn [MaxX] in *; auto; lia.
        * rewrite HL2 in HL. injection HL as <- <-.
          apply (next_tick_X_int h bl _ _ _ x vx (320 - 10) 10 Hsp) in Hnext;
            cbn [MaxX] in *; auto; lia. }
  assert (Hvx1u : (vx1 = 1 \/ vx1 = -1)%Z) by lia.
  assert (Hsp1 : Ball_Sprite bl1 = Some {| MaxX := 10; MaxY := 10 |}) by (rewrite Hsp'; exact Hsp).
  destruct (edges_int bl1 _ x y vx1 vy Hsp1) as (bl' & He & Hs' & Hvx' & Hvy' & Hx' & Hy');
    rewrite ?Hpt, ?Hys; cbn [MaxX MaxY]; auto; try lia.
  cbn [MaxX MaxY] in *. unfold screenWidth, screenHeight in *.
  change (320 - 10)%Z with 310%Z in *. change (240 - 10)%Z with 230%Z in *.
  exists (store_ball hs 1%positive bl'), bl'.
  split; [unfold Ball_Update; rewrite Hscan; cbn [bind];
          rewrite (deref_Some _ _ _ Hbl1); cbn [bind]; rewrite He; reflexivity|].
  cbn [store_ball players followers balls].
  split; [exact Hps|]. split; [exact Hfs|]. split; [apply lookup_insert_eq|].
  split; [rewrite Hs'; exact Hsp1|].
  eexists _, _, _, _. split; [exact Hx'|]. split; [exact Hy'|].
  split; [exact Hvx'|]. split; [exact Hvy'|].
  unfold screenWidth, screenHeight, ballWidth.
  change (320 + 1)%Z with 321%Z. change (240 - 10)%Z with 230%Z.
  split; [apply (game_x_step x vx vx1); assumption|apply confined_step; [lia|assumption]].
Qed.

(** One tick of the game from a state in shape. *)
Lemma Game_Update_game_ok (k : Keys) (m : Meter) (h : Heap) :
  game_ok h ->
  exists h' out, Game_Update k m game h = Ret (h', out) /\ game_ok h'.
Proof.
  intros ((pl1 & Hp1 & Hok1) & (pl2 & Hp2 & Hok2)
          & (fb & Hfb & HfbB & HfbP & Hwin) & (bl & Hbl & Hball)).
  unfold Game_Update, game. cbn [player1 player2 ball].
  (* the keyboard paddle *)
  pose proof Hok1 as (_ & _ & Hc1 & _).
  rewrite (Player_Update_keyboard k h 1%positive pl1 Hp1 Hc1).
  destruct (paddle_step_ok (ArrowKeys_Input k) pl1 _ _ Hok1) as (pl1' & -> & Hok1').
  cbn [bind].
  set (h1 := store_player h 1%positive pl1').
  assert (Hp2' : players h1 !! 2%positive = Some pl2)
    by (subst h1; cbn [store_player players]; rewrite lookup_insert_ne by discriminate; exact Hp2).
  (* the paddle of the controller *)
  assert (Hlive : live_refs fb h1)
    by (split; [rewrite HfbB; exists bl; exact Hbl|rewrite HfbP; exists pl2; exact Hp2']).
  destruct (FollowBall_Input_live h1 fb Hlive) as (d & fb' & Hi).
  pose proof Hok2 as (_ & _ & Hc2 & _).
  rewrite (Player_Update_follow k h1 2%positive 1%positive pl2 fb fb' d Hp2' Hc2 Hfb Hi).
  destruct (paddle_step_ok d pl2 _ _ Hok2) as (pl2' & -> & Hok2').
  cbn [bind].
  set (h2 := store_player (store_follower h1 1%positive fb') 2%positive pl2').
  assert (Hq1 : players h2 !! 1%positive = Some pl1')
    by (subst h2 h1; cbn [store_player store_follower players];
        rewrite lookup_insert_ne by discriminate; apply lookup_insert_eq).
  assert (Hq2 : players h2 !! 2%positive = Some pl2')
    by (subst h2; cbn [store_player players]; apply lookup_insert_eq).
  assert (Hb2 : balls h2 !! 1%positive = Some bl) by exact Hbl.
  assert (Hf2 : followers h2 !! 1%positive = Some fb')
    by (subst h2; cbn [store_player store_follower followers]; apply lookup_insert_eq).
  (* the ball *)
  destruct (ball_tick_ok h2 pl1' pl2' ArrowKeysPtr (FollowBallPtr 1%positive) bl)
    as (h3 & bl' & Hu & Hps & Hfs & Hbl' & Hball'); try assumption.
  rewrite Hu. cbn [bind]. eexists _, _. split; [reflexivity|].
  unfold game_ok. rewrite Hps, Hfs.
  split; [exists pl1'; split; [exact Hq1|exact Hok1']|].
  split; [exists pl2'; split; [exact Hq2|exact Hok2']|].
  split; [|exists bl'; auto].
  exists fb'. destruct (FollowBall_Input_pointers _ _ _ _ Hi) as [HB HP].
  split; [exact Hf2|]. split; [congruence|]. split; [congruence|].
  exact (window_ok_step _ _ _ _ Hwin Hi).
Qed.

Lemma setup_game_ok : game_ok setup.
Proof.
  unfold game_ok, paddle_ok, ball_ok, confined, window_ok.
  split; [eexists; split; [reflexivity|]|split; [eexists; split; [reflexivity|]|split]].
  - repeat split. exists 0%Z. split; [reflexivity|vm_compute; split; discriminate].
  - repeat split. exists 190%Z. split; [reflexivity|vm_compute; split; discriminate].
  - eexists. repeat split; try reflexivity; vm_compute; discriminate.
  - eexists. split; [reflexivity|]. split; [reflexivity|].
    exists 155%Z, 115%Z, 1%Z, 1%Z. repeat split; try reflexivity; auto;
      try (vm_compute; discriminate); intros [=].
Qed.

(** ** The paddle stays on the screen, for all binary64 values *)

(** [Player.Update]'s two tests keep a paddle of height 112 or less on
    the screen, whatever binary64 values Y and Speed hold. *)
Lemma Player_move_within_screen (dir : Direction) (pl pl' : Player) (img : Image) :
  Player_Sprite pl = Some img ->
  (0 <= MaxY img <= 112)%Z ->
  (0 <=? Player_Speed pl)%float = true ->
  within_screen (Y (Player_Point pl)) (MaxY img) ->
  Player_move dir pl = Ret pl' ->
  within_screen (Y (Player_Point pl')) (MaxY img)
  /\ X (Player_Point pl') = X (Player_Point pl)
  /\ Player_Speed pl' = Player_Speed pl
  /\ Player_Sprite pl' = Player_Sprite pl
  /\ Player_Controller pl' = Player_Controller pl.
Proof.
  intros Himg HH Hs Hw Hm. destruct dir.
  - rewrite Player_move_Up in Hm. injection Hm as <-.
    destruct (0 <=? Y (Player_Point pl) - Player_Speed pl * 2)%float eqn:G; [|auto].
    split; [|destruct pl as [sp [x y] c s]; auto].
    destruct pl as [sp [x y] c s]. cbn [set_Y Player_Point Player_Speed Y] in *.
    apply up_within_screen; [unfold screenHeight; lia|assumption ..].
  - rewrite Player_move_Down in Hm.
    rewrite (Player_Height_Some _ _ Himg) in Hm. cbn [bind] in Hm. injection Hm as <-.
    destruct (Y (Player_Point pl) + float64_of_int (MaxY img) + Player_Speed pl * 2
              <=? float64_of_int screenHeight)%float eqn:G; [|auto].
    split; [|destruct pl as [sp [x y] c s]; auto].
    destruct pl as [sp [x y] c s]. cbn [set_Y Player_Point Player_Speed Y] in *.
    apply down_within_screen; assumption.
  - rewrite Player_move_Nothing in Hm. injection Hm as <-. auto.
Qed.

(** ** The claims *)

(** *** Player.Update *)

(** C9. A player whose Controller is nil is left as it was by
    Player.Update: the call returns and the heap, hence X, Y, Speed and
    Sprite of the player, is the one before the call. *)
Theorem Player_Update_nil_controller (k : Keys) (h : Heap) (p : loc) (pl : Player) :
  players h !! p = Some pl ->
  Player_Controller pl = NilController ->
  Player_Update k h p = Ret h
  /\ forall h', Player_Update k h p = Ret h' -> players h' !! p = Some pl.
Proof.
  intros Hp Hc. unfold Player_Update. rewrite (deref_Some _ _ _ Hp). simpl.
  rewrite Hc. split; [reflexivity|]. intros h' [= <-]. exact Hp.
Qed.

Lemma Player_Update_nil_controller_witness :
  Player_Update no_key (store_player setup 3%positive
      {| Player_Sprite := playerSprite; Player_Point := {| X := 0%float; Y := 0%float |};
         Player_Controller := NilController; Player_Speed := 2%float |}) 3%positive
  = Ret (store_player setup 3%positive
      {| Player_Sprite := playerSprite; Player_Point := {| X := 0%float; Y := 0%float |};
         Player_Controller := NilController; Player_Speed := 2%float |}).
Proof.
  eapply proj1, Player_Update_nil_controller; reflexivity.
Defined.

(** *** FollowBall.Input *)

(** The constant of the source: the float product 0.6 * 320 is also 192. *)
Lemma sight_is_0_6_screenWidth :
  sight = (0x1.3333333333333p-1 * float64_of_int screenWidth)%float.
Proof. reflexivity. Qed.

(** C6. A controller with no commit window open (count = 0) whose ball is
    at least 0.6 * screenWidth away from the paddle horizontally returns
    Nothing and is left unchanged, so its counter stays 0. *)
Theorem FollowBall_Input_out_of_sight (h : Heap) (fb : FollowBall) (bl : Ball) (pl : Player) :
  count fb = 0%Z ->
  balls h !! FollowBall_Ball fb = Some bl ->
  players h !! FollowBall_Player fb = Some pl ->
  (abs (X (Ball_Point bl) - X (Player_Point pl)) >=? sight)%float = true ->
  exists fb', FollowBall_Input h fb = Ret (Nothing, fb') /\ count fb' = 0%Z /\ fb' = fb.
Proof.
  intros Hc Hb Hp Hfar. exists fb. split; [|split; [exact Hc|reflexivity]].
  unfold FollowBall_Input. rewrite (deref_Some _ _ _ Hb). simpl.
  rewrite (deref_Some _ _ _ Hp). simpl. rewrite Hc. simpl.
  rewrite (leb_true_ltb_false _ _ Hfar). reflexivity.
Qed.

Lemma FollowBall_Input_out_of_sight_witness :
  exists fb',
    FollowBall_Input (store_ball setup 1%positive (ball_at 100 115 1 1)) follower
    = Ret (Nothing, fb')
    /\ count fb' = 0%Z /\ fb' = follower.
Proof.
  eapply FollowBall_Input_out_of_sight; reflexivity.
Defined.

(** *** Ball.Update: the two predicates of the loop body *)

(** C8, as the spec words it, fails: the ball that straddles the top of
    the left paddle overlaps it as a box, and inPaddle is false. *)
Lemma inPaddle_is_not_overlap :
  let bl := ball_at 5 49 (-1) 1 in
  balls straddling !! 1%positive = Some bl
  /\ Width bl = Ret (float64_of_int ballWidth) /\ Height bl = Ret (float64_of_int ballWidth)
  /\ Collider_Location straddling (PlayerPtr 1%positive) = Ret (0%float, 50%float)
  /\ Collider_Width straddling (PlayerPtr 1%positive) = Ret (float64_of_int playerWidth)
  /\ Collider_Height straddling (PlayerPtr 1%positive) = Ret (float64_of_int playerHeight)
  /\ aabb_overlap (X (Ball_Point bl)) (Y (Ball_Point bl))
       (float64_of_int ballWidth) (float64_of_int ballWidth)
       0 50 (float64_of_int playerWidth) (float64_of_int playerHeight) = true
  /\ inPaddle straddling bl (PlayerPtr 1%positive) 0 50 = Ret false.
Proof. repeat split; reflexivity. Qed.

(** C8, amended. Where the sizes of the ball and of the collider can be
    read (no Sprite is nil), inPaddle holds exactly when the X extents of
    the two boxes intersect and the Y extent of the ball lies within the Y
    extent of the collider; inPaddle holds only where all four sizes can
    be read; and inPaddleNextTick is, in every case, the same test on the
    ball moved by (XSpeed, YSpeed). *)
Theorem inPaddle_tests (h : Heap) (bl : Ball) (c : Collider) (cX cY bW bH cW cH : float) :
  Width bl = Ret bW -> Height bl = Ret bH ->
  Collider_Width h c = Ret cW -> Collider_Height h c = Ret cH ->
  inPaddle h bl c cX cY
  = Ret (extents_intersect (X (Ball_Point bl)) (X (Ball_Point bl) + bW)%float
           cX (cX + cW)%float
         && extent_within (Y (Ball_Point bl)) (Y (Ball_Point bl) + bH)%float
              cY (cY + cH)%float)
  /\ (forall bl0 c0 x y,
        inPaddle h bl0 c0 x y = Ret true ->
        exists bW0 bH0 cW0 cH0,
          Width bl0 = Ret bW0 /\ Height bl0 = Ret bH0
          /\ Collider_Width h c0 = Ret cW0 /\ Collider_Height h c0 = Ret cH0
          /\ extents_intersect (X (Ball_Point bl0)) (X (Ball_Point bl0) + bW0)%float
               x (x + cW0)%float = true
          /\ extent_within (Y (Ball_Point bl0)) (Y (Ball_Point bl0) + bH0)%float
               y (y + cH0)%float = true)
  /\ (forall bl0 c0 x y, inPaddleNextTick h bl0 c0 x y = inPaddle h (moved bl0) c0 x y).
Proof.
  intros HbW HbH HcW HcH.
  assert (Hgeo : forall bl0 c0 x y bW0 bH0 cW0 cH0,
            Width bl0 = Ret bW0 -> Height bl0 = Ret bH0 ->
            Collider_Width h c0 = Ret cW0 -> Collider_Height h c0 = Ret cH0 ->
            inPaddle h bl0 c0 x y
            = Ret (extents_intersect (X (Ball_Point bl0)) (X (Ball_Point bl0) + bW0)%float
                     x (x + cW0)%float
                   && extent_within (Y (Ball_Point bl0)) (Y (Ball_Point bl0) + bH0)%float
                        y (y + cH0)%float)).
  { intros bl0 c0 x y bW0 bH0 cW0 cH0 H1 H2 H3 H4.
    rewrite (inPaddle_sized _ _ _ _ _ _ _ _ _ H1 H2 H3 H4).
    unfold extents_intersect, extent_within. do 2 f_equal. apply andb_comm. }
  split; [apply Hgeo; assumption|]. split; [|reflexivity].
  intros bl0 c0 x y Ht.
  destruct (inPaddle_true _ _ _ _ _ Ht) as (bW0 & bH0 & cW0 & cH0 & H1 & H2 & H3 & H4).
  rewrite (Hgeo _ _ _ _ _ _ _ _ H1 H2 H3 H4) in Ht. injection Ht as Ht.
  apply andb_prop in Ht as [Hx Hy]. exists bW0, bH0, cW0, cH0. auto 10.
Qed.

Lemma inPaddle_tests_witness :
  let bl := ball_at 5 60 (-1) 1 in
  inPaddle straddling bl (PlayerPtr 1%positive) 0 50
  = Ret (extents_intersect (X (Ball_Point bl))
           (X (Ball_Point bl) + float64_of_int ballWidth)%float
           0 (0 + float64_of_int playerWidth)%float
         && extent_within (Y (Ball_Point bl))
              (Y (Ball_Point bl) + float64_of_int ballWidth)%float
              50 (50 + float64_of_int playerHeight)%float)
  /\ (forall bl0 c0 x y,
        inPaddle straddling bl0 c0 x y = Ret true ->
        exists bW0 bH0 cW0 cH0,
          Width bl0 = Ret bW0 /\ Height bl0 = Ret bH0
          /\ Collider_Width straddling c0 = Ret cW0 /\ Collider_Height straddling c0 = Ret cH0
          /\ extents_intersect (X (Ball_Point bl0)) (X (Ball_Point bl0) + bW0)%float
               x (x + cW0)%float = true
          /\ extent_within (Y (Ball_Point bl0)) (Y (Ball_Point bl0) + bH0)%float
               y (y + cH0)%float = true)
  /\ (forall bl0 c0 x y,
        inPaddleNextTick straddling bl0 c0 x y = inPaddle straddling (moved bl0) c0 x y).
Proof.
  intros bl. apply inPaddle_tests; reflexivity.
Defined.

(** *** Ball.Update: the collider scan *)

(** C1, as the spec words it, fails: in [straddling] the box of the ball
    overlaps the box of the left paddle, and the scan bounces the ball off
    that paddle. *)
Lemma overlapping_ball_is_bounced :
  let bl := ball_at 5 49 (-1) 1 in
  balls straddling !! 1%positive = Some bl
  /\ Width bl = Ret (float64_of_int ballWidth) /\ Height bl = Ret (float64_of_int ballWidth)
  /\ Collider_Location straddling (PlayerPtr 1%positive) = Ret (0%float, 50%float)
  /\ Collider_Width straddling (PlayerPtr 1%positive) = Ret (float64_of_int playerWidth)
  /\ Collider_Height straddling (PlayerPtr 1%positive) = Ret (float64_of_int playerHeight)
  /\ aabb_overlap (X (Ball_Point bl)) (Y (Ball_Point bl))
       (float64_of_int ballWidth) (float64_of_int ballWidth)
       0 50 (float64_of_int playerWidth) (float64_of_int playerHeight) = true
  /\ scan straddling 1%positive [PlayerPtr 1%positive]
     = Ret (store_ball straddling 1%positive (ball_at 5 49 1 1)).
Proof. repeat split; reflexivity. Qed.

(** C1, amended. The scan of Ball.Update, when it returns, either leaves
    the heap as it was, and then no collider of the list passes the test
    "not inPaddle now, inPaddleNextTick", or it stops at the first collider
    that passes this test, multiplies XSpeed by -1 once and changes nothing
    else; the colliders behind that one are not looked at.  The test is
    that of the code (the Y extent of the ball inside that of the
    collider), not a test for overlapping boxes: a ball for which inPaddle
    holds is not bounced off that collider. *)
Theorem scan_edge_triggered (h : Heap) (b : loc) (bl : Ball) (cs : list Collider) (h' : Heap) :
  balls h !! b = Some bl ->
  scan h b cs = Ret h' ->
  (h' = h /\ Forall (fun c => ~ hits h bl c) cs)
  \/ (exists pre c post cX cY cW cH,
        cs = pre ++ c :: post
        /\ Forall (fun c' => ~ hits h bl c') pre
        /\ Collider_Location h c = Ret (cX, cY)
        /\ Collider_Width h c = Ret cW /\ Collider_Height h c = Ret cH
        /\ inPaddle h bl c cX cY = Ret false
        /\ inPaddleNextTick h bl c cX cY = Ret true
        /\ h' = store_ball h b (set_XSpeed bl (XSpeed bl * -1)%float)
        /\ forall post', scan h b (pre ++ c :: post') = Ret h').
Proof.
  intros Hb Hs.
  destruct (scan_cases h b bl cs h' Hb Hs) as [Hsame|(pre & c & post & -> & Hpre & Hhit & ->)];
    [left; exact Hsame|right].
  pose proof Hhit as (cX & cY & HL & Hin & Hnext).
  pose proof Hnext as Hsz. rewrite inPaddleNextTick_moved in Hsz.
  apply inPaddle_true in Hsz as (_ & _ & cW & cH & _ & _ & HW & HH).
  exists pre, c, post, cX, cY, cW, cH. repeat split; try assumption; try reflexivity.
  (* the colliders behind [c] play no part *)
  intros post'. revert Hs.
  induction Hpre as [|a pre Ha Hpre IH]; intros Hs; cbn [app] in *.
  - destruct (scan_cons_Ret _ _ _ _ _ _ Hb Hs) as [Hself _].
    apply scan_cons_hit; assumption.
  - destruct (scan_cons_Ret _ _ _ _ _ _ Hb Hs) as [Hself Hlive].
    rewrite (scan_cons_miss h b bl) in Hs |- * by assumption. apply IH, Hs.
Qed.

Lemma scan_edge_triggered_witness :
  let h := store_ball straddling 1%positive (ball_at 11 60 (-1) 1) in
  let bl := ball_at 11 60 (-1) 1 in
  let cs := [PlayerPtr 2%positive; PlayerPtr 1%positive; BallPtr 1%positive] in
  let h' := store_ball h 1%positive (ball_at 11 60 1 1) in
  (h' = h /\ Forall (fun c => ~ hits h bl c) cs)
  \/ (exists pre c post cX cY cW cH,
        cs = pre ++ c :: post
        /\ Forall (fun c' => ~ hits h bl c') pre
        /\ Collider_Location h c = Ret (cX, cY)
        /\ Collider_Width h c = Ret cW /\ Collider_Height h c = Ret cH
        /\ inPaddle h bl c cX cY = Ret false
        /\ inPaddleNextTick h bl c cX cY = Ret true
        /\ h' = store_ball h 1%positive (set_XSpeed bl (XSpeed bl * -1)%float)
        /\ forall post', scan h 1%positive (pre ++ c :: post') = Ret h').
Proof.
  intros h bl cs h'. apply scan_edge_triggered; reflexivity.
Defined.

(** *** Ball.Update: the ball among its colliders *)

(** C2, as the spec words it, fails: in [straddling] the ball is the second
    collider of the list, the first one bounces it, and the call returns. *)
Lemma self_collision_is_skipped_after_a_bounce :
  In (BallPtr 1%positive) [PlayerPtr 1%positive; BallPtr 1%positive]
  /\ Ball_Update straddling 1%positive [PlayerPtr 1%positive; BallPtr 1%positive]
     = Ret (store_ball straddling 1%positive (ball_at 6 50 1 1)).
Proof. split; [right; left; reflexivity | reflexivity]. Qed.

(** C2, amended. When the ball itself is in the collider list and no
    collider before it passes the bounce test, Ball.Update panics instead
    of returning.  The panic is the one of the self-collision guard when
    the loop body runs through for every earlier collider, which it does
    when the ball is the first collider, or when the Sprite of the ball is
    not nil and no earlier collider is nil or has a nil Sprite; otherwise
    it is a nil dereference. *)
Theorem Ball_Update_self_collision (h : Heap) (b : loc) (bl : Ball) (pre post : list Collider) :
  balls h !! b = Some bl ->
  Forall (fun c => ~ hits h bl c) pre ->
  (exists msg, Ball_Update h b (pre ++ BallPtr b :: post) = Panic msg)
  /\ (Forall (probed h bl) pre ->
      Ball_Update h b (pre ++ BallPtr b :: post) = Panic self_collision)
  /\ (pre = [] \/ (is_Some (Ball_Sprite bl) /\ Forall (has_sprite h) pre) ->
      Ball_Update h b (pre ++ BallPtr b :: post) = Panic self_collision)
  /\ (forall msg, Ball_Update h b (pre ++ BallPtr b :: post) = Panic msg ->
      msg = self_collision \/ msg = nil_dereference).
Proof.
  intros Hb Hmiss. destruct (scan_Panic h b bl pre post Hb Hmiss) as [[msg H1] H2].
  unfold Ball_Update. split; [|split; [|split]].
  - exists msg. rewrite H1. reflexivity.
  - intros Hlive. rewrite (H2 Hlive). reflexivity.
  - intros Hs. rewrite H2; [reflexivity|]. destruct Hs as [->|[Hsp Hall]]; [constructor|].
    eapply Forall_impl; [exact Hall|]. intros c Hc. apply probed_intro; assumption.
  - rewrite H1. cbn [bind]. intros m [= <-]. eapply scan_Panic_msg, H1.
Qed.

Lemma setup_paddles_miss :
  Forall (fun c => ~ hits setup (ball_at 155 115 1 1) c) [PlayerPtr 1%positive; PlayerPtr 2%positive].
Proof.
  repeat constructor; intros (cX & cY & HL & Hi & Hn); injection HL as <- <-; discriminate Hn.
Qed.

Lemma Ball_Update_self_collision_witness :
  Ball_Update setup 1%positive
    ([PlayerPtr 1%positive; PlayerPtr 2%positive] ++ BallPtr 1%positive :: [])
  = Panic self_collision.
Proof.
  eapply (proj1 (proj2 (proj2 (Ball_Update_self_collision setup 1%positive (ball_at 155 115 1 1)
                         [PlayerPtr 1%positive; PlayerPtr 2%positive] [] _ _)))).
  right. split; [eexists; reflexivity|].
  repeat constructor; eexists _, _; split; reflexivity.
  Unshelve.
  - reflexivity.
  - exact setup_paddles_miss.
Defined.

(** *** Ball.Update: the speeds *)

(** C5. A call of Ball.Update that returns leaves the absolute value of
    XSpeed and the absolute value of YSpeed as they were: the same
    float64, also when a speed is an infinity, a zero or NaN. *)
Theorem Ball_Update_conserves_speed (h : Heap) (b : loc) (cs : list Collider) (h' : Heap) :
  Ball_Update h b cs = Ret h' ->
  exists bl bl',
    balls h !! b = Some bl /\ balls h' !! b = Some bl'
    /\ abs (XSpeed bl') = abs (XSpeed bl)
    /\ abs (YSpeed bl') = abs (YSpeed bl).
Proof.
  intros Hu. apply Ball_Update_Ret in Hu as (h1 & bl & bl1 & bl' & Hbl & Hscan & Hbl1 & He & ->).
  exists bl, bl'. split; [assumption|].
  split; [apply lookup_insert_eq|].
  assert (Hsp : abs (XSpeed bl1) = abs (XSpeed bl) /\ YSpeed bl1 = YSpeed bl).
  { destruct (scan_cases _ _ _ _ _ Hbl Hscan) as [[-> _]|(pre & c & post & _ & _ & _ & ->)].
    - rewrite Hbl in Hbl1. injection Hbl1 as <-. auto.
    - simpl in Hbl1. rewrite lookup_insert_eq in Hbl1. injection Hbl1 as <-. simpl.
      rewrite mul_neg_one, abs_opp. auto. }
  destruct Hsp as [HX HY].
  apply edges_and_move_Ret in He as (ex & ey & _ & _ & _ & -> & -> & _).
  rewrite <- HX, <- HY.
  split; [destruct ex|destruct ey]; rewrite ?abs_opp; reflexivity.
Qed.

Lemma Ball_Update_conserves_speed_witness :
  exists bl bl',
    balls cornered !! 1%positive = Some bl
    /\ balls (store_ball cornered 1%positive (ball_at (-1) 50 (-1) 1)) !! 1%positive = Some bl'
    /\ abs (XSpeed bl') = abs (XSpeed bl)
    /\ abs (YSpeed bl') = abs (YSpeed bl).
Proof.
  apply (Ball_Update_conserves_speed cornered 1%positive [PlayerPtr 1%positive; PlayerPtr 2%positive]).
  reflexivity.
Defined.

(** *** Ball.Update: the screen edges *)

(** C7, as the spec words it, fails: in [cornered] the ball is at X = 0
    with XSpeed = -1; the left paddle bounces it and the edge reverses it
    again, so XSpeed is -1 after the call and the ball leaves the screen. *)
Lemma edge_flip_undone_by_bounce :
  balls cornered !! 1%positive = Some (ball_at 0 49 (-1) 1)
  /\ Ball_Update cornered 1%positive [PlayerPtr 1%positive; PlayerPtr 2%positive]
     = Ret (store_ball cornered 1%positive (ball_at (-1) 50 (-1) 1))
  /\ (0 <? XSpeed (ball_at (-1) 50 (-1) 1))%float = false.
Proof. repeat split; reflexivity. Qed.

(** C7, amended. When Ball.Update returns, both edge tests have been
    evaluated on the position before the call, with the answers [ex] for
    left or right and [ey] for top or bottom.  YSpeed is reversed exactly
    when [ey] holds, whatever the scan did.  XSpeed is what the scan left,
    reversed exactly when [ex] holds: when no collider passes the bounce
    test that is XSpeed, reversed at the edge; when one does it is
    XSpeed * -1, reversed at the edge, hence XSpeed again.  So a ball on
    the left edge that moves left ends with XSpeed positive when no
    collider bounces it that tick, and with XSpeed as it was when one
    does.  The tests are those the program computes: X <= 0 or the rounded
    sum X + Width() >= screenWidth, and likewise for Y.  They answer yes
    whenever the box touches or crosses an edge, on every binary64
    position: X <= 0, or X + width >= screenWidth as an inequality
    between the exact values; and on integer positions below 2^50 they
    answer yes exactly then. *)
Theorem Ball_Update_edges (h : Heap) (b : loc) (bl : Ball) (cs : list Collider) (h' : Heap) :
  balls h !! b = Some bl ->
  Ball_Update h b cs = Ret h' ->
  exists bl' ex ey,
    balls h' !! b = Some bl'
    /\ at_x_edge bl = Ret ex /\ at_y_edge bl = Ret ey
    /\ ((Forall (fun c => ~ hits h bl c) cs
         /\ XSpeed bl' = (if ex then (- XSpeed bl)%float else XSpeed bl))
        \/ (Exists (hits h bl) cs
            /\ XSpeed bl' = (if ex then (- (XSpeed bl * -1))%float else (XSpeed bl * -1)%float)))
    /\ YSpeed bl' = (if ey then (- YSpeed bl)%float else YSpeed bl)
    /\ ((X (Ball_Point bl) <=? 0)%float = true -> (XSpeed bl <? 0)%float = true ->
        ex = true
        /\ (Forall (fun c => ~ hits h bl c) cs -> (0 <? XSpeed bl')%float = true)
        /\ (Exists (hits h bl) cs -> XSpeed bl' = XSpeed bl))
    /\ (forall img x y,
          Ball_Sprite bl = Some img ->
          X (Ball_Point bl) = float64_of_int x -> Y (Ball_Point bl) = float64_of_int y ->
          (Z.abs x <= 2 ^ 50)%Z -> (Z.abs y <= 2 ^ 50)%Z ->
          (0 <= MaxX img <= 2 ^ 50)%Z -> (0 <= MaxY img <= 2 ^ 50)%Z ->
          ex = (x <=? 0)%Z || (screenWidth <=? x + MaxX img)%Z
          /\ ey = (y <=? 0)%Z || (screenHeight <=? y + MaxY img)%Z)
    /\ ((X (Ball_Point bl) <=? 0)%float = true -> ex = true)
    /\ ((Y (Ball_Point bl) <=? 0)%float = true -> ey = true)
    /\ (forall img,
          Ball_Sprite bl = Some img ->
          ((0 <= MaxX img < 2 ^ 53)%Z ->
           finite64 (X (Ball_Point bl)) = true ->
           Qle_bool (inject_Z screenWidth)
                    (exact_value (X (Ball_Point bl)) + inject_Z (MaxX img)) = true ->
           ex = true)
          /\ ((0 <= MaxY img < 2 ^ 53)%Z ->
              finite64 (Y (Ball_Point bl)) = true ->
              Qle_bool (inject_Z screenHeight)
                       (exact_value (Y (Ball_Point bl)) + inject_Z (MaxY img)) = true ->
              ey = true)).
Proof.
  intros Hbl Hu.
  apply Ball_Update_Ret in Hu as (h1 & bl0 & bl1 & bl' & Hbl0 & Hscan & Hbl1 & He & ->).
  rewrite Hbl in Hbl0. injection Hbl0 as <-.
  apply edges_and_move_Ret in He as (ex & ey & Hex & Hey & _ & HVX & HVY & _).
  assert (Hint : forall img x y,
            Ball_Sprite bl = Some img ->
            X (Ball_Point bl) = float64_of_int x -> Y (Ball_Point bl) = float64_of_int y ->
            (Z.abs x <= 2 ^ 50)%Z -> (Z.abs y <= 2 ^ 50)%Z ->
            (0 <= MaxX img <= 2 ^ 50)%Z -> (0 <= MaxY img <= 2 ^ 50)%Z ->
            at_x_edge bl = Ret ex -> at_y_edge bl = Ret ey ->
            ex = (x <=? 0)%Z || (screenWidth <=? x + MaxX img)%Z
            /\ ey = (y <=? 0)%Z || (screenHeight <=? y + MaxY img)%Z).
  { intros img x y Hs HX HY Hx Hy Hw Hg Hex' Hey'.
    rewrite (at_x_edge_int bl img x) in Hex' by assumption.
    rewrite (at_y_edge_int bl img y) in Hey' by assumption.
    injection Hex' as <-. injection Hey' as <-. auto. }
  assert (Hleft : (X (Ball_Point bl) <=? 0)%float = true -> at_x_edge bl = Ret ex -> ex = true)
    by (intros Hedge; apply at_x_edge_left, Hedge).
  assert (Hexact : at_x_edge bl = Ret ex -> at_y_edge bl = Ret ey ->
            ((X (Ball_Point bl) <=? 0)%float = true -> ex = true)
            /\ ((Y (Ball_Point bl) <=? 0)%float = true -> ey = true)
            /\ (forall img,
                  Ball_Sprite bl = Some img ->
                  ((0 <= MaxX img < 2 ^ 53)%Z ->
                   finite64 (X (Ball_Point bl)) = true ->
                   Qle_bool (inject_Z screenWidth)
                            (exact_value (X (Ball_Point bl)) + inject_Z (MaxX img)) = true ->
                   ex = true)
                  /\ ((0 <= MaxY img < 2 ^ 53)%Z ->
                      finite64 (Y (Ball_Point bl)) = true ->
                      Qle_bool (inject_Z screenHeight)
                               (exact_value (Y (Ball_Point bl)) + inject_Z (MaxY img)) = true ->
                      ey = true))).
  { intros Hex' Hey'. split; [intros Hedge; exact (at_x_edge_left _ _ Hedge Hex')|].
    split; [intros Hedge; exact (at_y_edge_top _ _ Hedge Hey')|].
    intros img Hs. split; intros Hw Hf Hq.
    - rewrite (at_x_edge_exact bl img Hs Hw Hf Hq) in Hex'. congruence.
    - rewrite (at_y_edge_exact bl img Hs Hw Hf Hq) in Hey'. congruence. }
  exists bl', ex, ey. split; [apply lookup_insert_eq|].
  destruct (scan_cases _ _ _ _ _ Hbl Hscan) as [[-> Hall]|(pre & c & post & -> & Hpre & Hhit & ->)].
  - rewrite Hbl in Hbl1. injection Hbl1 as <-.
    split; [exact Hex|]. split; [exact Hey|]. split; [left; auto|]. split; [exact HVY|].
    split; [|split; [intros; eapply Hint; eassumption|apply Hexact; assumption]].
    intros Hedge Hneg. pose proof (Hleft Hedge Hex) as ->. split; [reflexivity|]. split.
    + intros _. rewrite HVX. apply ltb_zero_opp, Hneg.
    + intros Hex'. exfalso. apply Exists_exists in Hex' as (c & Hc & Hhit).
      rewrite Forall_forall in Hall. exact (Hall c Hc Hhit).
  - cbn [store_ball balls] in Hbl1. rewrite lookup_insert_eq in Hbl1. injection Hbl1 as <-.
    rewrite at_x_edge_set_XSpeed in Hex. rewrite at_y_edge_set_XSpeed in Hey.
    cbn [set_XSpeed XSpeed YSpeed] in HVX, HVY.
    assert (Hany : Exists (hits h bl) (pre ++ c :: post))
      by (apply Exists_app; right; left; exact Hhit).
    split; [exact Hex|]. split; [exact Hey|]. split; [right; auto|]. split; [exact HVY|].
    split; [|split; [intros; eapply Hint; eassumption|apply Hexact; assumption]].
    intros Hedge Hneg. pose proof (Hleft Hedge Hex) as ->. split; [reflexivity|]. split.
    + intros Hall. exfalso. rewrite Forall_forall in Hall.
      apply (Hall c); [apply elem_of_app; right; left|exact Hhit].
    + intros _. rewrite HVX, mul_neg_one. apply opp_involutive.
Qed.

Lemma Ball_Update_edges_witness :
  let h := store_ball setup 1%positive (ball_at 310 115 1 1) in
  let bl := ball_at 310 115 1 1 in
  let cs := [PlayerPtr 1%positive; PlayerPtr 2%positive] in
  exists bl' ex ey,
    balls (store_ball h 1%positive (ball_at 309 116 (-1) 1)) !! 1%positive = Some bl'
    /\ at_x_edge bl = Ret ex /\ at_y_edge bl = Ret ey
    /\ ((Forall (fun c => ~ hits h bl c) cs
         /\ XSpeed bl' = (if ex then (- XSpeed bl)%float else XSpeed bl))
        \/ (Exists (hits h bl) cs
            /\ XSpeed bl' = (if ex then (- (XSpeed bl * -1))%float else (XSpeed bl * -1)%float)))
    /\ YSpeed bl' = (if ey then (- YSpeed bl)%float else YSpeed bl)
    /\ ((X (Ball_Point bl) <=? 0)%float = true -> (XSpeed bl <? 0)%float = true ->
        ex = true
        /\ (Forall (fun c => ~ hits h bl c) cs -> (0 <? XSpeed bl')%float = true)
        /\ (Exists (hits h bl) cs -> XSpeed bl' = XSpeed bl))
    /\ (forall img x y,
          Ball_Sprite bl = Some img ->
          X (Ball_Point bl) = float64_of_int x -> Y (Ball_Point bl) = float64_of_int y ->
          (Z.abs x <= 2 ^ 50)%Z -> (Z.abs y <= 2 ^ 50)%Z ->
          (0 <= MaxX img <= 2 ^ 50)%Z -> (0 <= MaxY img <= 2 ^ 50)%Z ->
          ex = (x <=? 0)%Z || (screenWidth <=? x + MaxX img)%Z
          /\ ey = (y <=? 0)%Z || (screenHeight <=? y + MaxY img)%Z)
    /\ ((X (Ball_Point bl) <=? 0)%float = true -> ex = true)
    /\ ((Y (Ball_Point bl) <=? 0)%float = true -> ey = true)
    /\ (forall img,
          Ball_Sprite bl = Some img ->
          ((0 <= MaxX img < 2 ^ 53)%Z ->
           finite64 (X (Ball_Point bl)) = true ->
           Qle_bool (inject_Z screenWidth)
                    (exact_value (X (Ball_Point bl)) + inject_Z (MaxX img)) = true ->
           ex = true)
          /\ ((0 <= MaxY img < 2 ^ 53)%Z ->
              finite64 (Y (Ball_Point bl)) = true ->
              Qle_bool (inject_Z screenHeight)
                       (exact_value (Y (Ball_Point bl)) + inject_Z (MaxY img)) = true ->
              ey = true)).
Proof.
  intros h bl cs. apply (Ball_Update_edges h 1%positive bl cs); reflexivity.
Defined.

(** *** Player.Update: the paddle stays on the screen *)

(** C3, as the spec words it, fails, whether the two bounds are read as
    the program would compute them or as inequalities between the exact
    values.  [fine_paddle], of height 113, has a nonnegative Speed,
    0 <= Y and Y + Height() <= screenHeight as computed; the Down key
    moves it, and afterwards Y + Height() as computed exceeds
    screenHeight.  [unit_paddle], of height 239, satisfies the bounds
    exactly (1 + 239 = 240); the Down key moves it, because 240 + 2^-46
    is rounded to 240, and afterwards Y + Height() is 240 + 2^-47. *)
Lemma rounding_breaks_the_lower_edge :
  (players fine_grained !! 1%positive = Some fine_paddle
   /\ Height fine_paddle = Ret (float64_of_int 113)
   /\ (0 <=? Player_Speed fine_paddle)%float = true
   /\ (0 <=? Y (Player_Point fine_paddle))%float = true
   /\ (Y (Player_Point fine_paddle) + float64_of_int 113
        <=? float64_of_int screenHeight)%float = true
   /\ exists pl',
        Player_Update down_pressed fine_grained 1%positive
        = Ret (store_player fine_grained 1%positive pl')
        /\ Height pl' = Ret (float64_of_int 113)
        /\ (Y (Player_Point pl') + float64_of_int 113
             <=? float64_of_int screenHeight)%float = false)
  /\ (players unit_grained !! 1%positive = Some unit_paddle
      /\ Height unit_paddle = Ret (float64_of_int 239)
      /\ Qle_bool 0 (exact_value (Player_Speed unit_paddle)) = true
      /\ Qle_bool 0 (exact_value (Y (Player_Point unit_paddle))) = true
      /\ Qle_bool (exact_value (Y (Player_Point unit_paddle))
                   + exact_value (float64_of_int 239))
                  (inject_Z screenHeight) = true
      /\ exists pl',
           Player_Update down_pressed unit_grained 1%positive
           = Ret (store_player unit_grained 1%positive pl')
           /\ Height pl' = Ret (float64_of_int 239)
           /\ Qle_bool (exact_value (Y (Player_Point pl'))
                        + exact_value (float64_of_int 239))
                       (inject_Z screenHeight) = false).
Proof.
  split; repeat split.
  - exists {| Player_Sprite := NewImage 10 113;
              Player_Point := {| X := 0%float; Y := (127 + 0x1p-45)%float |};
              Player_Controller := ArrowKeysPtr; Player_Speed := 0x1p-47%float |}.
    repeat split; reflexivity.
  - exists {| Player_Sprite := NewImage 10 239;
              Player_Point := {| X := 0%float; Y := (1 + 0x1p-47)%float |};
              Player_Controller := ArrowKeysPtr; Player_Speed := 0x1p-47%float |}.
    repeat split; reflexivity.
Qed.

(** C3, amended. For every Player whose sprite is at most 112 pixels high
    (the paddles of setup are 50 high), whose Speed is at least 0 and for
    which 0 <= Y and Y + Height() <= screenHeight hold before the call,
    the second as the program computes it or exactly: after
    Player.Update, 0 <= Y and Y + Height() <= screenHeight hold again,
    both as the program computes them and exactly, and X, Speed, Sprite
    and Controller are unchanged, whatever Direction the Controller
    returns.  Y and Speed are arbitrary binary64 values; comparing two
    floats is exact, so 0 <= Y reads the same both ways. *)
Theorem Player_Update_keeps_paddle_on_screen
    (k : Keys) (h : Heap) (p : loc) (pl : Player) (img : Image) (h' : Heap) :
  players h !! p = Some pl ->
  Player_Sprite pl = Some img ->
  (0 <= MaxY img <= 112)%Z ->
  (0 <=? Player_Speed pl)%float = true ->
  (0 <=? Y (Player_Point pl))%float = true ->
  (Y (Player_Point pl) + float64_of_int (MaxY img) <=? float64_of_int screenHeight)%float = true
  \/ (finite64 (Y (Player_Point pl)) = true
      /\ Qle_bool (exact_value (Y (Player_Point pl)) + inject_Z (MaxY img))
                  (inject_Z screenHeight) = true) ->
  Player_Update k h p = Ret h' ->
  exists pl',
    players h' !! p = Some pl'
    /\ Height pl' = Ret (float64_of_int (MaxY img))
    /\ (0 <=? Y (Player_Point pl'))%float = true
    /\ (Y (Player_Point pl') + float64_of_int (MaxY img)
         <=? float64_of_int screenHeight)%float = true
    /\ (Y (Player_Point pl') <=? float64_of_int (screenHeight - MaxY img))%float = true
    /\ finite64 (Y (Player_Point pl')) = true
    /\ Qle_bool (exact_value (Y (Player_Point pl')) + inject_Z (MaxY img))
                (inject_Z screenHeight) = true
    /\ X (Player_Point pl') = X (Player_Point pl)
    /\ Player_Speed pl' = Player_Speed pl
    /\ Player_Sprite pl' = Player_Sprite pl
    /\ Player_Controller pl' = Player_Controller pl.
Proof.
  intros Hp Himg HH Hs Hy0 Hb Hu.
  assert (Hw : within_screen (Y (Player_Point pl)) (MaxY img))
    by (apply within_screen_intro; assumption).
  assert (Hdone : forall pl',
    within_screen (Y (Player_Point pl')) (MaxY img)
    /\ X (Player_Point pl') = X (Player_Point pl)
    /\ Player_Speed pl' = Player_Speed pl
    /\ Player_Sprite pl' = Player_Sprite pl
    /\ Player_Controller pl' = Player_Controller pl ->
    Height pl' = Ret (float64_of_int (MaxY img))
    /\ (0 <=? Y (Player_Point pl'))%float = true
    /\ (Y (Player_Point pl') + float64_of_int (MaxY img)
         <=? float64_of_int screenHeight)%float = true
    /\ (Y (Player_Point pl') <=? float64_of_int (screenHeight - MaxY img))%float = true
    /\ finite64 (Y (Player_Point pl')) = true
    /\ Qle_bool (exact_value (Y (Player_Point pl')) + inject_Z (MaxY img))
                (inject_Z screenHeight) = true
    /\ X (Player_Point pl') = X (Player_Point pl)
    /\ Player_Speed pl' = Player_Speed pl
    /\ Player_Sprite pl' = Player_Sprite pl
    /\ Player_Controller pl' = Player_Controller pl).
  { intros pl' (Hw' & HX & HS & HSp & HC).
    destruct (within_screen_computed (Y (Player_Point pl')) (MaxY img)
                ltac:(unfold screenHeight; lia) Hw')
      as (H1 & H2 & H3 & H4).
    split; [|destruct Hw'; auto 10].
    apply Player_Height_Some. congruence. }
  assert (Hctl : Player_Controller pl = NilController \/ Player_Controller pl <> NilController)
    by (destruct (Player_Controller pl); [left; reflexivity|right; discriminate ..]).
  destruct Hctl as [Hctl|Hctl].
  - unfold Player_Update in Hu. rewrite (deref_Some _ _ _ Hp) in Hu. cbn [bind] in Hu.
    rewrite Hctl in Hu. injection Hu as <-. exists pl. split; [exact Hp|].
    apply Hdone. auto.
  - destruct (Player_Update_step k h p pl h' Hp Hctl Hu) as (dir & h1 & pl' & _ & Hm & ->).
    exists pl'. split; [apply lookup_insert_eq|]. apply Hdone.
    apply (Player_move_within_screen dir pl pl' img); assumption.
Qed.

Lemma Player_Update_keeps_paddle_on_screen_witness :
  let pl := {| Player_Sprite := playerSprite;
               Player_Point := {| X := 310%float; Y := (188.5 + 0x1p-45)%float |};
               Player_Controller := ArrowKeysPtr;
               Player_Speed := 0x1p-1%float |} in
  exists pl',
    players (store_player (store_player setup 2%positive pl) 2%positive
               (set_Y pl (189 + 0x1p-45)%float)) !! 2%positive = Some pl'
    /\ Height pl' = Ret (float64_of_int 50)
    /\ (0 <=? Y (Player_Point pl'))%float = true
    /\ (Y (Player_Point pl') + float64_of_int 50 <=? float64_of_int screenHeight)%float = true
    /\ (Y (Player_Point pl') <=? float64_of_int (screenHeight - 50))%float = true
    /\ finite64 (Y (Player_Point pl')) = true
    /\ Qle_bool (exact_value (Y (Player_Point pl')) + inject_Z 50)
                (inject_Z screenHeight) = true
    /\ X (Player_Point pl') = 310%float
    /\ Player_Speed pl' = 0x1p-1%float
    /\ Player_Sprite pl' = playerSprite
    /\ Player_Controller pl' = ArrowKeysPtr.
Proof.
  intros pl.
  apply (Player_Update_keeps_paddle_on_screen down_pressed
           (store_player setup 2%positive pl) 2%positive pl
           {| MaxX := playerWidth; MaxY := playerHeight |});
    try reflexivity; try (left; reflexivity); vm_compute; split; discriminate.
Defined.

(** *** FollowBall.Input: the commit window *)

(** C4. When a controller with count = 0 returns Up or Down, that
    decision is the one of the heuristic and the counter is set to 15;
    each of the next 15 calls of Input returns that same decision and
    takes one off the counter, whatever the heap holds for the ball and
    the paddle by then (as long as the two pointers are not nil), so the
    counter is back at 0 after them; and the 16th call decides by the
    heuristic again, on the ball and the paddle as they are then, and
    opens a new window of 15 when that says Up or Down. *)
Theorem FollowBall_commit_window
    (h0 : Heap) (fb : FollowBall) (d : Direction) (fb1 : FollowBall) (hs : list Heap) :
  count fb = 0%Z ->
  FollowBall_Input h0 fb = Ret (d, fb1) ->
  d <> Nothing ->
  length hs = 15%nat ->
  Forall (live_refs fb) hs ->
  (exists bl0 pl0,
     balls h0 !! FollowBall_Ball fb = Some bl0 /\ players h0 !! FollowBall_Player fb = Some pl0
     /\ d = heuristic bl0 pl0)
  /\ fb1 = set_count fb d 15
  /\ (forall n, (n <= 15)%nat ->
        FollowBall_Inputs (firstn n hs) fb1
        = Ret (repeat d n, set_count fb d (15 - Z.of_nat n)))
  /\ FollowBall_Inputs hs fb1 = Ret (repeat d 15, set_count fb d 0)
  /\ forall h16 bl pl,
       balls h16 !! FollowBall_Ball fb = Some bl ->
       players h16 !! FollowBall_Player fb = Some pl ->
       FollowBall_Input h16 (set_count fb d 0)
       = Ret (heuristic bl pl,
              match heuristic bl pl with
              | Nothing => set_count fb d 0
              | d' => set_count fb d' 15
              end).
Proof.
  intros Hc Hi Hd Hlen Hlive.
  destruct (FollowBall_Input_Ret_live _ _ _ _ Hi) as [[bl0 Hb0] [pl0 Hp0]].
  rewrite (FollowBall_Input_idle h0 fb bl0 pl0) in Hi by (assumption || lia).
  injection Hi as Hd0 Hfb1. rewrite Hd0 in Hfb1.
  assert (H1 : fb1 = set_count fb d 15).
  { rewrite <- Hfb1, Hc. unfold decisionBuffer. rewrite wrap64_small by lia.
    destruct d; [reflexivity|reflexivity|congruence]. }
  assert (Hrun : forall n, (n <= 15)%nat ->
            FollowBall_Inputs (firstn n hs) fb1
            = Ret (repeat d n, set_count fb d (15 - Z.of_nat n))).
  { intros n Hn. rewrite H1. unfold set_count.
    assert (Hl : length (firstn n hs) = n) by (rewrite length_firstn; lia).
    rewrite window_run_part; [rewrite Hl; reflexivity| |lia].
    apply Forall_take. exact Hlive. }
  split; [exists bl0, pl0; auto|]. split; [exact H1|]. split; [exact Hrun|].
  split.
  - rewrite <- (firstn_all hs) at 1. rewrite Hlen. apply (Hrun 15%nat). lia.
  - intros h16 bl pl Hb Hp.
    rewrite (FollowBall_Input_idle h16 (set_count fb d 0) bl pl)
      by (cbn [set_count count FollowBall_Ball FollowBall_Player]; assumption || lia).
    cbn [set_count count FollowBall_Ball FollowBall_Player lastDecision].
    unfold decisionBuffer. rewrite wrap64_small by lia. reflexivity.
Qed.

Lemma FollowBall_commit_window_witness :
  (exists bl0 pl0,
     balls setup !! FollowBall_Ball follower = Some bl0
     /\ players setup !! FollowBall_Player follower = Some pl0
     /\ Up = heuristic bl0 pl0)
  /\ committed = set_count follower Up 15
  /\ (forall n, (n <= 15)%nat ->
        FollowBall_Inputs (firstn n (repeat ball_low 15)) committed
        = Ret (repeat Up n, set_count follower Up (15 - Z.of_nat n)))
  /\ FollowBall_Inputs (repeat ball_low 15) committed
     = Ret (repeat Up 15, set_count follower Up 0)
  /\ forall h16 bl pl,
       balls h16 !! FollowBall_Ball follower = Some bl ->
       players h16 !! FollowBall_Player follower = Some pl ->
       FollowBall_Input h16 (set_count follower Up 0)
       = Ret (heuristic bl pl,
              match heuristic bl pl with
              | Nothing => set_count follower Up 0
              | d' => set_count follower d' 15
              end).
Proof.
  apply (FollowBall_commit_window setup follower Up committed (repeat ball_low 15)).
  - reflexivity.
  - reflexivity.
  - discriminate.
  - reflexivity.
  - cbv [repeat]. repeat (constructor; [split; eexists; reflexivity|]). constructor.
Defined.

(** C10. Starting from count = 0, after any sequence of calls of Input the
    counter is between 0 and 15, the stored decision is Up or Down
    whenever the counter is positive, and so a call answered from the
    commit window returns Up or Down, never Nothing. *)
Theorem FollowBall_window_invariant
    (hs : list Heap) (fb : FollowBall) (ds : list Direction) (fb' : FollowBall) :
  count fb = 0%Z ->
  FollowBall_Inputs hs fb = Ret (ds, fb') ->
  (0 <= count fb' <= 15)%Z
  /\ ((0 < count fb')%Z -> lastDecision fb' = Up \/ lastDecision fb' = Down)
  /\ forall h d fb'',
       (0 < count fb')%Z -> FollowBall_Input h fb' = Ret (d, fb'') -> d = Up \/ d = Down.
Proof.
  intros Hc Hr.
  assert (Hok : window_ok fb') by (eapply window_ok_run; [|exact Hr]; split; [unfold decisionBuffer|]; lia).
  destruct Hok as [Hcount Hlast]. split; [exact Hcount|]. split; [exact Hlast|].
  intros h d fb'' Hpos Hi.
  apply FollowBall_Input_cases in Hi as [(_ & -> & _)|[(Hle & _)|(Hle & _)]]; [auto|lia|lia].
Qed.

Lemma FollowBall_window_invariant_witness :
  (0 <= count (set_count follower Up 13) <= 15)%Z
  /\ ((0 < count (set_count follower Up 13))%Z ->
      lastDecision (set_count follower Up 13) = Up \/ lastDecision (set_count follower Up 13) = Down)
  /\ forall h d fb'',
       (0 < count (set_count follower Up 13))%Z ->
       FollowBall_Input h (set_count follower Up 13) = Ret (d, fb'') -> d = Up \/ d = Down.
Proof.
  apply (FollowBall_window_invariant [setup; ball_low; setup] follower [Up; Up; Up]); reflexivity.
Defined.

(** ** Beyond the claims *)

(** *** ArrowKeys.Input *)

(** X1. ArrowKeys.Input answers Up exactly when only the up arrow is
    held, Down exactly when only the down arrow is held, and Nothing
    exactly when both arrows or none are held. *)
Theorem ArrowKeys_Input_table (k : Keys) :
  (ArrowKeys_Input k = Up <-> KeyArrowUp k = true /\ KeyArrowDown k = false)
  /\ (ArrowKeys_Input k = Down <-> KeyArrowUp k = false /\ KeyArrowDown k = true)
  /\ (ArrowKeys_Input k = Nothing <-> KeyArrowUp k = KeyArrowDown k).
Proof.
  destruct k as [[|] [|]]; cbn; repeat split; intros; try discriminate; try reflexivity;
    match goal with H : _ /\ _ |- _ => destruct H; discriminate end.
Qed.

(** *** Player.Update, for every float64 *)

(** X2. Player.Update touches nothing but the Y of its player and the
    private fields of that player's controller: the balls, the other
    players, the other controllers, the Ball and Player pointers of its
    own controller, and X, Speed, Sprite and Controller of the player are
    as before, and Y is as before or one Speed less or one Speed more. *)
Theorem Player_Update_frame (k : Keys) (h : Heap) (p : loc) (h' : Heap) :
  Player_Update k h p = Ret h' ->
  balls h' = balls h
  /\ (forall q, q <> p -> players h' !! q = players h !! q)
  /\ exists pl pl',
       players h !! p = Some pl /\ players h' !! p = Some pl'
       /\ X (Player_Point pl') = X (Player_Point pl)
       /\ Player_Speed pl' = Player_Speed pl
       /\ Player_Sprite pl' = Player_Sprite pl
       /\ Player_Controller pl' = Player_Controller pl
       /\ (Y (Player_Point pl') = Y (Player_Point pl)
           \/ Y (Player_Point pl') = (Y (Player_Point pl) - Player_Speed pl)%float
           \/ Y (Player_Point pl') = (Y (Player_Point pl) + Player_Speed pl)%float)
       /\ (forall l, Player_Controller pl <> FollowBallPtr l ->
                     followers h' !! l = followers h !! l)
       /\ (forall l, Player_Controller pl = FollowBallPtr l ->
              exists fb fb',
                followers h !! l = Some fb /\ followers h' !! l = Some fb'
                /\ FollowBall_Ball fb' = FollowBall_Ball fb
                /\ FollowBall_Player fb' = FollowBall_Player fb).
Proof.
  intros Hu.
  assert (exists pl, players h !! p = Some pl) as [pl Hp].
  { unfold Player_Update in Hu. apply bind_Ret in Hu as (pl & Hpl & _).
    exists pl. apply deref_Ret, Hpl. }
  destruct (Player_Controller pl) as [| |l0] eqn:Hctl.
  { unfold Player_Update in Hu. rewrite (deref_Some _ _ _ Hp) in Hu. cbn [bind] in Hu.
    rewrite Hctl in Hu. injection Hu as <-.
    split; [reflexivity|]. split; [reflexivity|]. exists pl, pl. rewrite Hctl.
    repeat split; auto. discriminate. }
  all: destruct (Player_Update_step k h p pl h' Hp) as (dir & h1 & pl' & Hin & Hm & ->);
    [congruence|exact Hu|];
    rewrite Hctl in Hin;
    pose proof (Controller_Input_players _ _ _ _ _ Hin) as Hps;
    destruct (Controller_Input_frame _ _ _ _ _ Hin) as [Hbs Hfs];
    cbn [store_player balls players followers]; (split; [exact Hbs|]);
    (split; [intros q Hq; rewrite lookup_insert_ne by congruence; rewrite Hps; reflexivity|]);
    exists pl, pl'; (split; [exact Hp|]); (split; [apply lookup_insert_eq|]);
    assert (Hown : forall l, Player_Controller pl = FollowBallPtr l ->
              exists fb fb',
                followers h !! l = Some fb /\ followers h1 !! l = Some fb'
                /\ FollowBall_Ball fb' = FollowBall_Ball fb
                /\ FollowBall_Player fb' = FollowBall_Player fb).
  1, 3: intros l Hl; rewrite Hctl in Hl; try discriminate; injection Hl as <-;
    destruct (Controller_Input_own _ _ _ _ _ Hin) as (fb & fb' & Hfb & Hfb' & Hi);
    destruct (FollowBall_Input_pointers _ _ _ _ Hi) as [HB HP]; exists fb, fb'; auto.
  all: destruct (Player_move_cases dir pl pl' Hm) as [-> | [[_ ->] | [_ ->]]];
    cbn [set_Y Player_Point Player_Speed Player_Sprite Player_Controller X Y];
    repeat split; auto; try exact Hown; intros l Hl; apply Hfs; congruence.
Qed.

Lemma Player_Update_frame_witness :
  let h' := store_player (store_follower setup 1%positive committed) 2%positive
              {| Player_Sprite := playerSprite;
                 Player_Point := {| X := 310%float; Y := 188%float |};
                 Player_Controller := FollowBallPtr 1%positive;
                 Player_Speed := 2%float |} in
  balls h' = balls setup
  /\ (forall q, q <> 2%positive -> players h' !! q = players setup !! q)
  /\ exists pl pl',
       players setup !! 2%positive = Some pl /\ players h' !! 2%positive = Some pl'
       /\ X (Player_Point pl') = X (Player_Point pl)
       /\ Player_Speed pl' = Player_Speed pl
       /\ Player_Sprite pl' = Player_Sprite pl
       /\ Player_Controller pl' = Player_Controller pl
       /\ (Y (Player_Point pl') = Y (Player_Point pl)
           \/ Y (Player_Point pl') = (Y (Player_Point pl) - Player_Speed pl)%float
           \/ Y (Player_Point pl') = (Y (Player_Point pl) + Player_Speed pl)%float)
       /\ (forall l, Player_Controller pl <> FollowBallPtr l ->
                     followers h' !! l = followers setup !! l)
       /\ (forall l, Player_Controller pl = FollowBallPtr l ->
              exists fb fb',
                followers setup !! l = Some fb /\ followers h' !! l = Some fb'
                /\ FollowBall_Ball fb' = FollowBall_Ball fb
                /\ FollowBall_Player fb' = FollowBall_Player fb).
Proof.
  intros h'. apply (Player_Update_frame no_key setup 2%positive). reflexivity.
Defined.

(** X3. With both arrow keys held, or none, Player.Update of a player
    steered by the keyboard returns and leaves the whole heap as it
    was. *)
Theorem Player_Update_no_clear_key (k : Keys) (h : Heap) (p : loc) (pl : Player) :
  players h !! p = Some pl ->
  Player_Controller pl = ArrowKeysPtr ->
  KeyArrowUp k = KeyArrowDown k ->
  Player_Update k h p = Ret h.
Proof.
  intros Hp Hc Hk. rewrite (Player_Update_keyboard k h p pl Hp Hc).
  assert (Hdir : ArrowKeys_Input k = Nothing).
  { unfold ArrowKeys_Input. rewrite Hk. destruct (KeyArrowDown k); reflexivity. }
  rewrite Hdir, Player_move_Nothing. cbn [bind].
  rewrite store_player_id by exact Hp. reflexivity.
Qed.

Lemma Player_Update_no_clear_key_witness :
  Player_Update both_pressed setup 1%positive = Ret setup.
Proof.
  eapply (Player_Update_no_clear_key both_pressed setup 1%positive); reflexivity.
Defined.

(** *** Player.Update, on the integer grid *)

(** X4. A paddle on the integer grid and on the screen, steered by the
    keyboard: with only the up arrow held it moves up by Speed when
    y >= 2 * Speed and stays otherwise; with only the down arrow held it
    moves down by Speed when y + Height() + 2 * Speed <= screenHeight and
    stays otherwise. *)
Theorem Player_Update_keyboard_step
    (k : Keys) (h : Heap) (p : loc) (pl : Player) (img : Image) (y s : Z) :
  players h !! p = Some pl ->
  Player_Controller pl = ArrowKeysPtr ->
  Player_Sprite pl = Some img ->
  Y (Player_Point pl) = float64_of_int y ->
  Player_Speed pl = float64_of_int s ->
  (0 <= s <= 2 ^ 51)%Z ->
  (0 <= MaxY img)%Z ->
  (0 <= y)%Z ->
  (y + MaxY img <= screenHeight)%Z ->
  (KeyArrowUp k = true -> KeyArrowDown k = false ->
   Player_Update k h p
   = Ret (store_player h p
            (set_Y pl (float64_of_int (if (2 * s <=? y)%Z then y - s else y)%Z))))
  /\ (KeyArrowUp k = false -> KeyArrowDown k = true ->
      Player_Update k h p
      = Ret (store_player h p
               (set_Y pl (float64_of_int
                  (if (y + MaxY img + 2 * s <=? screenHeight)%Z
                   then y + s else y)%Z)))).
Proof.
  intros Hp Hc Himg HY HS Hs Hh Hy Hsum.
  rewrite (Player_Update_keyboard k h p pl Hp Hc).
  split; intros Hup Hdown; unfold ArrowKeys_Input; rewrite Hup, Hdown; cbn [Bool.eqb];
    rewrite (Player_move_int _ pl img y s Himg HY HS Hs Hh Hy Hsum); cbn [bind];
    unfold step_int.
  - replace (0 <=? y - 2 * s)%Z with (2 * s <=? y)%Z; [reflexivity|].
    destruct (Z.leb_spec (2 * s) y), (Z.leb_spec 0 (y - 2 * s)); lia || reflexivity.
  - reflexivity.
Qed.

Lemma Player_Update_keyboard_step_witness :
  Player_Update up_pressed (store_player setup 1%positive (paddle_at 50)) 1%positive
  = Ret (store_player setup 1%positive (paddle_at 48)).
Proof.
  refine (proj1 (Player_Update_keyboard_step up_pressed
                   (store_player setup 1%positive (paddle_at 50)) 1%positive
                   (paddle_at 50) _ 50 2 _ _ _ _ _ _ _ _ _) _ _);
    try reflexivity; vm_compute; try split; discriminate.
Defined.

(** X5. A paddle on the integer grid and on the screen, under any
    controller: when Player.Update has moved it, it has moved by exactly
    one Speed and is at least one Speed away from the top edge and from
    the bottom edge. *)
Theorem Player_Update_margin
    (k : Keys) (h : Heap) (p : loc) (pl : Player) (img : Image) (h' : Heap) (y s : Z) :
  players h !! p = Some pl ->
  Player_Sprite pl = Some img ->
  Y (Player_Point pl) = float64_of_int y ->
  Player_Speed pl = float64_of_int s ->
  (0 <= s <= 2 ^ 51)%Z ->
  (0 <= MaxY img)%Z ->
  (0 <= y)%Z ->
  (y + MaxY img <= screenHeight)%Z ->
  Player_Update k h p = Ret h' ->
  exists pl' y',
    players h' !! p = Some pl' /\ Y (Player_Point pl') = float64_of_int y'
    /\ (y' = y
        \/ ((y' = y - s \/ y' = y + s)
            /\ s <= y' /\ y' + MaxY img + s <= screenHeight))%Z.
Proof.
  intros Hp Himg HY HS Hs Hh Hy Hsum Hu.
  destruct (Player_Controller pl) as [| |l] eqn:Hctl.
  { unfold Player_Update in Hu. rewrite (deref_Some _ _ _ Hp) in Hu. cbn [bind] in Hu.
    rewrite Hctl in Hu. injection Hu as <-. exists pl, y. auto. }
  all: destruct (Player_Update_step k h p pl h' Hp) as (dir & h1 & pl' & _ & Hm & ->);
    [congruence|exact Hu|];
    rewrite (Player_move_int dir pl img y s Himg HY HS Hs Hh Hy Hsum) in Hm;
    injection Hm as <-;
    eexists _, _; (split; [apply lookup_insert_eq|]); (split; [reflexivity|]);
    apply step_int_margin; lia.
Qed.

Lemma Player_Update_margin_witness :
  exists pl' y',
    players (store_player (store_follower setup 1%positive committed) 2%positive
               {| Player_Sprite := playerSprite;
                  Player_Point := {| X := 310%float; Y := 188%float |};
                  Player_Controller := FollowBallPtr 1%positive;
                  Player_Speed := 2%float |}) !! 2%positive = Some pl'
    /\ Y (Player_Point pl') = float64_of_int y'
    /\ (y' = 190
        \/ ((y' = 190 - 2 \/ y' = 190 + 2)
            /\ 2 <= y' /\ y' + playerHeight + 2 <= screenHeight))%Z.
Proof.
  apply (Player_Update_margin no_key setup 2%positive
           {| Player_Sprite := playerSprite;
              Player_Point := {| X := 310%float; Y := 190%float |};
              Player_Controller := FollowBallPtr 1%positive;
              Player_Speed := 2%float |} {| MaxX := playerWidth; MaxY := playerHeight |} _ 190 2);
    try reflexivity; vm_compute; try split; discriminate.
Defined.

(** *** FollowBall.Input *)

(** X6. FollowBall.Input returns exactly when neither its Ball pointer nor
    its Player pointer is nil, whatever the counter; otherwise it panics
    with a nil dereference, also in the middle of a commit window. *)
Theorem FollowBall_Input_returns (h : Heap) (fb : FollowBall) :
  ((exists d fb', FollowBall_Input h fb = Ret (d, fb')) <-> live_refs fb h)
  /\ forall msg, FollowBall_Input h fb = Panic msg -> msg = nil_dereference.
Proof.
  split; [split|].
  - intros (d & fb' & Hi). exact (FollowBall_Input_Ret_live h fb d fb' Hi).
  - apply FollowBall_Input_live.
  - apply FollowBall_Input_Panic.
Qed.

(** X7. A controller with no commit window open never commits to a NaN:
    when the X or Y of the ball, the X or Y of the paddle or the Speed of
    the paddle is NaN, Input returns Nothing and leaves the controller as
    it was. *)
Theorem FollowBall_Input_nan (h : Heap) (fb : FollowBall) (bl : Ball) (pl : Player) :
  (count fb <= 0)%Z ->
  balls h !! FollowBall_Ball fb = Some bl ->
  players h !! FollowBall_Player fb = Some pl ->
  X (Ball_Point bl) = nan \/ Y (Ball_Point bl) = nan
  \/ X (Player_Point pl) = nan \/ Y (Player_Point pl) = nan \/ Player_Speed pl = nan ->
  FollowBall_Input h fb = Ret (Nothing, fb).
Proof.
  intros Hc Hb Hp Hnan. unfold FollowBall_Input.
  rewrite (deref_Some _ _ _ Hb). cbn [bind Location Ball_Collider Point_Location].
  rewrite (deref_Some _ _ _ Hp). cbn [bind Location Player_Collider Point_Location].
  destruct (Z.ltb_spec 0 (count fb)) as [Hpos|_]; [lia|].
  destruct Hnan as [Hn|[Hn|[Hn|[Hn|Hn]]]]; rewrite Hn.
  - rewrite sub_nan_l. reflexivity.
  - destruct (abs _ <? sight)%float; [|reflexivity].
    rewrite ltb_nan_l, ltb_nan_r. reflexivity.
  - rewrite sub_nan_r. reflexivity.
  - destruct (abs _ <? sight)%float; [|reflexivity].
    rewrite sub_nan_l, add_nan_l, ltb_nan_l, ltb_nan_r. reflexivity.
  - destruct (abs _ <? sight)%float; [|reflexivity].
    rewrite sub_nan_r, add_nan_r, ltb_nan_l, ltb_nan_r. reflexivity.
Qed.

Lemma FollowBall_Input_nan_witness :
  FollowBall_Input (store_ball setup 1%positive (ball_at 155 nan 1 1)) follower
  = Ret (Nothing, follower).
Proof.
  eapply (FollowBall_Input_nan (store_ball setup 1%positive (ball_at 155 nan 1 1)) follower).
  - vm_compute. discriminate.
  - reflexivity.
  - reflexivity.
  - right. left. reflexivity.
Defined.

(** X8. The decisions of a controller never flicker: in any run of calls
    of Input that starts with count = 0, whatever the heaps hold, each
    decision is Nothing for that tick or an Up or Down repeated for 16
    calls in a row (the one that made it and the 15 of its commit window),
    the last such run possibly cut short by the end of the run. *)
Theorem FollowBall_decisions_steady
    (hs : list Heap) (fb : FollowBall) (ds : list Direction) (fb' : FollowBall) :
  count fb = 0%Z ->
  FollowBall_Inputs hs fb = Ret (ds, fb') ->
  steady ds.
Proof.
  remember (length hs) as n eqn:Hn.
  assert (Hlen : (length hs <= n)%nat) by lia. clear Hn.
  revert hs fb ds Hlen. induction n as [|n IH]; intros hs fb ds Hlen Hc Hr.
  - destruct hs; [|cbn in Hlen; lia]. injection Hr as <- _. constructor.
  - destruct hs as [|h hs]; [injection Hr as <- _; constructor|].
    cbn [FollowBall_Inputs] in Hr. cbn [length] in Hlen.
    apply bind_Ret in Hr as ([d fb1] & Hi & Hr).
    apply bind_Ret in Hr as ([ds' fb2] & Hrest & Hr). injection Hr as <- <-.
    apply FollowBall_Input_cases in Hi as [(Hpos & _)|[(_ & Hd & ->)|(_ & -> & ->)]]; [lia| |].
    + rewrite Hc in Hrest. unfold decisionBuffer in Hrest.
      rewrite wrap64_small in Hrest by lia.
      assert (Hnot : d <> Nothing) by (destruct Hd; congruence).
      destruct (Nat.le_gt_cases 15 (length hs)) as [Hlong|Hshort].
      * rewrite <- (firstn_skipn 15 hs) in Hrest.
        apply FollowBall_Inputs_app in Hrest as (ds1 & fbm & ds2 & H1 & H2 & ->).
        apply window_Ret in H1;
          [|rewrite length_firstn; cbn [set_count count]; lia].
        rewrite length_firstn, Nat.min_l in H1 by exact Hlong.
        cbn [set_count count lastDecision FollowBall_Ball FollowBall_Player] in H1.
        destruct H1 as [-> ->].
        apply IH in H2; [|rewrite length_skipn; lia|reflexivity].
        change (d :: repeat d 15 ++ ds2) with (repeat d 16 ++ ds2).
        apply steady_hold; assumption.
      * apply window_Ret in Hrest; [|cbn [set_count count]; lia].
        destruct Hrest as [-> _]. cbn [set_count lastDecision].
        change (d :: repeat d (length hs)) with (repeat d (S (length hs))).
        apply steady_cut; [assumption|lia].
    + apply steady_idle. eapply IH; [|exact Hc|exact Hrest]. lia.
Qed.

Lemma FollowBall_decisions_steady_witness :
  steady (repeat Up 16 ++ [Nothing; Down; Down]).
Proof.
  apply (FollowBall_decisions_steady
           (repeat setup 16
            ++ [store_ball setup 1%positive (ball_at 155 190 1 1); ball_low; setup])
           follower _ (set_count follower Down 14)); reflexivity.
Defined.

(** *** Player.Update and nil pointers *)

(** X9. Player.Update returns exactly when nothing it dereferences is nil:
    the player itself; for a player steered by a FollowBall, that
    controller and its Ball and Player pointers; and the Sprite of the
    player when its controller answers Down, the one answer for which
    Height() is called.  Otherwise it panics with a nil dereference. *)
Theorem Player_Update_returns_iff (k : Keys) (h : Heap) (p : loc) :
  ((exists h', Player_Update k h p = Ret h') <-> Player_ready k h p)
  /\ forall msg, Player_Update k h p = Panic msg -> msg = nil_dereference.
Proof.
  split; [split|].
  - (* a call that returns found nothing nil *)
    intros [h' Hu]. pose proof Hu as Hu0. unfold Player_Update in Hu0.
    apply bind_Ret in Hu0 as (pl & Hp & _). apply deref_Ret in Hp.
    exists pl. split; [exact Hp|].
    destruct (Player_Controller pl) as [| |l] eqn:Hctl; [exact I| |].
    + destruct (Player_Update_step k h p pl h' Hp) as (dir & h1 & pl' & Hin & Hm & _);
        [congruence|exact Hu|].
      rewrite Hctl in Hin. injection Hin as <- <-.
      intros Hd. rewrite Hd in Hm. eapply Player_move_Down_sprite, Hm.
    + destruct (Player_Update_step k h p pl h' Hp) as (dir & h1 & pl' & Hin & Hm & _);
        [congruence|exact Hu|].
      rewrite Hctl in Hin.
      destruct (Controller_Input_own _ _ _ _ _ Hin) as (fb & fb' & Hfb & _ & Hi).
      exists fb. split; [exact Hfb|]. split; [exact (FollowBall_Input_Ret_live _ _ _ _ Hi)|].
      intros fb'' Hi'. rewrite Hi in Hi'. injection Hi' as -> _.
      eapply Player_move_Down_sprite, Hm.
  - (* nothing nil: the call returns *)
    intros (pl & Hp & Hc).
    destruct (Player_Controller pl) as [| |l] eqn:Hctl.
    + unfold Player_Update. rewrite (deref_Some _ _ _ Hp). cbn [bind]. rewrite Hctl. eauto.
    + rewrite (Player_Update_keyboard k h p pl Hp Hctl).
      destruct (Player_move_returns (ArrowKeys_Input k) pl Hc) as [pl' ->]. cbn [bind]. eauto.
    + destruct Hc as (fb & Hfb & Hlive & Hsp).
      destruct (FollowBall_Input_live _ _ Hlive) as (d & fb' & Hi).
      rewrite (Player_Update_follow k h p l pl fb fb' d Hp Hctl Hfb Hi).
      destruct (Player_move_returns d pl) as [pl' ->]; [|cbn [bind]; eauto].
      intros ->. eapply Hsp, Hi.
  - (* every panic is a nil dereference *)
    intros msg Hu.
    destruct (players h !! p) as [pl|] eqn:Hp.
    + destruct (Player_Controller pl) as [| |l] eqn:Hctl.
      { unfold Player_Update in Hu. rewrite (deref_Some _ _ _ Hp) in Hu. cbn [bind] in Hu.
        rewrite Hctl in Hu. discriminate. }
      all: rewrite (Player_Update_eq k h p pl Hp) in Hu by congruence;
        apply bind_Panic in Hu as [Hu|([dir h1] & _ & Hu)];
        [eapply Controller_Input_Panic, Hu|];
        apply bind_Panic in Hu as [Hu|(pl' & _ & Hu)]; [|discriminate];
        eapply Player_move_Panic, Hu.
    + unfold Player_Update, deref in Hu. rewrite Hp in Hu. cbn [bind] in Hu. congruence.
Qed.

(** *** Ball.Update, for every float64 *)

(** X10. Ball.Update touches nothing but its ball: the players, the
    controllers and the other balls are as before, the sprite of the ball
    is as before, and the ball has moved by exactly the velocity it ends
    the call with: X' = X + XSpeed' and Y' = Y + YSpeed'. *)
Theorem Ball_Update_frame (h : Heap) (b : loc) (cs : list Collider) (h' : Heap) :
  Ball_Update h b cs = Ret h' ->
  players h' = players h /\ followers h' = followers h
  /\ (forall q, q <> b -> balls h' !! q = balls h !! q)
  /\ exists bl bl',
       balls h !! b = Some bl /\ balls h' !! b = Some bl'
       /\ Ball_Sprite bl' = Ball_Sprite bl
       /\ X (Ball_Point bl') = (X (Ball_Point bl) + XSpeed bl')%float
       /\ Y (Ball_Point bl') = (Y (Ball_Point bl) + YSpeed bl')%float.
Proof.
  intros Hu.
  apply Ball_Update_Ret in Hu as (h1 & bl & bl1 & bl' & Hbl & Hscan & Hbl1 & He & ->).
  destruct (scan_keeps h b bl cs h1 Hbl Hscan)
    as (Hps & Hfs & Hother & bl1' & Hbl1' & Hsp & Hpt & _).
  rewrite Hbl1 in Hbl1'. injection Hbl1' as <-.
  cbn [store_ball players followers balls].
  split; [exact Hps|]. split; [exact Hfs|].
  split; [intros q Hq; rewrite lookup_insert_ne by congruence; apply Hother, Hq|].
  exists bl, bl'. split; [exact Hbl|]. split; [apply lookup_insert_eq|].
  apply edges_and_move_Ret in He as (ex & ey & _ & _ & Hs & _ & _ & HX & HY).
  rewrite Hs, HX, HY, Hsp, Hpt. auto.
Qed.

Lemma Ball_Update_frame_witness :
  players (store_ball setup 1%positive (ball_at 156 116 1 1)) = players setup
  /\ followers (store_ball setup 1%positive (ball_at 156 116 1 1)) = followers setup
  /\ (forall q, q <> 1%positive ->
        balls (store_ball setup 1%positive (ball_at 156 116 1 1)) !! q = balls setup !! q)
  /\ exists bl bl',
       balls setup !! 1%positive = Some bl
       /\ balls (store_ball setup 1%positive (ball_at 156 116 1 1)) !! 1%positive = Some bl'
       /\ Ball_Sprite bl' = Ball_Sprite bl
       /\ X (Ball_Point bl') = (X (Ball_Point bl) + XSpeed bl')%float
       /\ Y (Ball_Point bl') = (Y (Ball_Point bl) + YSpeed bl')%float.
Proof.
  apply (Ball_Update_frame setup 1%positive [PlayerPtr 1%positive; PlayerPtr 2%positive]).
  reflexivity.
Defined.

(** *** Ball.Update and nil pointers *)

(** X11. Ball.Update returns whenever the ball and its Sprite are not
    nil, no collider is nil or has a nil Sprite, and no collider is the
    ball itself. *)
Theorem Ball_Update_never_panics (h : Heap) (b : loc) (bl : Ball) (cs : list Collider) :
  balls h !! b = Some bl ->
  is_Some (Ball_Sprite bl) ->
  Forall (has_sprite h) cs ->
  Forall (fun c => c <> BallPtr b) cs ->
  exists h' bl', Ball_Update h b cs = Ret h' /\ balls h' !! b = Some bl'.
Proof.
  intros Hb Hsp Hlive Hnot.
  assert (Hself : Forall (fun c => is_self c b = false) cs).
  { eapply Forall_impl; [exact Hnot|]. intros [p|q] Hc; cbn [is_self]; [reflexivity|].
    apply bool_decide_eq_false_2. congruence. }
  assert (Hprobed : Forall (probed h bl) cs).
  { eapply Forall_impl; [exact Hlive|]. intros c Hc. apply probed_intro; assumption. }
  destruct (Ball_Update_returns h b bl cs Hb Hsp Hprobed Hself) as [h' Hu].
  exists h'. pose proof Hu as Hu'.
  apply Ball_Update_Ret in Hu' as (h1 & _ & _ & bl' & _ & _ & _ & _ & ->).
  exists bl'. split; [exact Hu|apply lookup_insert_eq].
Qed.

Lemma Ball_Update_never_panics_witness :
  exists h' bl',
    Ball_Update setup 1%positive [PlayerPtr 1%positive; PlayerPtr 2%positive] = Ret h'
    /\ balls h' !! 1%positive = Some bl'.
Proof.
  apply (Ball_Update_never_panics setup 1%positive (ball_at 155 115 1 1)).
  - reflexivity.
  - eexists. reflexivity.
  - repeat constructor; eexists _, _; split; reflexivity.
  - repeat constructor; discriminate.
Defined.

(** X12. Ball.Update panics with a nil dereference when the scan reaches
    a nil collider: one that no earlier collider of the list, each of them
    itself neither nil nor the ball, has been bounced off.  (When the ball
    or one of those earlier colliders has a nil Sprite, the nil
    dereference can be an earlier one.) *)
Theorem Ball_Update_nil_collider
    (h : Heap) (b : loc) (bl : Ball) (pre post : list Collider) (c : Collider) :
  balls h !! b = Some bl ->
  Forall (fun c' => ~ hits h bl c') pre ->
  Forall (live h) pre ->
  Forall (fun c' => c' <> BallPtr b) pre ->
  c <> BallPtr b ->
  ~ live h c ->
  Ball_Update h b (pre ++ c :: post) = Panic nil_dereference.
Proof.
  intros Hb Hmiss Hlive Hnot Hc Hnil.
  assert (Hs : scan h b (pre ++ c :: post) = Panic nil_dereference).
  { induction pre as [|a pre IH]; cbn [app].
    - cbn [scan].
      assert (Hself : is_self c b = false).
      { destruct c as [p|q]; cbn [is_self]; [reflexivity|].
        apply bool_decide_eq_false_2. congruence. }
      rewrite Hself.
      destruct c as [p|q]; cbn [Collider_Location]; unfold deref.
      + destruct (players h !! p) as [pl|] eqn:Hp; [|reflexivity].
        exfalso. apply Hnil. eexists. cbn [Collider_Location].
        rewrite (deref_Some _ _ _ Hp). reflexivity.
      + destruct (balls h !! q) as [bq|] eqn:Hq; [|reflexivity].
        exfalso. apply Hnil. eexists. cbn [Collider_Location].
        rewrite (deref_Some _ _ _ Hq). reflexivity.
    - apply Forall_cons in Hmiss as [Ha Hmiss].
      apply Forall_cons in Hlive as [Hla Hlive].
      apply Forall_cons in Hnot as [Hna Hnot].
      assert (Hself : is_self a b = false).
      { destruct a as [p|q]; cbn [is_self]; [reflexivity|].
        apply bool_decide_eq_false_2. congruence. }
      destruct (scan_cons_live h b bl a (pre ++ c :: post) Hb Hself Hla Ha) as [-> | ->];
        auto. }
  unfold Ball_Update. rewrite Hs. reflexivity.
Qed.

Lemma Ball_Update_nil_collider_witness :
  Ball_Update setup 1%positive ([PlayerPtr 1%positive] ++ PlayerPtr 7%positive :: [])
  = Panic nil_dereference.
Proof.
  apply (Ball_Update_nil_collider setup 1%positive (ball_at 155 115 1 1)).
  - reflexivity.
  - repeat constructor. intros (cX & cY & HL & Hi & Hn).
    injection HL as <- <-. discriminate Hn.
  - repeat constructor. eexists. reflexivity.
  - repeat constructor. discriminate.
  - discriminate.
  - intros [xy Hxy]. discriminate Hxy.
Defined.

(** *** Ball.Update, on the integer grid *)

(** X13. A ball on the integer grid that moves one pixel per tick
    vertically never leaves the screen vertically, whatever the colliders
    do: if 0 <= y and y + Height() <= screenHeight before Ball.Update (and
    the ball touches the top or bottom edge only on its way towards it),
    the same holds after it. *)
Theorem Ball_Update_vertical
    (h : Heap) (b : loc) (bl : Ball) (img : Image) (cs : list Collider) (h' : Heap) (y vy : Z) :
  balls h !! b = Some bl ->
  Ball_Sprite bl = Some img ->
  Y (Ball_Point bl) = float64_of_int y ->
  YSpeed bl = float64_of_int vy ->
  (0 <= MaxY img <= screenHeight - 1)%Z ->
  confined 0 (screenHeight - MaxY img) y vy ->
  Ball_Update h b cs = Ret h' ->
  exists bl' y' vy',
    balls h' !! b = Some bl' /\ Ball_Sprite bl' = Ball_Sprite bl
    /\ Y (Ball_Point bl') = float64_of_int y' /\ YSpeed bl' = float64_of_int vy'
    /\ confined 0 (screenHeight - MaxY img) y' vy'.
Proof.
  unfold screenHeight. intros Hbl Himg HY HV Hh Hconf Hu.
  apply Ball_Update_Ret in Hu as (h1 & bl0 & bl1 & bl' & Hbl0 & Hscan & Hbl1 & He & ->).
  rewrite Hbl in Hbl0. injection Hbl0 as <-.
  destruct (scan_keeps h b bl cs h1 Hbl Hscan)
    as (_ & _ & _ & bl1' & Hbl1' & Hsp & Hpt & Hys & _).
  rewrite Hbl1 in Hbl1'. injection Hbl1' as <-.
  pose proof Hconf as (Hy & Hv & _).
  set (hi := (240 - MaxY img)%Z) in *.
  exists bl', (y + reflect 0 hi y vy)%Z, (reflect 0 hi y vy).
  apply edges_and_move_Ret in He as (ex & ey & _ & Hey & Hs & _ & HVY & _ & HYm).
  rewrite (at_y_edge_int bl1 img y) in Hey by (rewrite ?Hpt, ?Hsp; auto; lia).
  injection Hey as Hey.
  assert (Hv' : YSpeed bl' = float64_of_int (reflect 0 hi y vy)).
  { rewrite HVY, Hys, HV, unit_speed_flip by assumption. f_equal.
    unfold reflect, screenHeight in *. rewrite <- Hey.
    replace (240 <=? y + MaxY img)%Z with (hi <=? y)%Z; [reflexivity|].
    subst hi. destruct (Z.leb_spec (240 - MaxY img) y), (Z.leb_spec 240 (y + MaxY img));
      lia || reflexivity. }
  split; [apply lookup_insert_eq|]. split; [congruence|].
  split; [|split; [exact Hv'|apply confined_step; [subst hi; lia|exact Hconf]]].
  rewrite HYm, Hv', Hpt, HY. apply of_int_add_signed; unfold reflect;
    destruct ((y <=? 0)%Z || (hi <=? y)%Z); subst hi; lia.
Qed.

Lemma Ball_Update_vertical_witness :
  exists bl' y' vy',
    balls (store_ball cornered 1%positive (ball_at (-1) 50 (-1) 1)) !! 1%positive = Some bl'
    /\ Ball_Sprite bl' = ballSprite
    /\ Y (Ball_Point bl') = float64_of_int y' /\ YSpeed bl' = float64_of_int vy'
    /\ confined 0 (screenHeight - ballWidth) y' vy'.
Proof.
  apply (Ball_Update_vertical cornered 1%positive (ball_at 0 49 (-1) 1)
           {| MaxX := ballWidth; MaxY := ballWidth |}
           [PlayerPtr 1%positive; PlayerPtr 2%positive] _ 49 1); try reflexivity.
  - vm_compute. split; discriminate.
  - unfold confined. vm_compute. intuition discriminate.
Defined.

(** X14. As long as no collider bounces it, a ball on the integer grid
    that moves one pixel per tick horizontally stays on the screen
    horizontally: if 0 <= x and x + Width() <= screenWidth before
    Ball.Update (and the ball touches the left or right edge only on its
    way towards it), the same holds after it. *)
Theorem Ball_Update_horizontal_free
    (h : Heap) (b : loc) (bl : Ball) (img : Image) (cs : list Collider) (h' : Heap) (x vx : Z) :
  balls h !! b = Some bl ->
  Ball_Sprite bl = Some img ->
  X (Ball_Point bl) = float64_of_int x ->
  XSpeed bl = float64_of_int vx ->
  (0 <= MaxX img <= screenWidth - 1)%Z ->
  confined 0 (screenWidth - MaxX img) x vx ->
  Forall (fun c => ~ hits h bl c) cs ->
  Ball_Update h b cs = Ret h' ->
  exists bl' x' vx',
    balls h' !! b = Some bl' /\ Ball_Sprite bl' = Ball_Sprite bl
    /\ X (Ball_Point bl') = float64_of_int x' /\ XSpeed bl' = float64_of_int vx'
    /\ confined 0 (screenWidth - MaxX img) x' vx'.
Proof.
  unfold screenWidth. intros Hbl Himg HX HV Hw Hconf Hmiss Hu.
  apply Ball_Update_Ret in Hu as (h1 & bl0 & bl1 & bl' & Hbl0 & Hscan & Hbl1 & He & ->).
  rewrite Hbl in Hbl0. injection Hbl0 as <-.
  destruct (scan_keeps h b bl cs h1 Hbl Hscan)
    as (_ & _ & _ & bl1' & Hbl1' & Hsp & Hpt & _ & Hxs).
  rewrite Hbl1 in Hbl1'. injection Hbl1' as <-.
  assert (Hxs' : XSpeed bl1 = XSpeed bl).
  { (* a bounce would need a collider that hits *)
    destruct Hxs as [[Hsame _]|(_ & c0 & Hin0 & Hhit)]; [exact Hsame|].
    exfalso. rewrite Forall_forall in Hmiss.
    apply (Hmiss c0); [apply list_elem_of_In, Hin0|exact Hhit]. }
  pose proof Hconf as (Hx & Hv & _).
  set (hi := (320 - MaxX img)%Z) in *.
  exists bl', (x + reflect 0 hi x vx)%Z, (reflect 0 hi x vx).
  apply edges_and_move_Ret in He as (ex & ey & Hex & _ & Hs & HVX & _ & HXm & _).
  rewrite (at_x_edge_int bl1 img x) in Hex by (rewrite ?Hpt, ?Hsp; auto; lia).
  injection Hex as Hex.
  assert (Hv' : XSpeed bl' = float64_of_int (reflect 0 hi x vx)).
  { rewrite HVX, Hxs', HV, unit_speed_flip by assumption. f_equal.
    unfold reflect, screenWidth in *. rewrite <- Hex.
    replace (320 <=? x + MaxX img)%Z with (hi <=? x)%Z; [reflexivity|].
    subst hi. destruct (Z.leb_spec (320 - MaxX img) x), (Z.leb_spec 320 (x + MaxX img));
      lia || reflexivity. }
  split; [apply lookup_insert_eq|]. split; [congruence|].
  split; [|split; [exact Hv'|apply confined_step; [subst hi; lia|exact Hconf]]].
  rewrite HXm, Hv', Hpt, HX. apply of_int_add_signed; unfold reflect;
    destruct ((x <=? 0)%Z || (hi <=? x)%Z); subst hi; lia.
Qed.

Lemma setup_paddles_miss_right :
  Forall (fun c => ~ hits (store_ball setup 1%positive (ball_at 310 115 1 1))
                     (ball_at 310 115 1 1) c)
         [PlayerPtr 1%positive; PlayerPtr 2%positive].
Proof.
  repeat constructor; intros (cX & cY & HL & Hi & Hn); injection HL as <- <-; discriminate Hn.
Qed.

Lemma Ball_Update_horizontal_free_witness :
  exists bl' x' vx',
    balls (store_ball (store_ball setup 1%positive (ball_at 310 115 1 1)) 1%positive
             (ball_at 309 116 (-1) 1)) !! 1%positive = Some bl'
    /\ Ball_Sprite bl' = ballSprite
    /\ X (Ball_Point bl') = float64_of_int x' /\ XSpeed bl' = float64_of_int vx'
    /\ confined 0 (screenWidth - ballWidth) x' vx'.
Proof.
  apply (Ball_Update_horizontal_free (store_ball setup 1%positive (ball_at 310 115 1 1))
           1%positive (ball_at 310 115 1 1) {| MaxX := ballWidth; MaxY := ballWidth |}
           [PlayerPtr 1%positive; PlayerPtr 2%positive] _ 310 1); try reflexivity.
  - vm_compute. split; discriminate.
  - unfold confined. vm_compute. intuition discriminate.
  - exact setup_paddles_miss_right.
Defined.

(** *** Game.Update *)



(** X16. The game never panics: from the state setup creates, any number
    of ticks, with any keys held in each, runs to the end, and then both
    paddles are on the screen, the ball is on the screen vertically and at
    most 11 pixels off it horizontally, and the controller is inside its
    commit window. *)
Theorem Game_run_from_setup (ticks : list (Keys * Meter)) :
  exists h' out, Game_run ticks game setup = Ret (h', out) /\ game_ok h'.
Proof.
  assert (Hgen : forall h, game_ok h ->
            exists h' out, Game_run ticks game h = Ret (h', out) /\ game_ok h').
  { induction ticks as [|[k m] ticks IH]; intros h Hok.
    - exists h, []. auto.
    - destruct (Game_Update_game_ok k m h Hok) as (h1 & out1 & Hu & Hok1).
      destruct (IH h1 Hok1) as (h2 & out2 & Hr & Hok2).
      exists h2, (out1 ++ out2). cbn [Game_run]. rewrite Hu. cbn [bind].
      rewrite Hr. cbn [bind]. auto. }
  apply Hgen, setup_game_ok.
Qed.
